(** * CryptoMath core: a shallow embedding of the algebraic hierarchy

    The C++ templates of [include/cryptomath/core] are embedded as functions
    over an arbitrary element type [T] that carries the two operators the
    code uses: [operator==] and [operator<].  A [Set<T>] (a wrapper around
    [std::set<T>]) is the strictly increasing list of its elements, C++
    exceptions are the [Throw] results of a small error monad, and every
    class is a record holding the data members of the class; a reference to
    a parent structure is the parent itself, since no structure changes
    after its construction.

    A valid structure is one that a constructor of the construction
    interface returned: [Groupoid_ctor], [Semigroup_ctor], [Monoid_ctor] and
    [Group_ctor] for the hierarchy, [Subgroup.ctor], [NormalSubgroup.ctor]
    and [FactorGroup.ctor] for the derived structures.  The carrier handed
    to a constructor is a [Set<T>], which is stated as [is_set]. *)

From Stdlib Require Import String Bool Arith ZArith Lia List Permutation.
Import ListNotations.

(** ** Exceptions

    The four standard exception classes the code throws, each with its
    message; [undefined_behaviour] is no exception: it marks an execution
    that leaves defined behaviour. *)

Inductive exn : Type :=
| invalid_argument (what : string)
| domain_error (what : string)
| runtime_error (what : string)
| logic_error (what : string)
| undefined_behaviour (what : string).

Inductive outcome (A : Type) : Type :=
| Ok (a : A)
| Throw (e : exn).

Arguments Ok {A} a.
Arguments Throw {A} e.

Definition bind {A B : Type} (m : outcome A) (k : A -> outcome B) : outcome B :=
  match m with
  | Ok a => k a
  | Throw e => Throw e
  end.

Notation "x <- m ;; k" := (bind m (fun x => k))
  (at level 100, m at next level, right associativity).

(** [for (x : l) body(x);] where the body may throw. *)
Fixpoint for_each {A : Type} (body : A -> outcome unit) (l : list A) : outcome unit :=
  match l with
  | [] => Ok tt
  | x :: l' => _ <- body x ;; for_each body l'
  end.

(** [for (x : l) if (!body(x)) return false;  return true;] *)
Fixpoint for_all {A : Type} (body : A -> outcome bool) (l : list A) : outcome bool :=
  match l with
  | [] => Ok true
  | x :: l' => b <- body x ;; if b then for_all body l' else Ok false
  end.

(** ** Element types: [operator==] and [operator<] *)

Class Element (T : Type) : Type := {
  eq_op : T -> T -> bool;
  lt_op : T -> T -> bool
}.

(** What [std::set] asks of the element type: [==] decides equality and [<]
    is a strict total order. *)
Class ElementLaws (T : Type) {E : Element T} : Prop := {
  eq_op_spec : forall a b : T, eq_op a b = true <-> a = b;
  lt_irrefl : forall a : T, lt_op a a = false;
  lt_trans : forall a b c : T, lt_op a b = true -> lt_op b c = true -> lt_op a c = true;
  lt_total : forall a b : T, lt_op a b = false -> lt_op b a = false -> a = b
}.

#[export] Instance Element_Z : Element Z := {| eq_op := Z.eqb; lt_op := Z.ltb |}.
#[export] Instance Element_nat : Element nat := {| eq_op := Nat.eqb; lt_op := Nat.ltb |}.

(** ** set.hpp: [Set<T>] *)

Section SetModel.
Context {T : Type} {E : Element T}.

Definition set_type : Type := list T.

(** Equivalence of keys as [std::set] sees it: neither is less. *)
Definition equiv (a b : T) : bool := negb (lt_op a b) && negb (lt_op b a).

(** [find(element) != end()]: some element of the set is equivalent to the
    key. *)
Definition contains (s : set_type) (element : T) : bool :=
  existsb (equiv element) s.

(** The number of elements; the size of a container in memory stays far
    below [2 ^ 64], so counting in [nat] loses nothing. *)
Definition size (s : set_type) : nat := List.length s.

Definition empty (s : set_type) : bool :=
  match s with [] => true | _ :: _ => false end.

Fixpoint insert (element : T) (s : set_type) : set_type :=
  match s with
  | [] => [element]
  | y :: s' =>
      if lt_op element y then element :: s
      else if lt_op y element then y :: insert element s'
      else s
  end.

(** [Set(std::initializer_list<T>)] and [Set(first, last)]. *)
Definition make_set (init : list T) : set_type :=
  fold_left (fun s x => insert x s) init [].

(** [operator==] of [std::set]: same size and equal element by element. *)
Fixpoint set_eq (s1 s2 : set_type) : bool :=
  match s1, s2 with
  | [], [] => true
  | x :: s1', y :: s2' => eq_op x y && set_eq s1' s2'
  | _, _ => false
  end.

(** [operator<] of [std::set]: lexicographic comparison. *)
Fixpoint set_lt (s1 s2 : set_type) : bool :=
  match s1, s2 with
  | _, [] => false
  | [], _ :: _ => true
  | x :: s1', y :: s2' =>
      if lt_op x y then true
      else if lt_op y x then false
      else set_lt s1' s2'
  end.

(** The class invariant of [std::set]: strictly increasing. *)
Fixpoint is_set (s : set_type) : Prop :=
  match s with
  | [] => True
  | x :: s' => (forall y, In y s' -> lt_op x y = true) /\ is_set s'
  end.

(** [std::map<T, V>]: [m[k] = v] and [m.find(k)]. *)
Fixpoint map_set {V : Type} (k : T) (v : V) (m : list (T * V)) : list (T * V) :=
  match m with
  | [] => [(k, v)]
  | (k', v') :: m' =>
      if lt_op k k' then (k, v) :: m
      else if lt_op k' k then (k', v') :: map_set k v m'
      else (k', v) :: m'
  end.

Fixpoint map_find {V : Type} (k : T) (m : list (T * V)) : option V :=
  match m with
  | [] => None
  | (k', v') :: m' => if equiv k k' then Some v' else map_find k m'
  end.

End SetModel.

#[export] Instance Element_Set {T : Type} {E : Element T} : Element (list T) :=
  {| eq_op := set_eq; lt_op := set_lt |}.

(** ** set.hpp: the operations on sets

    The algorithms of the standard library walk the two sorted ranges with
    [operator<]; their output goes through [std::inserter] into the result
    set, element by element. *)

Section SetOperations.
Context {T : Type} {E : Element T}.

(** [operator+]: the elements of [rhs] are inserted into a copy of [lhs]. *)
Definition set_plus (lhs rhs : list T) : list T :=
  fold_left (fun s x => insert x s) rhs lhs.

Definition union_with (this other : list T) : list T := set_plus this other.

(** [std::set_intersection] *)
Fixpoint std_set_intersection (l1 : list T) : list T -> list T :=
  match l1 with
  | [] => fun _ => []
  | a :: l1' =>
      fix inner (l2 : list T) : list T :=
        match l2 with
        | [] => []
        | b :: l2' =>
            if lt_op a b then std_set_intersection l1' l2
            else if lt_op b a then inner l2'
            else a :: std_set_intersection l1' l2'
        end
  end.

(** [std::set_difference] *)
Fixpoint std_set_difference (l1 : list T) : list T -> list T :=
  match l1 with
  | [] => fun _ => []
  | a :: l1' =>
      fix inner (l2 : list T) : list T :=
        match l2 with
        | [] => a :: l1'
        | b :: l2' =>
            if lt_op a b then a :: std_set_difference l1' l2
            else if lt_op b a then inner l2'
            else std_set_difference l1' l2'
        end
  end.

(** [std::set_symmetric_difference] *)
Fixpoint std_set_symmetric_difference (l1 : list T) : list T -> list T :=
  match l1 with
  | [] => fun l2 => l2
  | a :: l1' =>
      fix inner (l2 : list T) : list T :=
        match l2 with
        | [] => a :: l1'
        | b :: l2' =>
            if lt_op a b then a :: std_set_symmetric_difference l1' l2
            else if lt_op b a then b :: inner l2'
            else std_set_symmetric_difference l1' l2'
        end
  end.

(** [std::includes(first1, last1, first2, last2)]: the second range is
    contained in the first. *)
Fixpoint std_includes (l1 : list T) : list T -> bool :=
  match l1 with
  | [] => fun l2 => match l2 with [] => true | _ :: _ => false end
  | a :: l1' =>
      fun l2 =>
        match l2 with
        | [] => true
        | b :: l2' =>
            if lt_op b a then false
            else if negb (lt_op a b) then std_includes l1' l2'
            else std_includes l1' l2
        end
  end.

Definition intersection (this other : list T) : list T :=
  make_set (std_set_intersection this other).

Definition difference (this other : list T) : list T :=
  make_set (std_set_difference this other).

Definition symmetric_difference (this other : list T) : list T :=
  make_set (std_set_symmetric_difference this other).

Definition complement (this universal_set : list T) : list T :=
  difference universal_set this.

Definition is_subset_of (this other : list T) : bool := std_includes other this.

Definition is_proper_subset_of (this other : list T) : bool :=
  is_subset_of this other && (size this <? size other)%nat.

(** [erase(element)] removes the element equivalent to the key. *)
Fixpoint erase (element : T) (s : list T) : list T :=
  match s with
  | [] => []
  | y :: s' =>
      if lt_op element y then s
      else if lt_op y element then y :: erase element s'
      else s'
  end.

End SetOperations.

(** ** groupoid.hpp, semigroup.hpp, monoid.hpp, group.hpp *)

Section Structures.
Context {T : Type} {E : Element T}.

Open Scope string_scope.

Record Groupoid : Type := {
  elements_ : list T;
  operation_ : T -> T -> T
}.

Definition Groupoid_ctor (elements : list T) (op : T -> T -> T) : outcome Groupoid :=
  _ <- for_each (fun a =>
         for_each (fun b =>
           let result := op a b in
           if negb (contains elements result)
           then Throw (invalid_argument "Operation is not closed: result not in set")
           else Ok tt) elements) elements ;;
  Ok {| elements_ := elements; operation_ := op |}.

Definition operate (G : Groupoid) (a b : T) : outcome T :=
  if negb (contains (elements_ G) a) || negb (contains (elements_ G) b)
  then Throw (domain_error "Elements not in groupoid")
  else
    let result := operation_ G a b in
    if negb (contains (elements_ G) result)
    then Throw (runtime_error "Closure violation detected")
    else Ok result.

Definition get_set (G : Groupoid) : list T := elements_ G.

Definition is_associative (G : Groupoid) : outcome bool :=
  for_all (fun a =>
    for_all (fun b =>
      for_all (fun c =>
        ab <- operate G a b ;;
        left <- operate G ab c ;;
        bc <- operate G b c ;;
        right <- operate G a bc ;;
        Ok (eq_op left right)) (elements_ G)) (elements_ G)) (elements_ G).

Definition is_commutative (G : Groupoid) : outcome bool :=
  for_all (fun a =>
    for_all (fun b =>
      ab <- operate G a b ;;
      ba <- operate G b a ;;
      Ok (eq_op ab ba)) (elements_ G)) (elements_ G).

(** A semigroup adds no data member to its base. *)
Record Semigroup : Type := { semigroup_base :> Groupoid }.

Definition Semigroup_ctor (elements : list T) (op : T -> T -> T) : outcome Semigroup :=
  base <- Groupoid_ctor elements op ;;
  assoc <- is_associative base ;;
  if negb assoc
  then Throw (invalid_argument "Operation must be associative for semigroup")
  else Ok {| semigroup_base := base |}.

Record Monoid : Type := {
  monoid_base :> Semigroup;
  identity_ : T
}.

Definition Monoid_ctor (elements : list T) (op : T -> T -> T) (identity : T)
  : outcome Monoid :=
  base <- Semigroup_ctor elements op ;;
  if negb (contains (elements_ base) identity)
  then Throw (invalid_argument "Identity element must be in the set")
  else
    _ <- for_each (fun a =>
           l <- operate base identity a ;;
           if negb (eq_op l a)
           then Throw (invalid_argument "Element does not satisfy left identity property")
           else
             r <- operate base a identity ;;
             if negb (eq_op r a)
             then Throw (invalid_argument "Element does not satisfy right identity property")
             else Ok tt) (elements_ base) ;;
    Ok {| monoid_base := base; identity_ := identity |}.

Definition identity (M : Monoid) : T := identity_ M.

Record Group : Type := {
  group_base :> Monoid;
  inverse_func_ : T -> T;
  inverse_map_ : list (T * T)
}.

Definition Group_ctor (elements : list T) (op : T -> T -> T) (identity : T)
    (inverse_func : T -> T) : outcome Group :=
  base <- Monoid_ctor elements op identity ;;
  _ <- for_each (fun a =>
         let inv_a := inverse_func a in
         if negb (contains (elements_ base) inv_a)
         then Throw (invalid_argument "Inverse element not in the set")
         else
           r <- operate base a inv_a ;;
           if negb (eq_op r (identity_ base))
           then Throw (invalid_argument "Inverse does not satisfy a ∘ a⁻¹ = e")
           else
             l <- operate base inv_a a ;;
             if negb (eq_op l (identity_ base))
             then Throw (invalid_argument "Inverse does not satisfy a⁻¹ ∘ a = e")
             else Ok tt) (elements_ base) ;;
  Ok {| group_base := base;
        inverse_func_ := inverse_func;
        inverse_map_ :=
          fold_left (fun m a => map_set a (inverse_func a) m) (elements_ base) [] |}.

Definition inverse (G : Group) (a : T) : outcome T :=
  if negb (contains (elements_ G) a)
  then Throw (domain_error "Element not in group")
  else
    match map_find a (inverse_map_ G) with
    | Some v => Ok v
    | None => Ok (inverse_func_ G a)
    end.

Definition divide (G : Group) (a b : T) : outcome T :=
  b' <- inverse G b ;; operate G a b'.

Definition left_divide (G : Group) (a b : T) : outcome T :=
  b' <- inverse G b ;; operate G b' a.

(** The [while (exp > 0)] loop of [Group::power], by the binary digits of
    the positive [exp]: the last digit is [exp % 2], and [exp /= 2] drops
    it; with the digit [xH] the value of [exp] is 1, the round is the last
    one, and it still squares [current_power]. *)
Fixpoint power_loop (G : Group) (result current_power : T) (exp : positive)
  : outcome T :=
  match exp with
  | xI exp' =>
      result' <- operate G result current_power ;;
      current_power' <- operate G current_power current_power ;;
      power_loop G result' current_power' exp'
  | xO exp' =>
      current_power' <- operate G current_power current_power ;;
      power_loop G result current_power' exp'
  | xH =>
      result' <- operate G result current_power ;;
      _ <- operate G current_power current_power ;;
      Ok result'
  end.

(** The bounds of [long long]. *)
Definition LLONG_MIN : Z := - 2 ^ 63.
Definition LLONG_MAX : Z := 2 ^ 63 - 1.

(** [Group::power(a, n)] for a [long long n]: zero returns at once, a
    negative [n] calls [power(inverse(a), -n)], whose exponent is positive
    and so reaches the loop, and a positive [n] runs the loop.  The two
    arguments [inverse(a)] and [-n] of the inner call are evaluated in no
    fixed order, and [-n] overflows for [n = LLONG_MIN]: nothing is
    defined there, also where [inverse(a)] would throw. *)
Definition power (G : Group) (a : T) (n : Z) : outcome T :=
  match n with
  | Z0 => Ok (identity G)
  | Zneg exp =>
      if (n =? LLONG_MIN)%Z
      then Throw (undefined_behaviour "signed overflow in -n")
      else a' <- inverse G a ;; power_loop G (identity G) a' exp
  | Zpos exp => power_loop G (identity G) a exp
  end.

End Structures.

(** [for (x : l) state = body(state, x);] where the body may throw. *)
Fixpoint fold_each {A S : Type} (body : S -> A -> outcome S) (l : list A) (s : S)
  : outcome S :=
  match l with
  | [] => Ok s
  | x :: l' => s' <- body s x ;; fold_each body l' s'
  end.

(** [for (x : l) if (body(x)) return x;  return std::nullopt;] *)
Fixpoint find_first {A : Type} (body : A -> outcome bool) (l : list A)
  : outcome (option A) :=
  match l with
  | [] => Ok None
  | x :: l' => b <- body x ;; if b then Ok (Some x) else find_first body l'
  end.

(** [*s.begin()]: the least element; dereferencing [begin()] of an empty set
    has no defined behaviour, which the model reports as an error of its own. *)
Definition first_element {T : Type} (s : list T) : outcome T :=
  match s with
  | [] => Throw (undefined_behaviour "dereference of end()")
  | x :: _ => Ok x
  end.

(** Arithmetic of [size_t]. *)
Definition size_t_modulus : Z := 2 ^ 64.
Definition wrap (z : Z) : Z := z mod size_t_modulus.

(** The helper [gcd(a, b)] that [ElementOrder], [GroupExponent] and
    [detail] each carry: [while (b != 0) { temp = b; b = a % b; a = temp; }]
    on numbers counted in [nat]; the recursion is on [b], which every round
    replaces by a remainder of the division by it. *)
Fixpoint gcd_loop (b a : nat) {struct b} : nat :=
  match b with
  | O => a
  | S b' => gcd_loop (a mod S b') (S b')
  end.

Definition gcd (a b : nat) : nat := gcd_loop b a.

(** A [size_t] result counted in [nat], after the wrap-around. *)
Definition wrap_size (n : nat) : nat := Z.to_nat (wrap (Z.of_nat n)).

(** ** groupoid.hpp, semigroup.hpp, monoid.hpp, group.hpp: the other members *)

Section MoreStructures.
Context {T : Type} {E : Element T}.

Open Scope string_scope.

Definition is_idempotent (G : Groupoid) : outcome bool :=
  for_all (fun a =>
    aa <- operate G a a ;;
    Ok (eq_op aa a)) (elements_ G).

Definition has_left_cancellation (G : Groupoid) : outcome bool :=
  for_all (fun a =>
    for_all (fun b =>
      for_all (fun c =>
        ab <- operate G a b ;;
        ac <- operate G a c ;;
        Ok (negb (eq_op ab ac && negb (eq_op b c)))) (elements_ G)) (elements_ G))
    (elements_ G).

Definition has_right_cancellation (G : Groupoid) : outcome bool :=
  for_all (fun a =>
    for_all (fun b =>
      for_all (fun c =>
        ba <- operate G b a ;;
        ca <- operate G c a ;;
        Ok (negb (eq_op ba ca && negb (eq_op b c)))) (elements_ G)) (elements_ G))
    (elements_ G).

Definition has_cancellation (G : Groupoid) : outcome bool :=
  l <- has_left_cancellation G ;;
  if l then has_right_cancellation G else Ok false.

(** [Semigroup::product(first, last)] on the range as a list. *)
Definition product (S : Semigroup) (range : list T) : outcome T :=
  match range with
  | [] => Throw (invalid_argument "Empty product is not defined in semigroup")
  | first :: rest => fold_each (fun result x => operate S result x) rest first
  end.

(** The [while (exp > 0)] loop that [Semigroup::power] and [Monoid::power]
    share with [Group::power], by the binary digits of [exp]. *)
Fixpoint square_and_multiply (G : Groupoid) (result current_power : T) (exp : positive)
  : outcome T :=
  match exp with
  | xI exp' =>
      result' <- operate G result current_power ;;
      current_power' <- operate G current_power current_power ;;
      square_and_multiply G result' current_power' exp'
  | xO exp' =>
      current_power' <- operate G current_power current_power ;;
      square_and_multiply G result current_power' exp'
  | xH =>
      result' <- operate G result current_power ;;
      _ <- operate G current_power current_power ;;
      Ok result'
  end.

(** [Semigroup::power(a, n)] for a [size_t n]: the loop starts from
    [result = a] with the exponent [n - 1]. *)
Definition Semigroup_power (S : Semigroup) (a : T) (n : N) : outcome T :=
  match n with
  | N0 => Throw (invalid_argument "Zero power not defined in semigroup")
  | Npos xH => Ok a
  | Npos n' => square_and_multiply S a a (Pos.pred n')
  end.

(** The test of the two loops of [has_identity] and [find_identity]: the
    inner loop leaves at the first [a] that [candidate] does not fix. *)
Definition is_identity_candidate (S : Semigroup) (candidate : T) : outcome bool :=
  for_all (fun a =>
    l <- operate S candidate a ;;
    if negb (eq_op l a) then Ok false
    else
      r <- operate S a candidate ;;
      Ok (eq_op r a)) (elements_ S).

Definition has_identity (S : Semigroup) : outcome bool :=
  found <- find_first (is_identity_candidate S) (elements_ S) ;;
  match found with
  | Some _ => Ok true
  | None => Ok false
  end.

Definition find_identity (S : Semigroup) : outcome T :=
  found <- find_first (is_identity_candidate S) (elements_ S) ;;
  match found with
  | Some candidate => Ok candidate
  | None => Throw (logic_error "Semigroup has no identity element")
  end.

(** [Monoid(const Semigroup&)]: the base is copied, the identity searched. *)
Definition Monoid_from_semigroup (semigroup : Semigroup) : outcome Monoid :=
  e <- find_identity semigroup ;;
  Ok {| monoid_base := semigroup; identity_ := e |}.

(** [Monoid::power(a, n)] for a [size_t n]. *)
Definition Monoid_power (M : Monoid) (a : T) (n : N) : outcome T :=
  match n with
  | N0 => Ok (identity_ M)
  | Npos xH => Ok a
  | Npos n' => square_and_multiply M (identity_ M) a n'
  end.

(** The test [operate(a, b) == identity_ && operate(b, a) == identity_]. *)
Definition is_inverse_pair (M : Monoid) (a b : T) : outcome bool :=
  ab <- operate M a b ;;
  if eq_op ab (identity_ M) then
    ba <- operate M b a ;;
    Ok (eq_op ba (identity_ M))
  else Ok false.

Definition is_invertible (M : Monoid) (a : T) : outcome bool :=
  if negb (contains (elements_ M) a) then Ok false
  else
    found <- find_first (is_inverse_pair M a) (elements_ M) ;;
    match found with
    | Some _ => Ok true
    | None => Ok false
    end.

Definition Monoid_inverse (M : Monoid) (a : T) : outcome T :=
  invertible <- is_invertible M a ;;
  if negb invertible then Throw (logic_error "Element is not invertible")
  else
    found <- find_first (is_inverse_pair M a) (elements_ M) ;;
    match found with
    | Some b => Ok b
    | None => Throw (logic_error "Failed to find inverse")
    end.

Definition invertible_elements (M : Monoid) : outcome (list T) :=
  fold_each (fun invertible a =>
    found <- find_first (is_inverse_pair M a) (elements_ M) ;;
    match found with
    | Some _ => Ok (insert a invertible)
    | None => Ok invertible
    end) (elements_ M) [].

Definition is_abelian (G : Group) : outcome bool := is_commutative G.

(** [Group::satisfies_alternative_definition]: the operation is applied
    directly, so nothing throws. *)
Definition satisfies_alternative_definition (elements : list T) (op : T -> T -> T)
  : bool :=
  match find (fun candidate => forallb (fun a => eq_op (op candidate a) a) elements)
          elements with
  | None => false
  | Some left_identity =>
      if negb (forallb (fun a =>
                 existsb (fun candidate_inv => eq_op (op candidate_inv a) left_identity)
                   elements) elements)
      then false
      else
        forallb (fun a => forallb (fun b => forallb (fun c =>
          eq_op (op (op a b) c) (op a (op b c))) elements) elements) elements
  end.

Definition satisfies_right_alternative_definition (elements : list T) (op : T -> T -> T)
  : bool :=
  match find (fun candidate => forallb (fun a => eq_op (op a candidate) a) elements)
          elements with
  | None => false
  | Some right_identity =>
      if negb (forallb (fun a =>
                 existsb (fun candidate_inv => eq_op (op a candidate_inv) right_identity)
                   elements) elements)
      then false
      else
        forallb (fun a => forallb (fun b => forallb (fun c =>
          eq_op (op (op a b) c) (op a (op b c))) elements) elements) elements
  end.

End MoreStructures.

(** ** subgroup.hpp *)

Module Subgroup.
Section Subgroup.
Context {T : Type} {E : Element T}.
Open Scope string_scope.

Record t : Type := {
  parent_group_ : Group (T := T);
  subset_ : list T
}.

Definition parent_group (H : t) : Group := parent_group_ H.
Definition get_subset (H : t) : list T := subset_ H.

Definition verify_subgroup_criterion (H : t) : outcome bool :=
  if empty (subset_ H) then Ok false
  else
    in_parent <- for_all (fun a => Ok (contains (get_set (parent_group_ H)) a))
                   (subset_ H) ;;
    if negb in_parent then Ok false
    else
      for_all (fun a =>
        for_all (fun b =>
          b_inverse <- inverse (parent_group_ H) b ;;
          product <- operate (parent_group_ H) a b_inverse ;;
          Ok (contains (subset_ H) product)) (subset_ H)) (subset_ H).

Definition ctor (parent_group : Group) (subset : list T) : outcome t :=
  let this := {| parent_group_ := parent_group; subset_ := subset |} in
  ok <- verify_subgroup_criterion this ;;
  if negb ok
  then Throw (invalid_argument "Subset does not satisfy subgroup criterion")
  else Ok this.

Definition verify_finite_subgroup_criterion (H : t) : outcome bool :=
  if empty (subset_ H) then Ok false
  else
    in_parent <- for_all (fun a => Ok (contains (get_set (parent_group_ H)) a))
                   (subset_ H) ;;
    if negb in_parent then Ok false
    else
      for_all (fun a =>
        for_all (fun b =>
          product <- operate (parent_group_ H) a b ;;
          Ok (contains (subset_ H) product)) (subset_ H)) (subset_ H).

(** [trivial_subgroup(group)] and [improper_subgroup(group)]. *)
Definition trivial_subgroup (group : Group) : outcome t :=
  ctor group (make_set [identity group]).

Definition improper_subgroup (group : Group) : outcome t :=
  ctor group (get_set group).

Definition contains (H : t) (element : T) : bool := contains (subset_ H) element.
Definition size (H : t) : nat := size (subset_ H).

End Subgroup.
End Subgroup.

(** ** normal_subgroup.hpp *)

Module NormalSubgroup.
Section NormalSubgroup.
Context {T : Type} {E : Element T}.
Open Scope string_scope.

(** A normal subgroup adds no data member to its base. *)
Record t : Type := { base :> Subgroup.t (T := T) }.

Definition verify_normal (this : t) : outcome bool :=
  let G := Subgroup.parent_group this in
  let N := Subgroup.get_subset this in
  for_all (fun g =>
    for_all (fun n =>
      g_inverse <- inverse G g ;;
      gn <- operate G g n ;;
      conjugate <- operate G gn g_inverse ;;
      Ok (contains N conjugate)) N) (get_set G).

Definition verify_normal_via_cosets (this : t) : outcome bool :=
  let G := Subgroup.parent_group this in
  for_all (fun g =>
    left_coset <- fold_each (fun s n => x <- operate G g n ;; Ok (insert x s))
                    (Subgroup.get_subset this) [] ;;
    right_coset <- fold_each (fun s n => x <- operate G n g ;; Ok (insert x s))
                     (Subgroup.get_subset this) [] ;;
    Ok (set_eq left_coset right_coset)) (get_set G).

Definition is_normal (subgroup : Subgroup.t) : outcome bool :=
  let G := Subgroup.parent_group subgroup in
  let N := Subgroup.get_subset subgroup in
  for_all (fun g =>
    for_all (fun n =>
      g_inverse <- inverse G g ;;
      gn <- operate G g n ;;
      conjugate <- operate G gn g_inverse ;;
      Ok (contains N conjugate)) N) (get_set G).

(** [NormalSubgroup(const Subgroup&)] *)
Definition ctor (subgroup : Subgroup.t) : outcome t :=
  let this := {| base := subgroup |} in
  ok <- verify_normal this ;;
  if negb ok
  then Throw (invalid_argument "Subgroup is not normal")
  else Ok this.

(** [NormalSubgroup(const group_type&, const set_type&)] *)
Definition ctor_from_subset (parent_group : Group) (subset : list T) : outcome t :=
  subgroup <- Subgroup.ctor parent_group subset ;;
  let this := {| base := subgroup |} in
  ok <- verify_normal this ;;
  if negb ok
  then Throw (invalid_argument "Subset does not form a normal subgroup")
  else Ok this.

Definition trivial_normal_subgroup (group : Group) : outcome t :=
  trivial <- Subgroup.trivial_subgroup group ;;
  ctor trivial.

Definition improper_normal_subgroup (group : Group) : outcome t :=
  improper <- Subgroup.improper_subgroup group ;;
  ctor improper.

Definition is_normal_in_abelian_group (subgroup : Subgroup.t) : outcome bool :=
  is_abelian (Subgroup.parent_group subgroup).

End NormalSubgroup.
End NormalSubgroup.

(** ** center.hpp *)

Module Center.
Section Center.
Context {T : Type} {E : Element T}.

(** The inner loop of [compute] and the loop of [is_in_center]: it leaves
    at the first [g] that does not commute with the candidate. *)
Definition commutes_with_all (group : Group) (candidate : T) : outcome bool :=
  for_all (fun g =>
    left <- operate group candidate g ;;
    right <- operate group g candidate ;;
    Ok (eq_op left right)) (get_set group).

Definition compute (group : Group) : outcome (list T) :=
  fold_each (fun center candidate =>
    commutes <- commutes_with_all group candidate ;;
    if commutes then Ok (insert candidate center) else Ok center)
    (get_set group) [].

Definition as_subgroup (group : Group) : outcome Subgroup.t :=
  center_set <- compute group ;;
  Subgroup.ctor group center_set.

Definition is_in_center (group : Group) (element : T) : outcome bool :=
  if negb (contains (get_set group) element) then Ok false
  else commutes_with_all group element.

Definition is_abelian (group : Group) : outcome bool :=
  center <- compute group ;;
  Ok (set_eq center (get_set group)).

End Center.
End Center.

Module Centralizer.
Section Centralizer.
Context {T : Type} {E : Element T}.
Open Scope string_scope.

Definition compute (group : Group) (element : T) : outcome (list T) :=
  if negb (contains (get_set group) element)
  then Throw (domain_error "Element not in group")
  else
    fold_each (fun centralizer g =>
      left <- operate group g element ;;
      right <- operate group element g ;;
      if eq_op left right then Ok (insert g centralizer) else Ok centralizer)
      (get_set group) [].

Definition as_subgroup (group : Group) (element : T) : outcome Subgroup.t :=
  centralizer_set <- compute group element ;;
  Subgroup.ctor group centralizer_set.

End Centralizer.
End Centralizer.

(** ** coset.hpp *)

Module Coset.
Section Coset.
Context {T : Type} {E : Element T}.

Inductive CosetType : Type := LEFT | RIGHT.

Record t : Type := {
  group_ : Group (T := T);
  subgroup_ : Subgroup.t (T := T);
  representative_ : T;
  type_ : CosetType;
  coset_ : list T
}.

Definition build_coset (group : Group) (subgroup : Subgroup.t) (representative : T)
    (type : CosetType) : outcome (list T) :=
  let H := Subgroup.get_subset subgroup in
  match type with
  | LEFT =>
      fold_each (fun coset h =>
        element <- operate group representative h ;;
        Ok (insert element coset)) H []
  | RIGHT =>
      fold_each (fun coset h =>
        element <- operate group h representative ;;
        Ok (insert element coset)) H []
  end.

Definition ctor (group : Group) (subgroup : Subgroup.t) (representative : T)
    (type : CosetType) : outcome t :=
  coset <- build_coset group subgroup representative type ;;
  Ok {| group_ := group; subgroup_ := subgroup; representative_ := representative;
        type_ := type; coset_ := coset |}.

Definition get_coset (c : t) : list T := coset_ c.
Definition representative (c : t) : T := representative_ c.
Definition contains (c : t) (element : T) : bool := contains (coset_ c) element.
Definition size (c : t) : nat := size (coset_ c).

End Coset.
End Coset.

Module LagrangesTheorem.
Section LagrangesTheorem.
Context {T : Type} {E : Element T}.

(** The loop state is the pair of the locals [cosets] and [processed]. *)
Definition find_all_cosets (group : Group) (subgroup : Subgroup.t)
  : outcome (list (list T)) :=
  st <- fold_each (fun (st : list (list T) * list T) g =>
          let (cosets, processed) := st in
          let in_processed := existsb (fun coset => contains coset g) cosets in
          if in_processed then Ok (cosets, processed)
          else
            coset <- Coset.ctor group subgroup g Coset.LEFT ;;
            Ok (insert (Coset.get_coset coset) cosets,
                fold_left (fun p element => insert element p)
                  (Coset.get_coset coset) processed))
        (get_set group) ([], []) ;;
  Ok (fst st).

Definition compute_index (group : Group) (subgroup : Subgroup.t) : outcome nat :=
  cosets <- find_all_cosets group subgroup ;;
  Ok (size cosets).

Definition verify (group : Group) (subgroup : Subgroup.t) : outcome bool :=
  let group_order := size (get_set group) in
  let subgroup_order := Subgroup.size subgroup in
  index <- compute_index group subgroup ;;
  Ok (Z.of_nat group_order =? wrap (Z.of_nat subgroup_order * Z.of_nat index))%Z.

(** [group_order % subgroup_order == 0]: a remainder by zero has no
    defined behaviour. *)
Definition order_divides_group_order (group : Group (T := T))
    (subgroup : Subgroup.t (T := T)) : outcome bool :=
  let group_order := size (get_set group) in
  match Subgroup.size subgroup with
  | O => Throw (undefined_behaviour "division by zero"%string)
  | S _ as subgroup_order => Ok (group_order mod subgroup_order =? 0)%nat
  end.

(** The loop [for (d = 1; d <= group_order; ++d)] over sizes counted in
    [nat]. *)
Definition possible_subgroup_orders (group : Group (T := T)) : list nat :=
  let group_order := size (get_set group) in
  fold_left (fun divisors d =>
               if (group_order mod d =? 0)%nat then insert d divisors else divisors)
    (seq 1 group_order) [].

End LagrangesTheorem.
End LagrangesTheorem.

Module CosetPartition.
Section CosetPartition.
Context {T : Type} {E : Element T}.

Definition left_coset_partition (group : Group) (subgroup : Subgroup.t)
  : outcome (list (list T)) :=
  LagrangesTheorem.find_all_cosets group subgroup.

Definition right_coset_partition (group : Group) (subgroup : Subgroup.t)
  : outcome (list (list T)) :=
  fold_each (fun cosets g =>
    let in_processed := existsb (fun coset => contains coset g) cosets in
    if in_processed then Ok cosets
    else
      coset <- Coset.ctor group subgroup g Coset.RIGHT ;;
      Ok (insert (Coset.get_coset coset) cosets))
    (get_set group) [].

(** The loops over [it1] and the [it2] after it. *)
Fixpoint pairwise_disjoint (cosets : list (list T)) : bool :=
  match cosets with
  | [] => true
  | c1 :: rest =>
      forallb (fun c2 => empty (intersection c1 c2)) rest && pairwise_disjoint rest
  end.

Definition verify_partition (group : Group) (cosets : list (list T)) : bool :=
  let union_set :=
    fold_left (fun union_set coset => union_with union_set coset) cosets [] in
  if negb (set_eq union_set (get_set group)) then false
  else pairwise_disjoint cosets.

End CosetPartition.
End CosetPartition.

(** ** factor_group.hpp *)

Module FactorGroup.
Section FactorGroup.
Context {T : Type} {E : Element T}.
Open Scope string_scope.

Record t : Type := {
  parent_group_ : Group (T := T);
  normal_subgroup_ : NormalSubgroup.t (T := T);
  cosets_ : list (list T);
  element_to_coset_ : list (T * list T)
}.

Definition build_coset_set (group : Group) (normal_subgroup : NormalSubgroup.t)
  : outcome (list (list T) * list (T * list T)) :=
  cosets <- LagrangesTheorem.find_all_cosets group (NormalSubgroup.base normal_subgroup) ;;
  Ok (cosets,
      fold_left (fun m coset =>
        fold_left (fun m element => map_set element coset m) coset m) cosets []).

Definition ctor (group : Group) (normal_subgroup : NormalSubgroup.t) : outcome t :=
  built <- build_coset_set group normal_subgroup ;;
  Ok {| parent_group_ := group; normal_subgroup_ := normal_subgroup;
        cosets_ := fst built; element_to_coset_ := snd built |}.

Definition get_cosets (F : t) : list (list T) := cosets_ F.

Definition find_coset_containing (F : t) (element : T) : outcome (list T) :=
  match map_find element (element_to_coset_ F) with
  | Some coset => Ok coset
  | None => Throw (logic_error "Element not found in any coset")
  end.

Definition operate (F : t) (coset_a coset_b : list T) : outcome (list T) :=
  if negb (contains (cosets_ F) coset_a) || negb (contains (cosets_ F) coset_b)
  then Throw (domain_error "Invalid cosets")
  else
    rep_a <- first_element coset_a ;;
    rep_b <- first_element coset_b ;;
    product <- operate (parent_group_ F) rep_a rep_b ;;
    find_coset_containing F product.

Definition inverse (F : t) (coset : list T) : outcome (list T) :=
  if negb (contains (cosets_ F) coset)
  then Throw (domain_error "Invalid coset")
  else
    rep <- first_element coset ;;
    rep_inverse <- inverse (parent_group_ F) rep ;;
    find_coset_containing F rep_inverse.

Definition identity (F : t) : outcome (list T) :=
  find_coset_containing F (identity (parent_group_ F)).

Definition size (F : t) : nat := size (cosets_ F).

(** The three loops of [verify_factor_group]; each returns false at the
    first coset that fails its test. *)
Definition verify_factor_group (F : t) : outcome bool :=
  identity_coset <- identity F ;;
  identity_ok <- for_all (fun coset =>
    left <- operate F identity_coset coset ;;
    right <- operate F coset identity_coset ;;
    Ok (negb (negb (set_eq left coset) || negb (set_eq right coset))))
    (cosets_ F) ;;
  if negb identity_ok then Ok false
  else
    inverse_ok <- for_all (fun coset =>
      inv <- inverse F coset ;;
      left <- operate F coset inv ;;
      right <- operate F inv coset ;;
      Ok (negb (negb (set_eq left identity_coset) ||
                negb (set_eq right identity_coset))))
      (cosets_ F) ;;
    if negb inverse_ok then Ok false
    else
      for_all (fun a =>
        for_all (fun b =>
          for_all (fun c =>
            ab <- operate F a b ;;
            left <- operate F ab c ;;
            bc <- operate F b c ;;
            right <- operate F a bc ;;
            Ok (set_eq left right)) (cosets_ F)) (cosets_ F)) (cosets_ F).

End FactorGroup.
End FactorGroup.

(** ** element_order.hpp *)

Module ElementOrder.
Section ElementOrder.
Context {T : Type} {E : Element T}.
Open Scope string_scope.

(** [for (size_t n = 1; n <= group_order; ++n)]: [remaining] counts the
    rounds still to run, that is [group_order + 1 - n]. *)
Fixpoint compute_loop (group : Group) (element : T) (remaining n : nat) (current : T)
  : outcome (option nat) :=
  match remaining with
  | O => Ok None
  | S remaining' =>
      if eq_op current (identity group) then Ok (Some n)
      else
        current' <- operate group current element ;;
        compute_loop group element remaining' (S n) current'
  end.

Definition compute (group : Group) (element : T) : outcome (option nat) :=
  if negb (contains (get_set group) element)
  then Throw (domain_error "Element not in group")
  else if eq_op element (identity group) then Ok (Some 1)
  else
    let group_order := size (get_set group) in
    compute_loop group element group_order 1 element.

Definition is_finite (group : Group) (element : T) : outcome bool :=
  order <- compute group element ;;
  match order with
  | Some _ => Ok true
  | None => Ok false
  end.

Definition is_infinite (group : Group) (element : T) : outcome bool :=
  finite <- is_finite group element ;;
  Ok (negb finite).

Definition get_order (group : Group) (element : T) : outcome nat :=
  order <- compute group element ;;
  match order with
  | Some n => Ok n
  | None => Throw (logic_error "Element has infinite order")
  end.

Definition has_order (group : Group) (element : T) (n : nat) : outcome bool :=
  order <- compute group element ;;
  match order with
  | Some m => Ok (m =? n)%nat
  | None => Ok false
  end.

(** [static_cast<long long>(n)] of a [size_t n]. *)
Definition to_long_long (n : Z) : Z :=
  if (n <? 2 ^ 63)%Z then n else (n - size_t_modulus)%Z.

Definition satisfies_identity_power (group : Group) (element : T) (n : Z) : outcome bool :=
  power_result <- power group element (to_long_long n) ;;
  Ok (eq_op power_result (identity group)).

Definition elements_of_order (group : Group) (order : nat) : outcome (list T) :=
  fold_each (fun result element =>
    has <- has_order group element order ;;
    if has then Ok (insert element result) else Ok result) (get_set group) [].

(** [ElementOrder::Properties] *)
Definition order_equals_inverse_order (group : Group) (element : T) : outcome bool :=
  order <- compute group element ;;
  match order with
  | None => Ok false
  | Some n =>
      element_inverse <- inverse group element ;;
      inv_order <- compute group element_inverse ;;
      match inv_order with
      | Some m => Ok (n =? m)%nat
      | None => Ok false
      end
  end.

Definition order_divides_power (group : Group) (element : T) (n : Z) : outcome bool :=
  satisfied <- satisfies_identity_power group element n ;;
  if negb satisfied then Ok false
  else
    order <- compute group element ;;
    match order with
    | None => Ok false
    | Some m => Ok (n mod Z.of_nat m =? 0)%Z
    end.

Definition order_of_power (group : Group) (element : T) (k : Z) : outcome bool :=
  ord_a <- compute group element ;;
  match ord_a with
  | None => Ok false
  | Some n =>
      let gcd_value := gcd n (Z.to_nat k) in
      let expected_order := (n / gcd_value)%nat in
      power_element <- power group element (to_long_long k) ;;
      actual_order <- compute group power_element ;;
      match actual_order with
      | Some m => Ok (m =? expected_order)%nat
      | None => Ok false
      end
  end.

(** [CyclicSubgroupOrder::via_cyclic_subgroup]: the loop
    [for (size_t n = 1; n <= max_iterations; ++n)] with
    [remaining = max_iterations + 1 - n]. *)
Fixpoint via_cyclic_subgroup_loop (group : Group) (element : T) (remaining n : nat)
    (cyclic_subgroup : list T) (current : T) : outcome (option nat) :=
  match remaining with
  | O => Ok None
  | S remaining' =>
      if eq_op current (identity group) then Ok (Some n)
      else
        let cyclic_subgroup' := insert current cyclic_subgroup in
        current' <- operate group current element ;;
        if contains cyclic_subgroup' current' && negb (eq_op current' (identity group))
        then Ok (Some n)
        else via_cyclic_subgroup_loop group element remaining' (S n)
               cyclic_subgroup' current'
  end.

Definition via_cyclic_subgroup (group : Group) (element : T) : outcome (option nat) :=
  let cyclic_subgroup := insert (identity group) [] in
  let current := element in
  let max_iterations := size (get_set group) in
  via_cyclic_subgroup_loop group element max_iterations 1 cyclic_subgroup current.

End ElementOrder.
End ElementOrder.

(** ** cyclic_group.hpp *)

Module CyclicGroup.
Section CyclicGroup.
Context {T : Type} {E : Element T}.
Open Scope string_scope.

Definition is_generator (group : Group) (element : T) : outcome bool :=
  if negb (contains (get_set group) element) then Ok false
  else
    order <- ElementOrder.compute group element ;;
    match order with
    | None => Ok false
    | Some order =>
        let group_order := size (get_set group) in
        Ok (order =? group_order)%nat
    end.

Definition find_generator (group : Group) : outcome (option T) :=
  find_first (fun candidate => is_generator group candidate) (get_set group).

(** The loop of the branch without a finite order: [i] runs from 0 while
    [remaining] rounds are left; the test at the top is the [break]. *)
Fixpoint generate_capped (group : Group) (generator : T) (remaining i : nat)
    (subgroup : list T) (current : T) : outcome (list T) :=
  match remaining with
  | O => Ok subgroup
  | S remaining' =>
      if eq_op current (identity group) && (0 <? i)%nat then Ok subgroup
      else
        current' <- operate group current generator ;;
        generate_capped group generator remaining' (S i)
          (insert current subgroup) current'
  end.

(** [for (size_t i = 1; i < *order; ++i)], with [remaining = *order - i]. *)
Fixpoint generate_exact (group : Group) (generator : T) (remaining : nat)
    (subgroup : list T) (current : T) : outcome (list T) :=
  match remaining with
  | O => Ok subgroup
  | S remaining' =>
      current' <- operate group current generator ;;
      generate_exact group generator remaining' (insert current subgroup) current'
  end.

Definition generate_cyclic_subgroup (group : Group) (generator : T)
  : outcome (list T) :=
  if negb (contains (get_set group) generator)
  then Throw (domain_error "Element not in group")
  else
    let subgroup := insert (identity group) [] in
    let current := generator in
    order <- ElementOrder.compute group generator ;;
    match order with
    | None =>
        let max_iterations := size (get_set group) in
        generate_capped group generator max_iterations 0 subgroup current
    | Some order =>
        generate_exact group generator (order - 1)%nat subgroup current
    end.

Definition is_cyclic (group : Group) : outcome bool :=
  generator <- find_generator group ;;
  match generator with
  | Some _ => Ok true
  | None => Ok false
  end.

Definition find_all_generators (group : Group) : outcome (list T) :=
  cyclic <- is_cyclic group ;;
  if negb cyclic then Ok []
  else
    fold_each (fun generators element =>
      generates <- is_generator group element ;;
      if generates then Ok (insert element generators) else Ok generators)
      (get_set group) [].

Definition cyclic_subgroup (group : Group) (generator : T) : outcome Subgroup.t :=
  subgroup_set <- generate_cyclic_subgroup group generator ;;
  Subgroup.ctor group subgroup_set.

(** [CyclicGroup::Properties::is_abelian] *)
Definition Properties_is_abelian (group : Group) : outcome bool :=
  cyclic <- is_cyclic group ;;
  if negb cyclic then Ok false else is_abelian group.

End CyclicGroup.
End CyclicGroup.

(** ** group_exponent.hpp *)

Module GroupExponent.
Section GroupExponent.
Context {T : Type} {E : Element T}.
Open Scope string_scope.

Definition lcm (a b : nat) : nat :=
  if (a =? 0)%nat || (b =? 0)%nat then 0
  else wrap_size (a / gcd a b * b).

Definition lcm_vector (numbers : list nat) : nat :=
  match numbers with
  | [] => 1
  | first :: rest => fold_left lcm rest first
  end.

(** The first loop of [compute]: it returns [std::nullopt] at the first
    element without an order and otherwise appends the order to [orders]. *)
Fixpoint collect_orders (group : Group) (elements : list T) (orders : list nat)
  : outcome (option (list nat)) :=
  match elements with
  | [] => Ok (Some orders)
  | element :: elements' =>
      order <- ElementOrder.compute group element ;;
      match order with
      | None => Ok None
      | Some n => collect_orders group elements' (orders ++ [n])
      end
  end.

Definition compute (group : Group) : outcome (option nat) :=
  collected <- collect_orders group (get_set group) [] ;;
  match collected with
  | None => Ok None
  | Some orders =>
      if empty orders then Ok None else Ok (Some (lcm_vector orders))
  end.

Definition get_exponent (group : Group) : outcome nat :=
  exponent <- compute group ;;
  match exponent with
  | Some n => Ok n
  | None => Throw (logic_error "Group has infinite exponent")
  end.

Definition is_finite (group : Group) : outcome bool :=
  exponent <- compute group ;;
  match exponent with
  | Some _ => Ok true
  | None => Ok false
  end.

Definition satisfies_exponent (group : Group) (n : Z) : outcome bool :=
  for_all (fun element =>
    power_result <- power group element (ElementOrder.to_long_long n) ;;
    Ok (eq_op power_result (identity group))) (get_set group).

(** [group_order % *exp]: a division by zero has no defined behaviour. *)
Definition divides_group_order (group : Group) : outcome bool :=
  exp <- compute group ;;
  match exp with
  | None => Ok false
  | Some O => Throw (undefined_behaviour "division by zero")
  | Some n => Ok (size (get_set group) mod n =? 0)%nat
  end.

Definition is_cyclic (group : Group) : outcome bool :=
  exp <- compute group ;;
  match exp with
  | None => Ok false
  | Some n => Ok (n =? size (get_set group))%nat
  end.

Definition has_exponent (group : Group) (n : nat) : outcome bool :=
  exp <- compute group ;;
  match exp with
  | None => Ok false
  | Some m => Ok (m =? n)%nat
  end.

(** [has_exponent(group, exponent) && satisfies_exponent(group, exponent)]:
    the second test runs only when the first one holds. *)
Definition matches_exponent (group : Group) (exponent : nat) : outcome bool :=
  has <- has_exponent group exponent ;;
  if has then satisfies_exponent group (Z.of_nat exponent) else Ok false.

(** [ExponentOrderRelation::orders_divide_exponent] *)
Definition orders_divide_exponent (group : Group) : outcome bool :=
  exp <- compute group ;;
  match exp with
  | None => Ok false
  | Some x =>
      for_all (fun element =>
        order <- ElementOrder.compute group element ;;
        match order with
        | Some O => Throw (undefined_behaviour "division by zero")
        | Some n => Ok (x mod n =? 0)%nat
        | None => Ok true
        end) (get_set group)
  end.

(** [CyclicGroup::Properties::exponent_equals_order] *)
Definition exponent_equals_order (group : Group) : outcome bool :=
  cyclic <- CyclicGroup.is_cyclic group ;;
  if negb cyclic then Ok false
  else
    exp <- compute group ;;
    match exp with
    | None => Ok false
    | Some n => Ok (n =? size (get_set group))%nat
    end.

End GroupExponent.
End GroupExponent.

(** ** euler_function.hpp

    [size_t] values are integers below [2 ^ 64]; products, sums and
    increments wrap around.  A loop whose number of rounds is not known
    beforehand runs for a given number of rounds, and [None] tells that
    these did not suffice. *)

Module EulerFunction.
Open Scope Z_scope.

(** [while (temp % p == 0) temp /= p;] *)
Fixpoint strip_factor (rounds : nat) (temp p : Z) : option Z :=
  if temp mod p =? 0 then
    match rounds with
    | O => None
    | S rounds' => strip_factor rounds' (temp / p) p
    end
  else Some temp.

(** [for (size_t p = 2; p * p <= temp; ++p)], on the locals [temp] and
    [result]. *)
Fixpoint factor_loop (rounds : nat) (p temp result : Z) : option (Z * Z) :=
  if wrap (p * p) <=? temp then
    match rounds with
    | O => None
    | S rounds' =>
        if temp mod p =? 0 then
          match strip_factor (Z.to_nat temp) temp p with
          | None => None
          | Some temp' =>
              factor_loop rounds' (wrap (p + 1)) temp' (wrap (result / p * (p - 1)))
          end
        else factor_loop rounds' (wrap (p + 1)) temp result
    end
  else Some (temp, result).

Definition compute (n : Z) : option Z :=
  if n =? 0 then Some 0
  else if n =? 1 then Some 1
  else
    match factor_loop (Z.to_nat n) 2 n n with
    | None => None
    | Some (temp, result) =>
        if temp >? 1 then Some (wrap (result / temp * (temp - 1)))
        else Some result
    end.

(** [for (size_t d = 1; d <= n; ++d)], with [remaining = n + 1 - d]. *)
Fixpoint sum_loop (remaining : nat) (d n sum : Z) : option Z :=
  match remaining with
  | O => Some sum
  | S remaining' =>
      if n mod d =? 0 then
        match compute d with
        | None => None
        | Some phi => sum_loop remaining' (wrap (d + 1)) n (wrap (sum + phi))
        end
      else sum_loop remaining' (wrap (d + 1)) n sum
  end.

Definition verify_sum_over_divisors (n : Z) : option bool :=
  match sum_loop (Z.to_nat n) 1 n 0 with
  | None => None
  | Some sum => Some (sum =? n)
  end.

(** [for (size_t i = 1; i < n; ++i)], with [remaining = n - i]; [std::gcd]
    is the greatest common divisor. *)
Fixpoint count_loop (remaining : nat) (i n count : Z) : Z :=
  match remaining with
  | O => count
  | S remaining' =>
      count_loop remaining' (wrap (i + 1)) n
        (if Z.gcd i n =? 1 then wrap (count + 1) else count)
  end.

Definition count_coprime (n : Z) : Z :=
  if n =? 0 then 0
  else if n =? 1 then 1
  else count_loop (Z.to_nat (n - 1)) 1 n 0.

Definition verify_count (n : Z) : option bool :=
  match compute n with
  | None => None
  | Some phi => Some (phi =? count_coprime n)
  end.

Definition number_of_generators {T : Type} {E : Element T} (group : Group (T := T))
  : outcome (option Z) :=
  cyclic <- CyclicGroup.is_cyclic group ;;
  if negb cyclic then Ok (Some 0)
  else
    let group_order := Z.of_nat (size (get_set group)) in
    Ok (compute group_order).

End EulerFunction.

(** ** Concrete structures of the scenarios *)

Module Scenario.
Open Scope Z_scope.

(** Scenario A: the integers modulo 6 under addition. *)
Definition Z6 : list Z := make_set [0; 1; 2; 3; 4; 5].
Definition add6 (a b : Z) : Z := (a + b) mod 6.
Definition neg6 (a : Z) : Z := (6 - a) mod 6.

(** The negative scenario: {0, 1, 2} under multiplication modulo 3. *)
Definition Z3 : list Z := make_set [0; 1; 2].
Definition mul3 (a b : Z) : Z := (a * b) mod 3.

(** The symmetric group on three points by its multiplication table: 0 is
    the identity, 1, 2 and 3 are the transpositions, 4 and 5 the rotations. *)
Definition S3 : list Z := make_set [0; 1; 2; 3; 4; 5].
Definition tableS3 : list (list Z) :=
  [[0; 1; 2; 3; 4; 5]; [1; 0; 4; 5; 2; 3]; [2; 5; 0; 4; 3; 1];
   [3; 4; 5; 0; 1; 2]; [4; 3; 1; 2; 5; 0]; [5; 2; 3; 1; 0; 4]].
Definition mulS3 (a b : Z) : Z := nth (Z.to_nat b) (nth (Z.to_nat a) tableS3 []) 0.
Definition invS3 (a : Z) : Z := nth (Z.to_nat a) [0; 1; 2; 3; 5; 4] 0.

End Scenario.

(** * Vocabulary of the statements *)

Section Vocabulary.
Context {T : Type} {E : Element T}.

Definition closed (elements : list T) (op : T -> T -> T) : Prop :=
  forall a b, In a elements -> In b elements -> In (op a b) elements.

Definition associative (elements : list T) (op : T -> T -> T) : Prop :=
  forall a b c, In a elements -> In b elements -> In c elements ->
    op (op a b) c = op a (op b c).

Definition is_identity (elements : list T) (op : T -> T -> T) (e : T) : Prop :=
  In e elements /\ forall a, In a elements -> op e a = a /\ op a e = a.

(** The three conditions the constructor of [Group] puts on the inverse of [a]. *)
Definition good_inverse (elements : list T) (op : T -> T -> T) (e : T) (inv : T -> T)
    (a : T) : Prop :=
  In (inv a) elements /\ op a (inv a) = e /\ op (inv a) a = e.

(** The violations of the inverse law that the constructor of [Group] reports. *)
Definition invalid_inverse (e : exn) : Prop :=
  e = invalid_argument "Inverse element not in the set" \/
  e = invalid_argument "Inverse does not satisfy a ∘ a⁻¹ = e" \/
  e = invalid_argument "Inverse does not satisfy a⁻¹ ∘ a = e".

(** The body of the checking loop in the constructor of [Group]. *)
Definition check_inverse (base : Monoid) (inverse_func : T -> T) (a : T) : outcome unit :=
  let inv_a := inverse_func a in
  if negb (contains (elements_ base) inv_a)
  then Throw (invalid_argument "Inverse element not in the set")
  else
    r <- operate base a inv_a ;;
    if negb (eq_op r (identity_ base))
    then Throw (invalid_argument "Inverse does not satisfy a ∘ a⁻¹ = e")
    else
      l <- operate base inv_a a ;;
      if negb (eq_op l (identity_ base))
      then Throw (invalid_argument "Inverse does not satisfy a⁻¹ ∘ a = e")
      else Ok tt.

End Vocabulary.

Section GroupVocabulary.
Context {T : Type} {E : Element T}.

(** What a successfully constructed [Group] satisfies. *)
Record valid_group (G : Group (T := T)) : Prop := {
  vg_set : is_set (elements_ G);
  vg_closed : closed (elements_ G) (operation_ G);
  vg_assoc : associative (elements_ G) (operation_ G);
  vg_identity : is_identity (elements_ G) (operation_ G) (identity G);
  vg_inverse : forall a, In a (elements_ G) ->
    good_inverse (elements_ G) (operation_ G) (identity G) (inverse_func_ G) a;
  vg_map : forall a v, map_find a (inverse_map_ G) = Some v -> v = inverse_func_ G a
}.

(** What a successfully constructed [Subgroup] satisfies. *)
Record valid_subgroup (H : Subgroup.t (T := T)) : Prop := {
  vs_group : valid_group (Subgroup.parent_group H);
  vs_set : is_set (Subgroup.get_subset H);
  vs_nonempty : Subgroup.get_subset H <> [];
  vs_incl : forall a, In a (Subgroup.get_subset H) ->
    In a (elements_ (Subgroup.parent_group H));
  vs_criterion : forall a b,
    In a (Subgroup.get_subset H) -> In b (Subgroup.get_subset H) ->
    In (operation_ (Subgroup.parent_group H) a
          (inverse_func_ (Subgroup.parent_group H) b)) (Subgroup.get_subset H)
}.

(** Normality: [g ∘ n ∘ g⁻¹] stays in [N]. *)
Definition conjugation_closed (H : Subgroup.t (T := T)) : Prop :=
  let G := Subgroup.parent_group H in
  forall g n, In g (elements_ G) -> In n (Subgroup.get_subset H) ->
    In (operation_ G (operation_ G g n) (inverse_func_ G g)) (Subgroup.get_subset H).

(** The power [a^n] as the [n]-fold product. *)
Fixpoint gpow (G : Group) (a : T) (n : nat) : T :=
  match n with
  | O => identity G
  | S n' => operation_ G (gpow G a n') a
  end.

(** The left coset [g ∘ H] and the right coset [H ∘ g] as sets. *)
Definition left_coset (G : Group) (H : list T) (g : T) : list T :=
  make_set (map (fun h => operation_ G g h) H).

Definition right_coset (G : Group) (H : list T) (g : T) : list T :=
  make_set (map (fun h => operation_ G h g) H).

(** Normality through cosets: [gN = Ng] for every [g]. *)
Definition cosets_coincide (H : Subgroup.t (T := T)) : Prop :=
  let G := Subgroup.parent_group H in
  forall g, In g (elements_ G) ->
    left_coset G (Subgroup.get_subset H) g = right_coset G (Subgroup.get_subset H) g.

End GroupVocabulary.

Section ConstructedVocabulary.
Context {T : Type} {E : Element T}.

(** The groupoids that exist: the constructor of [Groupoid] returned them,
    or they are the base of a constructed [Semigroup], [Monoid] or [Group]. *)
Inductive constructed : Groupoid (T := T) -> Prop :=
| constructed_Groupoid elements op (G : Groupoid) :
    Groupoid_ctor elements op = Ok G -> constructed G
| constructed_Semigroup elements op (S : Semigroup) :
    Semigroup_ctor elements op = Ok S -> constructed S
| constructed_Monoid elements op e (M : Monoid) :
    Monoid_ctor elements op e = Ok M -> constructed M
| constructed_Group elements op e inv (G : Group) :
    Group_ctor elements op e inv = Ok G -> constructed G.

End ConstructedVocabulary.

Section InverseVocabulary.
Context {T : Type} {E : Element T}.

(** The supplied inverse of [a] is outside the carrier or fails
    [a ∘ a⁻¹ = a⁻¹ ∘ a = e]. *)
Definition bad_inverse (elements : list T) (op : T -> T -> T) (e : T) (inv : T -> T)
    (a : T) : Prop :=
  ~ In (inv a) elements \/ op a (inv a) <> e \/ op (inv a) a <> e.

End InverseVocabulary.

Module Examples.
Import Scenario.
Open Scope Z_scope.

(** The group of scenario A as the constructor builds it. *)
Definition G6 : Group :=
  {| group_base :=
       {| monoid_base := {| semigroup_base := {| elements_ := Z6; operation_ := add6 |} |};
          identity_ := 0 |};
     inverse_func_ := neg6;
     inverse_map_ := fold_left (fun m a => map_set a (neg6 a) m) Z6 [] |}.

(** The subgroup {0, 3} of scenario B. *)
Definition H6 : Subgroup.t :=
  {| Subgroup.parent_group_ := G6; Subgroup.subset_ := make_set [0; 3] |}.

(** The symmetric group on three points and its subgroup of order two. *)
Definition GS3 : Group :=
  {| group_base :=
       {| monoid_base := {| semigroup_base := {| elements_ := S3; operation_ := mulS3 |} |};
          identity_ := 0 |};
     inverse_func_ := invS3;
     inverse_map_ := fold_left (fun m a => map_set a (invS3 a) m) S3 [] |}.

Definition HS3 : Subgroup.t :=
  {| Subgroup.parent_group_ := GS3; Subgroup.subset_ := make_set [0; 1] |}.

(** Two candidate structures that are no monoids: a loop of order five in
    which every element is its own inverse, which is not associative, and
    {0, 1} under the addition of integers, which is not closed. *)
Definition L5 : list Z := make_set [0; 1; 2; 3; 4].
Definition tableL5 : list (list Z) :=
  [[0; 1; 2; 3; 4]; [1; 0; 3; 4; 2]; [2; 4; 0; 1; 3]; [3; 2; 4; 0; 1]; [4; 3; 1; 2; 0]].
Definition mulL5 (a b : Z) : Z := nth (Z.to_nat b) (nth (Z.to_nat a) tableL5 []) 0.
Definition B2 : list Z := make_set [0; 1].
Definition plus2 (a b : Z) : Z := a + b.

End Examples.

Section LagrangeVocabulary.
Context {T : Type} {E : Element T}.

(** One round of the loop of [find_all_cosets] when the constructor of
    [Coset] returns the left coset of [g]. *)
Definition cosets_step (G : Group) (H : list T) (st : list (list T) * list T) (g : T)
  : list (list T) * list T :=
  let (cosets, processed) := st in
  if existsb (fun coset => contains coset g) cosets then (cosets, processed)
  else (insert (left_coset G H g) cosets,
        fold_left (fun p element => insert element p) (left_coset G H g) processed).

(** The sum of [φ(d)] over the positive divisors [d] of [n]. *)
Definition divisors (n : Z) : list Z :=
  filter (fun d => (n mod d =? 0)%Z) (map Z.of_nat (seq 1 (Z.to_nat n))).

Definition totient_sum (n : Z) : option Z :=
  fold_right (fun d acc =>
    match EulerFunction.compute d, acc with
    | Some phi, Some sum => Some (phi + sum)%Z
    | _, _ => None
    end) (Some 0%Z) (divisors n).

(** What the loop of [find_all_cosets] keeps true of its local [cosets]:
    a set of left cosets. *)
Record cosets_invariant (H : Subgroup.t (T := T)) (cosets : list (list T)) : Prop := {
  ci_set : is_set cosets;
  ci_left : forall c, In c cosets ->
    exists g, In g (elements_ (Subgroup.parent_group H)) /\
      c = left_coset (Subgroup.parent_group H) (Subgroup.get_subset H) g
}.

(** The family [find_all_cosets] returns: a set of left cosets that covers
    the carrier. *)
Record coset_partition (H : Subgroup.t (T := T)) (cosets : list (list T)) : Prop := {
  cp_set : is_set cosets;
  cp_left : forall c, In c cosets ->
    exists g, In g (elements_ (Subgroup.parent_group H)) /\
      c = left_coset (Subgroup.parent_group H) (Subgroup.get_subset H) g;
  cp_cover : forall g, In g (elements_ (Subgroup.parent_group H)) ->
    exists c, In c cosets /\ In g c
}.

End LagrangeVocabulary.

Section FactorVocabulary.
Context {T : Type} {E : Element T}.

(** The map from elements to cosets that [build_coset_set] fills. *)
Definition fill_coset (coset : list T) (m : list (T * list T)) : list (T * list T) :=
  fold_left (fun m element => map_set element coset m) coset m.

Definition coset_map (cosets : list (list T)) (m : list (T * list T))
  : list (T * list T) :=
  fold_left (fun m coset => fill_coset coset m) cosets m.

End FactorVocabulary.

Module FactorExample.
Open Scope Z_scope.

(** Scenario B: the factor group of the integers modulo 6 by {0, 3}. *)
Definition N6 : NormalSubgroup.t := {| NormalSubgroup.base := Examples.H6 |}.

Definition F6 : FactorGroup.t :=
  {| FactorGroup.parent_group_ := Examples.G6;
     FactorGroup.normal_subgroup_ := N6;
     FactorGroup.cosets_ := [[0; 3]; [1; 4]; [2; 5]];
     FactorGroup.element_to_coset_ := coset_map [[0; 3]; [1; 4]; [2; 5]] [] |}.

End FactorExample.

Section MoreVocabulary.
Context {T : Type} {E : Element T}.

(** The power [a^z] for an integer [z]: a negative exponent takes the power
    of the inverse. *)
Definition zpow (G : Group) (a : T) (z : Z) : T :=
  match z with
  | Z0 => identity G
  | Zpos p => gpow G a (Pos.to_nat p)
  | Zneg p => gpow G (inverse_func_ G a) (Pos.to_nat p)
  end.

(** The product [a^(n+1)] of [n + 1] copies of [a], which needs no identity. *)
Fixpoint pow1 (op : T -> T -> T) (a : T) (n : nat) : T :=
  match n with
  | O => a
  | S n' => op (pow1 op a n') a
  end.

(** What a successfully constructed [Semigroup] and [Monoid] satisfy. *)
Definition valid_semigroup (S : Semigroup (T := T)) : Prop :=
  closed (elements_ S) (operation_ S) /\ associative (elements_ S) (operation_ S).

Definition valid_monoid (M : Monoid (T := T)) : Prop :=
  valid_semigroup M /\ is_identity (elements_ M) (operation_ M) (identity_ M).

End MoreVocabulary.

Section OrderVocabulary.
Context {T : Type} {E : Element T}.

(** [n] is the order of [a]: the least positive [n] with [a^n = e]. *)
Definition is_order (G : Group) (a : T) (n : nat) : Prop :=
  1 <= n /\ gpow G a n = identity G /\
  forall m, 1 <= m < n -> gpow G a m <> identity G.

End OrderVocabulary.

Section FilterVocabulary.
Context {T : Type} {E : Element T}.

(** The loops that insert the elements passing a test into a set. *)
Definition insert_if (f : T -> bool) (l : list T) (s : list T) : list T :=
  fold_left (fun s x => if f x then insert x s else s) l s.

(** The order of an element as [ElementOrder::compute] returns it, 0 when
    it returns no number. *)
Definition order_or_zero (G : Group) (a : T) : nat :=
  match ElementOrder.compute G a with
  | Ok (Some n) => n
  | _ => 0
  end.

End FilterVocabulary.

Section MonoidVocabulary.
Context {T : Type} {E : Element T}.

(** [b] is a two-sided inverse of [a] in the monoid, and [a] has one in
    the carrier. *)
Definition inverse_pair (M : Monoid) (a b : T) : bool :=
  eq_op (operation_ M a b) (identity_ M) && eq_op (operation_ M b a) (identity_ M).

Definition has_inverse (M : Monoid) (a : T) : bool :=
  match find (inverse_pair M a) (elements_ M) with Some _ => true | None => false end.

End MonoidVocabulary.

Section OppositeVocabulary.
Context {T : Type} {E : Element T}.

(** The group with the operation read from right to left; its left cosets
    are the right cosets of the group. *)
Definition opposite (G : Group (T := T)) : Group :=
  {| group_base :=
       {| monoid_base :=
            {| semigroup_base :=
                 {| elements_ := elements_ G;
                    operation_ := fun a b => operation_ G b a |} |};
          identity_ := identity G |};
     inverse_func_ := inverse_func_ G;
     inverse_map_ := inverse_map_ G |}.

Definition opposite_subgroup (H : Subgroup.t (T := T)) : Subgroup.t :=
  {| Subgroup.parent_group_ := opposite (Subgroup.parent_group H);
     Subgroup.subset_ := Subgroup.get_subset H |}.

(** No two different members of the family share an element. *)
Definition disjoint_family (family : list (list T)) : Prop :=
  forall c1 c2 x, In c1 family -> In c2 family -> In x c1 -> In x c2 -> c1 = c2.

End OppositeVocabulary.

(** * Properties *)

(** Closed goals about the concrete structures are settled by evaluation. *)
Ltac by_evaluation :=
  vm_compute; first [reflexivity | tauto | intuition discriminate].

(** ** The structures of the scenarios are what the constructors return *)

Lemma G6_constructed :
  Group_ctor Scenario.Z6 Scenario.add6 0%Z Scenario.neg6 = Ok Examples.G6.
Proof. vm_compute. reflexivity. Qed.

Lemma H6_constructed :
  Subgroup.ctor Examples.G6 (make_set [0%Z; 3%Z]) = Ok Examples.H6.
Proof. vm_compute. reflexivity. Qed.

Lemma GS3_constructed :
  Group_ctor Scenario.S3 Scenario.mulS3 0%Z Scenario.invS3 = Ok Examples.GS3.
Proof. vm_compute. reflexivity. Qed.

Lemma HS3_constructed :
  Subgroup.ctor Examples.GS3 (make_set [0%Z; 1%Z]) = Ok Examples.HS3.
Proof. vm_compute. reflexivity. Qed.

(** ** The loop combinators *)

Lemma bind_Ok_inv {A B : Type} (m : outcome A) (k : A -> outcome B) (b : B) :
  bind m k = Ok b -> exists a, m = Ok a /\ k a = Ok b.
Proof.
  destruct m as [a|e]; simpl; intros H; [exists a; auto | discriminate].
Qed.

Lemma for_each_Ok {A : Type} (body : A -> outcome unit) (l : list A) :
  for_each body l = Ok tt <-> (forall x, In x l -> body x = Ok tt).
Proof.
  induction l as [|x l IH]; simpl.
  - split; [intros _ y [] | reflexivity].
  - split.
    + intros H y [<-|Hy].
      * destruct (body x) as [[]|]; [reflexivity | discriminate].
      * destruct (body x); [apply IH; assumption | discriminate].
    + intros H. rewrite (H x (or_introl eq_refl)). simpl.
      apply IH. intros y Hy. apply H. right; exact Hy.
Qed.

Lemma for_each_Throw {A : Type} (body : A -> outcome unit) (l : list A) (e : exn) :
  for_each body l = Throw e -> exists x, In x l /\ body x = Throw e.
Proof.
  induction l as [|x l IH]; simpl; [discriminate|].
  destruct (body x) as [[]|e'] eqn:Hx; simpl.
  - intros H. destruct (IH H) as [y [Hy Hb]]. exists y; auto.
  - intros [= <-]. exists x; auto.
Qed.

Lemma for_all_forallb {A : Type} (body : A -> outcome bool) (f : A -> bool) (l : list A) :
  (forall x, In x l -> body x = Ok (f x)) -> for_all body l = Ok (forallb f l).
Proof.
  induction l as [|x l IH]; simpl; intros H; [reflexivity|].
  rewrite (H x (or_introl eq_refl)). simpl.
  destruct (f x); [apply IH; intros y Hy; apply H; right; exact Hy | reflexivity].
Qed.

Lemma fold_each_fold_left {A S : Type} (body : S -> A -> outcome S) (f : S -> A -> S)
    (l : list A) :
  (forall s x, In x l -> body s x = Ok (f s x)) ->
  forall s, fold_each body l s = Ok (fold_left f l s).
Proof.
  induction l as [|x l IH]; simpl; intros H s; [reflexivity|].
  rewrite (H s x (or_introl eq_refl)). simpl.
  apply IH. intros s' y Hy. apply H. right; exact Hy.
Qed.

Lemma find_first_Some {A : Type} (body : A -> outcome bool) (l : list A) (x : A) :
  find_first body l = Ok (Some x) -> In x l /\ body x = Ok true.
Proof.
  induction l as [|y l IH]; simpl; [discriminate|].
  destruct (body y) as [[|]|] eqn:Hy; simpl.
  - intros [= <-]. auto.
  - intros H. destruct (IH H). auto.
  - discriminate.
Qed.

(** ** Sets as strictly increasing lists *)

Lemma ElementLaws_Z : ElementLaws Z.
Proof.
  constructor; simpl.
  - intros a b. apply Z.eqb_eq.
  - intros a. apply Z.ltb_irrefl.
  - intros a b c. rewrite !Z.ltb_lt. lia.
  - intros a b. rewrite !Z.ltb_ge. lia.
Qed.

#[export] Existing Instance ElementLaws_Z.

Section SetFacts.
Context {T : Type} {E : Element T} {L : ElementLaws T}.

Lemma eq_op_refl (a : T) : eq_op a a = true.
Proof. apply eq_op_spec. reflexivity. Qed.

Lemma eq_op_false (a b : T) : eq_op a b = false <-> a <> b.
Proof.
  split.
  - intros H Heq. apply eq_op_spec in Heq. congruence.
  - intros H. destruct (eq_op a b) eqn:Hab; [|reflexivity].
    apply eq_op_spec in Hab. contradiction.
Qed.

Lemma equiv_spec (a b : T) : equiv a b = true <-> a = b.
Proof.
  unfold equiv. rewrite andb_true_iff, !negb_true_iff. split.
  - intros [H1 H2]. apply lt_total; assumption.
  - intros <-. split; apply lt_irrefl.
Qed.

Lemma equiv_refl (a : T) : equiv a a = true.
Proof. apply equiv_spec. reflexivity. Qed.

Lemma lt_asym (a b : T) : lt_op a b = true -> lt_op b a = false.
Proof.
  intros H. destruct (lt_op b a) eqn:Hba; [|reflexivity].
  pose proof (lt_trans _ _ _ H Hba) as Haa. rewrite lt_irrefl in Haa. discriminate.
Qed.

Lemma lt_neq (a b : T) : lt_op a b = true -> a <> b.
Proof. intros H ->. rewrite lt_irrefl in H. discriminate. Qed.

Lemma contains_In (s : list T) (x : T) : contains s x = true <-> In x s.
Proof.
  unfold contains. rewrite existsb_exists. split.
  - intros [y [Hy Heq]]. apply equiv_spec in Heq. subst. exact Hy.
  - intros H. exists x. split; [exact H | apply equiv_refl].
Qed.

Lemma contains_false (s : list T) (x : T) : contains s x = false <-> ~ In x s.
Proof.
  rewrite <- contains_In. destruct (contains s x); split; congruence.
Qed.

Lemma In_insert (a : T) (s : list T) (x : T) :
  In x (insert a s) <-> x = a \/ In x s.
Proof.
  induction s as [|y s IH]; simpl.
  - intuition.
  - destruct (lt_op a y) eqn:Hay; simpl; [intuition|].
    destruct (lt_op y a) eqn:Hya; simpl.
    + rewrite IH. intuition.
    + assert (a = y) by (apply lt_total; assumption). subst. intuition.
Qed.

Lemma is_set_insert (a : T) (s : list T) : is_set s -> is_set (insert a s).
Proof.
  induction s as [|y s IH]; simpl.
  - intros _. split; [intros ? [] | exact I].
  - intros [Hy Hs]. destruct (lt_op a y) eqn:Hay.
    + simpl. split; [|split; assumption].
      intros z [<-|Hz]; [exact Hay | eapply lt_trans; [exact Hay | apply Hy, Hz]].
    + destruct (lt_op y a) eqn:Hya; simpl; [|split; assumption].
      split; [|apply IH, Hs].
      intros z Hz. apply In_insert in Hz. destruct Hz as [->|Hz]; [exact Hya | apply Hy, Hz].
Qed.

Lemma is_set_NoDup (s : list T) : is_set s -> NoDup s.
Proof.
  induction s as [|y s IH]; simpl; intros H; constructor.
  - intros Hin. destruct H as [H _]. apply H in Hin. rewrite lt_irrefl in Hin. discriminate.
  - apply IH, H.
Qed.

Lemma is_set_ext (s1 s2 : list T) :
  is_set s1 -> is_set s2 -> (forall x, In x s1 <-> In x s2) -> s1 = s2.
Proof.
  revert s2. induction s1 as [|x s1 IH]; intros [|y s2] H1 H2 Hext.
  - reflexivity.
  - exfalso. apply (Hext y). left; reflexivity.
  - exfalso. apply (Hext x). left; reflexivity.
  - simpl in H1, H2. destruct H1 as [Hx H1], H2 as [Hy H2].
    assert (Hxy : x = y).
    { destruct (proj1 (Hext x) (or_introl eq_refl)) as [Heq|Hin]; [congruence|].
      destruct (proj2 (Hext y) (or_introl eq_refl)) as [Heq|Hin']; [congruence|].
      apply Hy in Hin. apply Hx in Hin'. apply lt_asym in Hin. congruence. }
    subst y. f_equal. apply IH; try assumption.
    intros z. split; intros Hz.
    + destruct (proj1 (Hext z) (or_intror Hz)) as [Heq|Hin]; [|exact Hin].
      subst z. apply Hx in Hz. rewrite lt_irrefl in Hz. discriminate.
    + destruct (proj2 (Hext z) (or_intror Hz)) as [Heq|Hin]; [|exact Hin].
      subst z. apply Hy in Hz. rewrite lt_irrefl in Hz. discriminate.
Qed.

Lemma set_eq_spec (s1 s2 : list T) : set_eq s1 s2 = true <-> s1 = s2.
Proof.
  revert s2. induction s1 as [|x s1 IH]; intros [|y s2]; simpl;
    try (split; [discriminate | congruence]); [tauto|].
  rewrite andb_true_iff, eq_op_spec, IH. split; [intros []; congruence | intros [=]; auto].
Qed.

Lemma set_lt_irrefl (s : list T) : set_lt s s = false.
Proof. induction s as [|x s IH]; simpl; [reflexivity | rewrite lt_irrefl; exact IH]. Qed.

Lemma set_lt_trans (s1 s2 s3 : list T) :
  set_lt s1 s2 = true -> set_lt s2 s3 = true -> set_lt s1 s3 = true.
Proof.
  revert s2 s3. induction s1 as [|x s1 IH]; intros [|y s2] [|z s3]; simpl; try congruence.
  destruct (lt_op x y) eqn:Hxy.
  - intros _. destruct (lt_op y z) eqn:Hyz.
    + intros _. rewrite (lt_trans _ _ _ Hxy Hyz). reflexivity.
    + destruct (lt_op z y) eqn:Hzy; [discriminate|].
      assert (y = z) by (apply lt_total; assumption). subst. rewrite Hxy. reflexivity.
  - destruct (lt_op y x) eqn:Hyx; [discriminate|].
    assert (x = y) by (apply lt_total; assumption). subst y.
    intros H12. destruct (lt_op x z); [reflexivity|].
    destruct (lt_op z x); [discriminate|]. apply IH. exact H12.
Qed.

Lemma set_lt_total (s1 s2 : list T) :
  set_lt s1 s2 = false -> set_lt s2 s1 = false -> s1 = s2.
Proof.
  revert s2. induction s1 as [|x s1 IH]; intros [|y s2]; simpl; try congruence.
  destruct (lt_op x y) eqn:Hxy; [discriminate|].
  destruct (lt_op y x) eqn:Hyx; [discriminate|].
  intros H1 H2. assert (x = y) by (apply lt_total; assumption). subst.
  f_equal. apply IH; assumption.
Qed.

Lemma ElementLaws_Set : ElementLaws (list T).
Proof.
  constructor; simpl.
  - apply set_eq_spec.
  - apply set_lt_irrefl.
  - apply set_lt_trans.
  - apply set_lt_total.
Qed.

Lemma In_fold_insert (l s : list T) (x : T) :
  In x (fold_left (fun s a => insert a s) l s) <-> In x l \/ In x s.
Proof.
  revert s. induction l as [|a l IH]; simpl; intros s; [tauto|].
  rewrite IH, In_insert. intuition.
Qed.

Lemma is_set_fold_insert (l s : list T) :
  is_set s -> is_set (fold_left (fun s a => insert a s) l s).
Proof.
  revert s. induction l as [|a l IH]; simpl; intros s H; [exact H|].
  apply IH, is_set_insert, H.
Qed.

Lemma In_make_set (l : list T) (x : T) : In x (make_set l) <-> In x l.
Proof. unfold make_set. rewrite In_fold_insert. simpl. tauto. Qed.

Lemma is_set_make_set (l : list T) : is_set (make_set l).
Proof. apply is_set_fold_insert. exact I. Qed.

(** Two sets with the same elements have the same size. *)
Lemma same_elements_length (l1 l2 : list T) :
  NoDup l1 -> NoDup l2 -> (forall x, In x l1 <-> In x l2) -> length l1 = length l2.
Proof.
  intros H1 H2 Hext. apply Permutation_length, NoDup_Permutation; assumption.
Qed.

(** The two operations of [std::map]. *)
Lemma map_find_set_same {V : Type} (k : T) (v : V) (m : list (T * V)) :
  map_find k (map_set k v m) = Some v.
Proof.
  induction m as [|[k' v'] m IH]; simpl.
  - rewrite equiv_refl. reflexivity.
  - destruct (lt_op k k') eqn:Hk; simpl; [rewrite equiv_refl; reflexivity|].
    destruct (lt_op k' k) eqn:Hk'; simpl.
    + unfold equiv at 1. rewrite Hk, Hk'. simpl. exact IH.
    + unfold equiv. rewrite Hk, Hk'. reflexivity.
Qed.

Lemma map_find_set_other {V : Type} (k k0 : T) (v : V) (m : list (T * V)) :
  k0 <> k -> map_find k0 (map_set k v m) = map_find k0 m.
Proof.
  intros Hne. induction m as [|[k' v'] m IH]; simpl.
  - destruct (equiv k0 k) eqn:Heq; [apply equiv_spec in Heq; contradiction | reflexivity].
  - destruct (lt_op k k') eqn:Hk; simpl.
    + destruct (equiv k0 k) eqn:Heq; [apply equiv_spec in Heq; contradiction | reflexivity].
    + destruct (lt_op k' k) eqn:Hk'; simpl.
      * rewrite IH. reflexivity.
      * assert (k = k') by (apply lt_total; assumption). subst k'.
        destruct (equiv k0 k) eqn:Heq; [apply equiv_spec in Heq; contradiction | reflexivity].
Qed.

End SetFacts.

#[export] Existing Instance ElementLaws_Set.

(** ** The hierarchy of structures *)

Section StructureFacts.
Context {T : Type} {E : Element T} {L : ElementLaws T}.

Lemma operate_Ok (G : Groupoid) (a b : T) :
  In a (elements_ G) -> In b (elements_ G) -> In (operation_ G a b) (elements_ G) ->
  operate G a b = Ok (operation_ G a b).
Proof.
  intros Ha Hb Hab. unfold operate.
  apply contains_In in Ha, Hb, Hab. rewrite Ha, Hb, Hab. reflexivity.
Qed.

Lemma operate_outside (G : Groupoid) (a b : T) :
  ~ In a (elements_ G) \/ ~ In b (elements_ G) ->
  operate G a b = Throw (domain_error "Elements not in groupoid").
Proof.
  intros H. unfold operate.
  destruct H as [H|H]; apply contains_false in H; rewrite H; simpl;
    [|rewrite orb_true_r]; reflexivity.
Qed.

Lemma Groupoid_ctor_Ok (elements : list T) (op : T -> T -> T) (G : Groupoid) :
  Groupoid_ctor elements op = Ok G <->
  closed elements op /\ G = {| elements_ := elements; operation_ := op |}.
Proof.
  unfold Groupoid_ctor. split.
  - intros H. apply bind_Ok_inv in H. destruct H as [[] [Hloop HG]].
    split; [|congruence].
    intros a b Ha Hb. rewrite for_each_Ok in Hloop.
    specialize (Hloop a Ha). rewrite for_each_Ok in Hloop. specialize (Hloop b Hb).
    simpl in Hloop. destruct (contains elements (op a b)) eqn:Hc; [|discriminate].
    apply contains_In. exact Hc.
  - intros [Hcl ->].
    replace (for_each _ elements) with (Ok (A := unit) tt); [reflexivity|].
    symmetry. apply for_each_Ok. intros a Ha. apply for_each_Ok. intros b Hb.
    simpl. rewrite (proj2 (contains_In _ _) (Hcl a b Ha Hb)). reflexivity.
Qed.

Lemma is_associative_closed (G : Groupoid) :
  closed (elements_ G) (operation_ G) ->
  is_associative G =
  Ok (forallb (fun a => forallb (fun b => forallb (fun c =>
        eq_op (operation_ G (operation_ G a b) c) (operation_ G a (operation_ G b c)))
      (elements_ G)) (elements_ G)) (elements_ G)).
Proof.
  intros Hcl. unfold is_associative.
  apply for_all_forallb. intros a Ha.
  apply for_all_forallb. intros b Hb.
  apply for_all_forallb. intros c Hc.
  rewrite (operate_Ok G a b) by auto. simpl.
  rewrite (operate_Ok G _ c) by auto. simpl.
  rewrite (operate_Ok G b c) by auto. simpl.
  rewrite (operate_Ok G a _) by auto. reflexivity.
Qed.

Lemma Semigroup_ctor_Ok (elements : list T) (op : T -> T -> T) (S : Semigroup) :
  Semigroup_ctor elements op = Ok S <->
  closed elements op /\ associative elements op /\
  S = {| semigroup_base := {| elements_ := elements; operation_ := op |} |}.
Proof.
  unfold Semigroup_ctor. split.
  - intros H. apply bind_Ok_inv in H. destruct H as [G [HG H]].
    apply Groupoid_ctor_Ok in HG. destruct HG as [Hcl ->].
    rewrite is_associative_closed in H by exact Hcl. simpl in H.
    match type of H with (if negb ?b then _ else _) = _ => destruct b eqn:Hb end;
      [|discriminate].
    simpl in H. split; [exact Hcl|]. split; [|congruence].
    intros a b c Ha Hb' Hc. rewrite forallb_forall in Hb.
    specialize (Hb a Ha). rewrite forallb_forall in Hb.
    specialize (Hb b Hb'). rewrite forallb_forall in Hb.
    apply eq_op_spec, Hb, Hc.
  - intros [Hcl [Has ->]].
    rewrite (proj2 (Groupoid_ctor_Ok elements op _) (conj Hcl eq_refl)). simpl.
    rewrite is_associative_closed by exact Hcl. simpl.
    match goal with |- (if negb ?b then _ else _) = _ => replace b with true end;
      [reflexivity|].
    symmetry. apply forallb_forall. intros a Ha.
    apply forallb_forall. intros b Hb. apply forallb_forall. intros c Hc.
    apply eq_op_spec. apply Has; assumption.
Qed.

Lemma Monoid_ctor_Ok (elements : list T) (op : T -> T -> T) (e : T) (M : Monoid) :
  Monoid_ctor elements op e = Ok M <->
  closed elements op /\ associative elements op /\ is_identity elements op e /\
  M = {| monoid_base := {| semigroup_base := {| elements_ := elements; operation_ := op |} |};
         identity_ := e |}.
Proof.
  unfold Monoid_ctor. split.
  - intros H. apply bind_Ok_inv in H. destruct H as [S [HS H]].
    apply Semigroup_ctor_Ok in HS. destruct HS as [Hcl [Has ->]]. simpl in H.
    destruct (contains elements e) eqn:He; simpl in H; [|discriminate].
    apply contains_In in He.
    apply bind_Ok_inv in H. destruct H as [[] [Hloop HM]].
    repeat split; try assumption; try congruence.
    + rewrite for_each_Ok in Hloop. specialize (Hloop a H).
      rewrite operate_Ok in Hloop by (simpl; auto). simpl in Hloop.
      destruct (eq_op (op e a) a) eqn:Hl; [|discriminate].
      apply eq_op_spec. exact Hl.
    + rewrite for_each_Ok in Hloop. specialize (Hloop a H).
      rewrite operate_Ok in Hloop by (simpl; auto). simpl in Hloop.
      destruct (eq_op (op e a) a) eqn:Hl; [|discriminate]. simpl in Hloop.
      rewrite operate_Ok in Hloop by (simpl; auto). simpl in Hloop.
      destruct (eq_op (op a e) a) eqn:Hr; [|discriminate].
      apply eq_op_spec. exact Hr.
  - intros [Hcl [Has [[He Hid] ->]]].
    rewrite (proj2 (Semigroup_ctor_Ok elements op _) (conj Hcl (conj Has eq_refl))). simpl.
    rewrite (proj2 (contains_In _ _) He). simpl.
    match goal with |- bind ?m _ = _ => replace m with (Ok (A := unit) tt) end;
      [reflexivity|].
    symmetry. apply for_each_Ok. intros a Ha.
    destruct (Hid a Ha) as [Hl Hr].
    rewrite operate_Ok by (simpl; auto). simpl. rewrite Hl, eq_op_refl. simpl.
    rewrite operate_Ok by (simpl; auto). simpl. rewrite Hr, eq_op_refl. reflexivity.
Qed.

Lemma check_inverse_cases (M : Monoid) (inverse_func : T -> T) (a : T) :
  closed (elements_ M) (operation_ M) -> In a (elements_ M) ->
  (check_inverse M inverse_func a = Ok tt /\
   good_inverse (elements_ M) (operation_ M) (identity_ M) inverse_func a) \/
  (exists e, check_inverse M inverse_func a = Throw e /\ invalid_inverse e /\
   ~ good_inverse (elements_ M) (operation_ M) (identity_ M) inverse_func a).
Proof.
  intros Hcl Ha. unfold check_inverse, good_inverse, invalid_inverse. cbv zeta.
  destruct (contains (elements_ M) (inverse_func a)) eqn:Hin; simpl.
  2:{ right. eexists. split; [reflexivity|]. split; [auto|].
      apply contains_false in Hin. tauto. }
  apply contains_In in Hin.
  rewrite operate_Ok by auto. simpl.
  destruct (eq_op (operation_ M a (inverse_func a)) (identity_ M)) eqn:Hr; simpl.
  2:{ right. eexists. split; [reflexivity|]. split; [auto|].
      apply eq_op_false in Hr. tauto. }
  apply eq_op_spec in Hr.
  rewrite operate_Ok by auto. simpl.
  destruct (eq_op (operation_ M (inverse_func a) a) (identity_ M)) eqn:Hl; simpl.
  2:{ right. eexists. split; [reflexivity|]. split; [auto|].
      apply eq_op_false in Hl. tauto. }
  apply eq_op_spec in Hl. left. auto.
Qed.

Lemma Group_ctor_unfold (elements : list T) (op : T -> T -> T) (e : T) (inv : T -> T) :
  Group_ctor elements op e inv =
  (base <- Monoid_ctor elements op e ;;
   _ <- for_each (check_inverse base inv) (elements_ base) ;;
   Ok {| group_base := base;
         inverse_func_ := inv;
         inverse_map_ := fold_left (fun m a => map_set a (inv a) m) (elements_ base) [] |}).
Proof. reflexivity. Qed.

End StructureFacts.

(** ** Successful construction gives the group laws *)

Section ConstructionFacts.
Context {T : Type} {E : Element T} {L : ElementLaws T}.

Lemma map_find_In {V : Type} (k : T) (v : V) (m : list (T * V)) :
  map_find k m = Some v -> In (k, v) m.
Proof.
  induction m as [|[k' v'] m IH]; simpl; [discriminate|].
  destruct (equiv k k') eqn:Heq.
  - apply equiv_spec in Heq. intros [= ->]. left. congruence.
  - intros H. right. apply IH, H.
Qed.

Lemma In_map_set {V : Type} (k : T) (v : V) (m : list (T * V)) (p : T * V) :
  In p (map_set k v m) -> p = (k, v) \/ In p m.
Proof.
  induction m as [|[k' v'] m IH]; simpl.
  - intuition.
  - destruct (lt_op k k') eqn:Hk; simpl; [intuition|].
    destruct (lt_op k' k) eqn:Hk'; simpl.
    + intros [<-|H]; [auto | destruct (IH H); auto].
    + assert (k = k') by (apply lt_total; assumption). subst k'.
      intros [<-|H]; auto.
Qed.

Lemma inverse_map_entries (inv : T -> T) (l : list T) (m : list (T * T)) :
  (forall p, In p m -> snd p = inv (fst p)) ->
  forall p, In p (fold_left (fun m a => map_set a (inv a) m) l m) -> snd p = inv (fst p).
Proof.
  revert m. induction l as [|a l IH]; simpl; intros m Hm; [exact Hm|].
  apply IH. intros p Hp. apply In_map_set in Hp. destruct Hp as [->|Hp]; [reflexivity|].
  apply Hm, Hp.
Qed.

Lemma Group_ctor_Ok (elements : list T) (op : T -> T -> T) (e : T) (inv : T -> T)
    (G : Group) :
  Group_ctor elements op e inv = Ok G ->
  closed elements op /\ associative elements op /\ is_identity elements op e /\
  (forall a, In a elements -> good_inverse elements op e inv a) /\
  G = {| group_base :=
           {| monoid_base :=
                {| semigroup_base := {| elements_ := elements; operation_ := op |} |};
              identity_ := e |};
         inverse_func_ := inv;
         inverse_map_ := fold_left (fun m a => map_set a (inv a) m) elements [] |}.
Proof.
  rewrite Group_ctor_unfold. intros H.
  apply bind_Ok_inv in H. destruct H as [M [HM H]].
  apply Monoid_ctor_Ok in HM. destruct HM as [Hcl [Has [Hid ->]]].
  apply bind_Ok_inv in H. destruct H as [[] [Hloop HG]]. simpl in *.
  split; [exact Hcl|]. split; [exact Has|]. split; [exact Hid|]. split; [|congruence].
  intros a Ha. rewrite for_each_Ok in Hloop. specialize (Hloop a Ha).
  match type of Hloop with check_inverse ?M _ _ = _ =>
    destruct (check_inverse_cases M inv a Hcl Ha) as [[_ Hgood]|[x [Hx _]]] end;
    [exact Hgood | congruence].
Qed.

Lemma Group_ctor_valid (elements : list T) (op : T -> T -> T) (e : T) (inv : T -> T)
    (G : Group) :
  is_set elements -> Group_ctor elements op e inv = Ok G -> valid_group G.
Proof.
  intros Hset H. apply Group_ctor_Ok in H.
  destruct H as [Hcl [Has [Hid [Hinv ->]]]].
  constructor; simpl; try assumption.
  intros a v Hfind. apply map_find_In in Hfind.
  apply (inverse_map_entries inv elements []) in Hfind; [exact Hfind | intros ? []].
Qed.

End ConstructionFacts.

(** ** Elementary group theory on a valid group *)

Section GroupFacts.
Context {T : Type} {E : Element T} {L : ElementLaws T}.
Variable G : Group (T := T).
Hypothesis VG : valid_group G.

Local Abbreviation carrier := (elements_ G).
Local Abbreviation op := (operation_ G).
Local Abbreviation e := (identity G).
Local Abbreviation inv := (inverse_func_ G).

Lemma op_in (a b : T) : In a carrier -> In b carrier -> In (op a b) carrier.
Proof. apply (vg_closed G VG). Qed.

Lemma e_in : In e carrier.
Proof. apply (vg_identity G VG). Qed.

Lemma inv_in (a : T) : In a carrier -> In (inv a) carrier.
Proof. intros Ha. apply (vg_inverse G VG a Ha). Qed.

Lemma op_assoc (a b c : T) :
  In a carrier -> In b carrier -> In c carrier -> op (op a b) c = op a (op b c).
Proof. apply (vg_assoc G VG). Qed.

Lemma op_e_l (a : T) : In a carrier -> op e a = a.
Proof. intros Ha. apply (vg_identity G VG), Ha. Qed.

Lemma op_e_r (a : T) : In a carrier -> op a e = a.
Proof. intros Ha. apply (vg_identity G VG), Ha. Qed.

Lemma op_inv_r (a : T) : In a carrier -> op a (inv a) = e.
Proof. intros Ha. apply (vg_inverse G VG a Ha). Qed.

Lemma op_inv_l (a : T) : In a carrier -> op (inv a) a = e.
Proof. intros Ha. apply (vg_inverse G VG a Ha). Qed.

Hint Resolve op_in e_in inv_in : core.

Lemma operate_valid (a b : T) :
  In a carrier -> In b carrier -> operate G a b = Ok (op a b).
Proof. intros Ha Hb. apply operate_Ok; auto. Qed.

Lemma inverse_valid (a : T) : In a carrier -> inverse G a = Ok (inv a).
Proof.
  intros Ha. unfold inverse. rewrite (proj2 (contains_In _ _) Ha). simpl.
  destruct (map_find a (inverse_map_ G)) as [v|] eqn:Hf; [|reflexivity].
  rewrite (vg_map G VG _ _ Hf). reflexivity.
Qed.

Lemma cancel_l (a b c : T) :
  In a carrier -> In b carrier -> In c carrier -> op a b = op a c -> b = c.
Proof.
  intros Ha Hb Hc H.
  rewrite <- (op_e_l b), <- (op_e_l c), <- (op_inv_l a) by assumption.
  rewrite !op_assoc by auto. congruence.
Qed.

Lemma cancel_r (a b c : T) :
  In a carrier -> In b carrier -> In c carrier -> op b a = op c a -> b = c.
Proof.
  intros Ha Hb Hc H.
  rewrite <- (op_e_r b), <- (op_e_r c), <- (op_inv_r a) by assumption.
  rewrite <- !op_assoc by auto. congruence.
Qed.

Lemma inv_inv (a : T) : In a carrier -> inv (inv a) = a.
Proof.
  intros Ha. apply (cancel_l (inv a)); auto.
  rewrite op_inv_r, op_inv_l by auto. reflexivity.
Qed.

Lemma inv_op (a b : T) :
  In a carrier -> In b carrier -> inv (op a b) = op (inv b) (inv a).
Proof.
  intros Ha Hb. apply (cancel_l (op a b)); auto.
  rewrite op_inv_r by auto.
  rewrite op_assoc by auto. rewrite <- (op_assoc b) by auto.
  rewrite op_inv_r, op_e_l, op_inv_r by auto. reflexivity.
Qed.

Lemma gpow_in (a : T) (n : nat) : In a carrier -> In (gpow G a n) carrier.
Proof. intros Ha. induction n; simpl; auto. Qed.

Hint Resolve gpow_in : core.

Lemma gpow_add (a : T) (m n : nat) :
  In a carrier -> gpow G a (m + n) = op (gpow G a m) (gpow G a n).
Proof.
  intros Ha. induction n as [|n IH].
  - rewrite Nat.add_0_r. simpl. rewrite op_e_r by auto. reflexivity.
  - rewrite Nat.add_succ_r. simpl. rewrite IH, op_assoc by auto. reflexivity.
Qed.

Lemma gpow_1 (a : T) : In a carrier -> gpow G a 1 = a.
Proof. intros Ha. simpl. apply op_e_l, Ha. Qed.

End GroupFacts.

(** ** Groupoid::operate after construction *)

Section OperateFacts.
Context {T : Type} {E : Element T} {L : ElementLaws T}.

Lemma constructed_closed (G : Groupoid) :
  constructed G -> closed (elements_ G) (operation_ G).
Proof.
  intros [elements op G' H|elements op S H|elements op e M H|elements op e inv G' H].
  - apply Groupoid_ctor_Ok in H. destruct H as [Hcl ->]. exact Hcl.
  - apply Semigroup_ctor_Ok in H. destruct H as [Hcl [_ ->]]. exact Hcl.
  - apply Monoid_ctor_Ok in H. destruct H as [Hcl [_ [_ ->]]]. exact Hcl.
  - apply Group_ctor_Ok in H. destruct H as [Hcl [_ [_ [_ ->]]]]. exact Hcl.
Qed.

Lemma operate_cases (G : Groupoid) (a b : T) :
  closed (elements_ G) (operation_ G) ->
  (In a (elements_ G) /\ In b (elements_ G) /\ operate G a b = Ok (operation_ G a b)) \/
  ((~ In a (elements_ G) \/ ~ In b (elements_ G)) /\
   operate G a b = Throw (domain_error "Elements not in groupoid")).
Proof.
  intros Hcl.
  destruct (contains (elements_ G) a) eqn:Ha.
  - destruct (contains (elements_ G) b) eqn:Hb.
    + apply contains_In in Ha, Hb. left. split; [exact Ha|]. split; [exact Hb|].
      apply operate_Ok; auto.
    + apply contains_false in Hb. right. split; [auto|]. apply operate_outside. auto.
  - apply contains_false in Ha. right. split; [auto|]. apply operate_outside. auto.
Qed.

(** C9: on a constructed groupoid, or on the base of any constructed
    structure, [operate(a, b)] returns [op(a, b)] for all [a], [b] of the
    carrier, and no call of [operate], whatever its arguments, ends in the
    closure-violation error of the run-time re-check. *)
Theorem operate_closure_recheck_unreachable (G : Groupoid) (a b : T) :
  constructed G ->
  (In a (get_set G) -> In b (get_set G) -> operate G a b = Ok (operation_ G a b)) /\
  operate G a b <> Throw (runtime_error "Closure violation detected").
Proof.
  intros HG. apply constructed_closed in HG.
  destruct (operate_cases G a b HG) as [[Ha [Hb Hr]]|[Hout Hr]]; rewrite Hr.
  - split; [reflexivity | discriminate].
  - split; [|discriminate]. unfold get_set. tauto.
Qed.

End OperateFacts.

Lemma operate_closure_recheck_unreachable_witness :
  operate {| elements_ := Scenario.Z6; operation_ := Scenario.add6 |} 4%Z 5%Z = Ok 3%Z /\
  operate {| elements_ := Scenario.Z6; operation_ := Scenario.add6 |} 4%Z 9%Z
    <> Throw (runtime_error "Closure violation detected").
Proof.
  assert (HG : constructed {| elements_ := Scenario.Z6; operation_ := Scenario.add6 |}).
  { apply (constructed_Groupoid Scenario.Z6 Scenario.add6). vm_compute. reflexivity. }
  split.
  - apply (operate_closure_recheck_unreachable _ 4%Z 5%Z HG); vm_compute; tauto.
  - apply (operate_closure_recheck_unreachable _ 4%Z 9%Z HG).
Defined.

(** ** Group::power *)

Section PowerFacts.
Context {T : Type} {E : Element T} {L : ElementLaws T}.



End PowerFacts.


(** ** The constructor of Group *)

Section GroupCtorFacts.
Context {T : Type} {E : Element T} {L : ElementLaws T}.

Lemma good_or_bad_inverse (elements : list T) (op : T -> T -> T) (e : T) (inv : T -> T)
    (a : T) :
  good_inverse elements op e inv a <-> ~ bad_inverse elements op e inv a.
Proof.
  unfold good_inverse, bad_inverse. split; [tauto|]. intros H.
  destruct (contains elements (inv a)) eqn:Hin.
  - apply contains_In in Hin.
    destruct (eq_op (op a (inv a)) e) eqn:Hr.
    + apply eq_op_spec in Hr.
      destruct (eq_op (op (inv a) a) e) eqn:Hl.
      * apply eq_op_spec in Hl. auto.
      * apply eq_op_false in Hl. tauto.
    + apply eq_op_false in Hr. tauto.
  - apply contains_false in Hin. tauto.
Qed.

Lemma Group_ctor_on_monoid (elements : list T) (op : T -> T -> T) (e : T) (inv : T -> T)
    (M : Monoid) :
  Monoid_ctor elements op e = Ok M ->
  ((exists G, Group_ctor elements op e inv = Ok G) /\
   forall a, In a elements -> good_inverse elements op e inv a) \/
  (exists x, Group_ctor elements op e inv = Throw x /\ invalid_inverse x /\
   exists a, In a elements /\ bad_inverse elements op e inv a).
Proof.
  intros HM. rewrite Group_ctor_unfold, HM. simpl.
  apply Monoid_ctor_Ok in HM. destruct HM as [Hcl [_ [_ ->]]]. simpl.
  match goal with |- context [for_each ?body elements] =>
    destruct (for_each body elements) as [[]|x] eqn:Hloop end; simpl.
  - left. split; [eexists; reflexivity|].
    intros a Ha. rewrite for_each_Ok in Hloop. specialize (Hloop a Ha).
    match type of Hloop with check_inverse ?M _ _ = _ =>
      destruct (check_inverse_cases M inv a Hcl Ha) as [[_ Hgood]|[y [Hy _]]] end;
      [exact Hgood | congruence].
  - right. exists x. split; [reflexivity|].
    apply for_each_Throw in Hloop. destruct Hloop as [a [Ha Hx]].
    match type of Hx with check_inverse ?M _ _ = _ =>
      destruct (check_inverse_cases M inv a Hcl Ha) as [[Hy _]|[y [Hy [Hinv Hbad]]]] end;
      [congruence|].
    rewrite Hx in Hy. injection Hy as <-. split; [exact Hinv|].
    exists a. split; [exact Ha|].
    simpl in Hbad. rewrite good_or_bad_inverse in Hbad.
    destruct (contains elements (inv a)) eqn:Hin;
      [apply contains_In in Hin | apply contains_false in Hin; left; exact Hin].
    destruct (eq_op (op a (inv a)) e) eqn:Hr;
      [apply eq_op_spec in Hr | apply eq_op_false in Hr; right; left; exact Hr].
    destruct (eq_op (op (inv a) a) e) eqn:Hl;
      [apply eq_op_spec in Hl | apply eq_op_false in Hl; right; right; exact Hl].
    exfalso. apply Hbad. unfold bad_inverse. tauto.
Qed.

End GroupCtorFacts.

Lemma Z3_has_no_group (inv : Z -> Z) :
  exists x, Group_ctor Scenario.Z3 Scenario.mul3 1%Z inv = Throw x /\ invalid_inverse x.
Proof.
  assert (HM : exists M, Monoid_ctor Scenario.Z3 Scenario.mul3 1%Z = Ok M)
    by (eexists; vm_compute; reflexivity).
  destruct HM as [M HM].
  destruct (Group_ctor_on_monoid Scenario.Z3 Scenario.mul3 1%Z inv M HM)
    as [[_ Hgood]|[x [Hx [Hinv _]]]].
  - exfalso. destruct (Hgood 0%Z) as [_ [H _]]; [vm_compute; tauto|].
    unfold Scenario.mul3 in H. rewrite Z.mul_0_l in H. discriminate.
  - exists x. auto.
Qed.

(** C5, as the code has it: when the base [Monoid] of the same carrier,
    operation and identity is constructed, the construction of the [Group]
    fails exactly when some element of the carrier has a supplied inverse
    that is outside the carrier or fails [a ∘ a⁻¹ = a⁻¹ ∘ a = e], and every
    failure then reports a violation of the inverse law; the carrier
    {0, 1, 2} under multiplication modulo 3 with identity 1 fails in this way
    for every inverse function. *)
Theorem Group_ctor_fails_iff_bad_inverse {T : Type} {E : Element T} {L : ElementLaws T}
    (elements : list T) (op : T -> T -> T) (e : T) (inv : T -> T) (M : Monoid) :
  Monoid_ctor elements op e = Ok M ->
  ((exists x, Group_ctor elements op e inv = Throw x) <->
   (exists a, In a elements /\ bad_inverse elements op e inv a)) /\
  (forall x, Group_ctor elements op e inv = Throw x -> invalid_inverse x) /\
  (forall inv' : Z -> Z, exists x,
     Group_ctor Scenario.Z3 Scenario.mul3 1%Z inv' = Throw x /\ invalid_inverse x).
Proof.
  intros HM.
  destruct (Group_ctor_on_monoid elements op e inv M HM)
    as [[[G HG] Hgood]|[x [Hx [Hinv Hbad]]]].
  - split; [|split; [|apply Z3_has_no_group]].
    + split.
      * intros [x Hx]. congruence.
      * intros [a [Ha Hbad]]. exfalso.
        apply (proj1 (good_or_bad_inverse elements op e inv a) (Hgood a Ha)), Hbad.
    + intros x Hx. congruence.
  - split; [|split; [|apply Z3_has_no_group]].
    + split; [intros _; exact Hbad | intros _; exists x; exact Hx].
    + intros y Hy. rewrite Hx in Hy. injection Hy as <-. exact Hinv.
Qed.

Lemma Group_ctor_fails_iff_bad_inverse_witness :
  (exists x, Group_ctor Scenario.Z3 Scenario.mul3 1%Z (fun a => a) = Throw x) <->
  (exists a, In a Scenario.Z3 /\
     bad_inverse Scenario.Z3 Scenario.mul3 1%Z (fun a => a) a).
Proof.
  apply (Group_ctor_fails_iff_bad_inverse Scenario.Z3 Scenario.mul3 1%Z (fun a => a)
           {| monoid_base :=
                {| semigroup_base :=
                     {| elements_ := Scenario.Z3; operation_ := Scenario.mul3 |} |};
              identity_ := 1%Z |}).
  vm_compute. reflexivity.
Defined.

(** The claim C5 without the proviso fails on the code both ways.  The
    loop of order five has an identity and a good inverse for every element,
    yet no group is constructed: the base reports that the operation is not
    associative.  And {0, 1} under addition has an element with a bad
    inverse, yet what the construction reports is the closure violation of
    the base, not a violation of the inverse law. *)
Lemma Group_ctor_failure_without_bad_inverse :
  (Group_ctor Examples.L5 Examples.mulL5 0%Z (fun a => a)
     = Throw (invalid_argument "Operation must be associative for semigroup") /\
   forall a, In a Examples.L5 ->
     ~ bad_inverse Examples.L5 Examples.mulL5 0%Z (fun a => a) a) /\
  (Group_ctor Examples.B2 Examples.plus2 0%Z (fun a => a)
     = Throw (invalid_argument "Operation is not closed: result not in set") /\
   ~ invalid_inverse (invalid_argument "Operation is not closed: result not in set") /\
   In 1%Z Examples.B2 /\
   bad_inverse Examples.B2 Examples.plus2 0%Z (fun a => a) 1%Z).
Proof.
  split; [split|split; [|split; [|split]]].
  - by_evaluation.
  - intros a Ha. vm_compute in Ha.
    assert (Hgood : good_inverse Examples.L5 Examples.mulL5 0%Z (fun a => a) a).
    { intuition (subst; vm_compute; intuition congruence). }
    apply good_or_bad_inverse. exact Hgood.
  - by_evaluation.
  - intros [H|[H|H]]; discriminate.
  - by_evaluation.
  - right. left. vm_compute. discriminate.
Qed.

(** ** Subgroups and cosets *)

Section SubgroupFacts.
Context {T : Type} {E : Element T} {L : ElementLaws T}.

Lemma forallb_In {A : Type} (f : A -> bool) (l : list A) (x : A) :
  forallb f l = true -> In x l -> f x = true.
Proof. intros H. apply (proj1 (forallb_forall f l) H). Qed.

Lemma verify_subgroup_criterion_valid (G : Group) (subset : list T) :
  valid_group G ->
  Subgroup.verify_subgroup_criterion
    {| Subgroup.parent_group_ := G; Subgroup.subset_ := subset |} = Ok true ->
  subset <> [] /\
  (forall a, In a subset -> In a (elements_ G)) /\
  (forall a b, In a subset -> In b subset ->
     In (operation_ G a (inverse_func_ G b)) subset).
Proof.
  intros VG. unfold Subgroup.verify_subgroup_criterion. simpl.
  destruct subset as [|x subset'] eqn:Hs; simpl empty; cbv iota; [discriminate|].
  rewrite <- Hs. assert (Hne : subset <> []) by congruence. clear Hs x subset'.
  rewrite (for_all_forallb _ (fun a => contains (get_set G) a)) by reflexivity.
  simpl bind.
  destruct (forallb (fun a => contains (get_set G) a) subset) eqn:Hin; simpl;
    [|discriminate].
  assert (Hincl : forall a, In a subset -> In a (elements_ G)).
  { intros a Ha. apply contains_In. apply (forallb_In _ _ a Hin Ha). }
  rewrite (for_all_forallb _
    (fun a => forallb (fun b => contains subset (operation_ G a (inverse_func_ G b)))
                subset)).
  - intros [= Hcrit]. split; [exact Hne|]. split; [exact Hincl|].
    intros a b Ha Hb. apply contains_In.
      apply (forallb_In _ _ b (forallb_In _ _ a Hcrit Ha) Hb).
  - intros a Ha. apply for_all_forallb. intros b Hb.
    rewrite (inverse_valid G VG) by auto. simpl.
    rewrite (operate_valid G VG) by (try apply (inv_in G VG); auto). reflexivity.
Qed.

Lemma Subgroup_ctor_valid (G : Group) (subset : list T) (H : Subgroup.t) :
  valid_group G -> is_set subset -> Subgroup.ctor G subset = Ok H ->
  valid_subgroup H /\ H = {| Subgroup.parent_group_ := G; Subgroup.subset_ := subset |}.
Proof.
  intros VG Hset Hc. unfold Subgroup.ctor in Hc.
  apply bind_Ok_inv in Hc. destruct Hc as [[|] [Hv Hc]]; simpl in Hc; [|discriminate].
  injection Hc as <-. split; [|reflexivity].
  destruct (verify_subgroup_criterion_valid G subset VG Hv) as [Hne [Hincl Hcrit]].
  constructor; simpl; assumption.
Qed.

Variable H : Subgroup.t (T := T).
Hypothesis VH : valid_subgroup H.

Local Abbreviation G := (Subgroup.parent_group H).
Local Abbreviation carrier := (elements_ G).
Local Abbreviation op := (operation_ G).
Local Abbreviation e := (identity G).
Local Abbreviation inv := (inverse_func_ G).
Local Abbreviation subset := (Subgroup.get_subset H).

Let VG : valid_group G := vs_group H VH.

Lemma sub_in (a : T) : In a subset -> In a carrier.
Proof. apply (vs_incl H VH). Qed.

Lemma parent_op_in (a b : T) : In a carrier -> In b carrier -> In (op a b) carrier.
Proof. apply (op_in G VG). Qed.

Lemma parent_inv_in (a : T) : In a carrier -> In (inv a) carrier.
Proof. apply (inv_in G VG). Qed.

Local Hint Resolve sub_in parent_op_in parent_inv_in : core.

Lemma sub_e : In e subset.
Proof.
  destruct subset as [|a s] eqn:Hs; [exfalso; apply (vs_nonempty H VH), Hs|].
  assert (Ha : In a subset) by (rewrite Hs; left; reflexivity).
  rewrite <- Hs. rewrite <- (op_inv_r G VG a (sub_in a Ha)).
  apply (vs_criterion H VH); assumption.
Qed.

Lemma sub_inv (a : T) : In a subset -> In (inv a) subset.
Proof.
  intros Ha. rewrite <- (op_e_l G VG (inv a)) by (apply (inv_in G VG), sub_in, Ha).
  apply (vs_criterion H VH); [apply sub_e | exact Ha].
Qed.

Lemma sub_op (a b : T) : In a subset -> In b subset -> In (op a b) subset.
Proof.
  intros Ha Hb. rewrite <- (inv_inv G VG b) by (apply sub_in, Hb).
  apply (vs_criterion H VH); [exact Ha | apply sub_inv, Hb].
Qed.

Lemma fold_insert_map {A : Type} (f : A -> T) (l : list A) (s : list T) :
  fold_left (fun s h => insert (f h) s) l s = fold_left (fun s x => insert x s) (map f l) s.
Proof. revert s. induction l as [|a l IH]; simpl; intros s; [reflexivity | apply IH]. Qed.

Lemma build_coset_left (g : T) :
  In g carrier -> Coset.build_coset G H g Coset.LEFT = Ok (left_coset G subset g).
Proof.
  intros Hg. unfold Coset.build_coset, left_coset, make_set.
  rewrite <- fold_insert_map. apply fold_each_fold_left.
  intros s h Hh. rewrite (operate_valid G VG) by (auto using sub_in). reflexivity.
Qed.

Lemma build_coset_right (g : T) :
  In g carrier -> Coset.build_coset G H g Coset.RIGHT = Ok (right_coset G subset g).
Proof.
  intros Hg. unfold Coset.build_coset, right_coset, make_set.
  rewrite <- fold_insert_map. apply fold_each_fold_left.
  intros s h Hh. rewrite (operate_valid G VG) by (auto using sub_in). reflexivity.
Qed.

Lemma build_coset_outside (g : T) (side : Coset.CosetType) :
  ~ In g carrier ->
  Coset.build_coset G H g side = Throw (domain_error "Elements not in groupoid").
Proof.
  intros Hg. unfold Coset.build_coset.
  destruct subset as [|h s] eqn:Hs; [exfalso; apply (vs_nonempty H VH), Hs|].
  destruct side; simpl; rewrite operate_outside by auto; reflexivity.
Qed.

Lemma In_left_coset (g x : T) :
  In x (left_coset G subset g) <-> exists h, In h subset /\ x = op g h.
Proof.
  unfold left_coset. rewrite In_make_set, in_map_iff.
  split; intros [h [H1 H2]]; exists h; auto.
Qed.

Lemma In_right_coset (g x : T) :
  In x (right_coset G subset g) <-> exists h, In h subset /\ x = op h g.
Proof.
  unfold right_coset. rewrite In_make_set, in_map_iff.
  split; intros [h [H1 H2]]; exists h; auto.
Qed.

Lemma left_coset_is_set (g : T) : is_set (left_coset G subset g).
Proof. apply is_set_make_set. Qed.

Lemma left_coset_incl (g x : T) :
  In g carrier -> In x (left_coset G subset g) -> In x carrier.
Proof.
  intros Hg Hx. apply In_left_coset in Hx. destruct Hx as [h [Hh ->]].
  apply (op_in G VG); auto using sub_in.
Qed.

Lemma left_coset_self (g : T) : In g carrier -> In g (left_coset G subset g).
Proof.
  intros Hg. apply In_left_coset. exists e. split; [apply sub_e|].
  symmetry. apply (op_e_r G VG), Hg.
Qed.

Lemma left_coset_size (g : T) :
  In g carrier -> length (left_coset G subset g) = length subset.
Proof.
  intros Hg. transitivity (length (map (fun h => op g h) subset)); [|apply length_map].
  apply same_elements_length.
  - apply is_set_NoDup, left_coset_is_set.
  - apply Finite.Injective_map_NoDup_in; [|apply is_set_NoDup, (vs_set H VH)].
    intros a b Ha Hb Hab. apply (cancel_l G VG g); auto using sub_in.
  - intros x. unfold left_coset. apply In_make_set.
Qed.

(** Two left cosets that meet are the same set. *)
Lemma left_coset_absorb (g g' : T) :
  In g carrier -> In g' (left_coset G subset g) ->
  left_coset G subset g' = left_coset G subset g.
Proof.
  intros Hg Hg'. apply In_left_coset in Hg'. destruct Hg' as [k [Hk ->]].
  pose proof (sub_in k Hk) as Hkc.
  apply is_set_ext; try apply left_coset_is_set.
  intros x. rewrite !In_left_coset. split.
  - intros [h [Hh ->]]. exists (op k h). split; [apply sub_op; assumption|].
    apply (op_assoc G VG); auto using sub_in.
  - intros [h [Hh ->]]. exists (op (inv k) h). split; [apply sub_op; auto using sub_inv|].
    pose proof (sub_in h Hh) as Hhc. pose proof (inv_in G VG k Hkc) as Hik.
    rewrite (op_assoc G VG) by auto.
    f_equal. rewrite <- (op_assoc G VG) by auto.
    rewrite (op_inv_r G VG), (op_e_l G VG) by auto. reflexivity.
Qed.

Lemma left_coset_meet (a b x : T) :
  In a carrier -> In b carrier ->
  In x (left_coset G subset a) -> In x (left_coset G subset b) ->
  left_coset G subset a = left_coset G subset b.
Proof.
  intros Ha Hb Hxa Hxb.
  rewrite <- (left_coset_absorb a x Ha Hxa). apply left_coset_absorb; assumption.
Qed.

End SubgroupFacts.

(** ** The constructor of Coset *)

(** C6, as the code has it: for a valid group, a validated subgroup of it
    and either side, the constructor of [Coset] returns a coset for every
    representative that is an element of the carrier of the group. *)
Theorem Coset_ctor_succeeds_on_carrier {T : Type} {E : Element T} {L : ElementLaws T}
    (elements : list T) (op : T -> T -> T) (e : T) (inv : T -> T) (G : Group)
    (subset : list T) (H : Subgroup.t) (representative : T) (side : Coset.CosetType) :
  is_set elements -> Group_ctor elements op e inv = Ok G ->
  is_set subset -> Subgroup.ctor G subset = Ok H ->
  In representative (get_set G) ->
  exists c, Coset.ctor G H representative side = Ok c.
Proof.
  intros Hset HG Hsub HH Hrep.
  pose proof (Group_ctor_valid elements op e inv G Hset HG) as VG.
  destruct (Subgroup_ctor_valid G subset H VG Hsub HH) as [VH ->].
  unfold Coset.ctor. destruct side.
  - rewrite (build_coset_left _ VH) by exact Hrep. simpl. eexists. reflexivity.
  - rewrite (build_coset_right _ VH) by exact Hrep. simpl. eexists. reflexivity.
Qed.

Lemma Coset_ctor_succeeds_on_carrier_witness :
  exists c, Coset.ctor Examples.G6 Examples.H6 4%Z Coset.RIGHT = Ok c.
Proof.
  apply (Coset_ctor_succeeds_on_carrier Scenario.Z6 Scenario.add6 0%Z Scenario.neg6
           Examples.G6 (make_set [0%Z; 3%Z]) Examples.H6 4%Z Coset.RIGHT).
  - apply is_set_make_set.
  - by_evaluation.
  - apply is_set_make_set.
  - by_evaluation.
  - by_evaluation.
Defined.

(** The claim C6 fails for a representative outside the carrier: in the
    group of scenario A with the subgroup {0, 3} the representative 7 makes
    the constructor throw. *)
Lemma Coset_ctor_throws_outside_carrier :
  Group_ctor Scenario.Z6 Scenario.add6 0%Z Scenario.neg6 = Ok Examples.G6 /\
  Subgroup.ctor Examples.G6 (make_set [0%Z; 3%Z]) = Ok Examples.H6 /\
  Coset.ctor Examples.G6 Examples.H6 7%Z Coset.LEFT
    = Throw (domain_error "Elements not in groupoid") /\
  ~ (exists c, Coset.ctor Examples.G6 Examples.H6 7%Z Coset.LEFT = Ok c).
Proof.
  split; [exact G6_constructed|]. split; [exact H6_constructed|].
  split; [vm_compute; reflexivity|].
  intros [c Hc]. vm_compute in Hc. discriminate.
Qed.

(** ** Normality: conjugation against cosets *)

Section NormalFacts.
Context {T : Type} {E : Element T} {L : ElementLaws T}.
Variable H : Subgroup.t (T := T).
Hypothesis VH : valid_subgroup H.

Local Abbreviation G := (Subgroup.parent_group H).
Local Abbreviation carrier := (elements_ G).
Local Abbreviation op := (operation_ G).
Local Abbreviation inv := (inverse_func_ G).
Local Abbreviation subset := (Subgroup.get_subset H).

Let VG : valid_group G := vs_group H VH.

Local Hint Resolve sub_in parent_op_in parent_inv_in : core.

Lemma verify_normal_forallb :
  NormalSubgroup.verify_normal {| NormalSubgroup.base := H |} =
  Ok (forallb (fun g => forallb (fun n => contains subset (op (op g n) (inv g))) subset)
        carrier).
Proof.
  unfold NormalSubgroup.verify_normal. simpl.
  apply for_all_forallb. intros g Hg. apply for_all_forallb. intros n Hn.
  rewrite (inverse_valid G VG) by exact Hg. simpl.
  rewrite (operate_valid G VG) by eauto. simpl.
  rewrite (operate_valid G VG) by eauto. reflexivity.
Qed.

Lemma verify_normal_via_cosets_forallb :
  NormalSubgroup.verify_normal_via_cosets {| NormalSubgroup.base := H |} =
  Ok (forallb (fun g => set_eq (left_coset G subset g) (right_coset G subset g)) carrier).
Proof.
  unfold NormalSubgroup.verify_normal_via_cosets. simpl.
  apply for_all_forallb. intros g Hg.
  pose proof (build_coset_left H VH g Hg) as Hl.
  pose proof (build_coset_right H VH g Hg) as Hr.
  unfold Coset.build_coset in Hl, Hr. rewrite Hl, Hr. reflexivity.
Qed.

Lemma verify_normal_true :
  NormalSubgroup.verify_normal {| NormalSubgroup.base := H |} = Ok true <->
  conjugation_closed H.
Proof.
  rewrite verify_normal_forallb. unfold conjugation_closed. split.
  - intros [= Hb] g n Hg Hn. apply contains_In.
    apply (forallb_In _ _ n (forallb_In _ _ g Hb Hg) Hn).
  - intros Hc. f_equal. apply forallb_forall. intros g Hg.
    apply forallb_forall. intros n Hn. apply contains_In, Hc; assumption.
Qed.

Lemma verify_normal_via_cosets_true :
  NormalSubgroup.verify_normal_via_cosets {| NormalSubgroup.base := H |} = Ok true <->
  cosets_coincide H.
Proof.
  rewrite verify_normal_via_cosets_forallb. unfold cosets_coincide. split.
  - intros [= Hb] g Hg. apply set_eq_spec. apply (forallb_In _ _ g Hb Hg).
  - intros Hc. f_equal. apply forallb_forall. intros g Hg.
    apply set_eq_spec, Hc, Hg.
Qed.

Lemma conjugation_closed_cosets : conjugation_closed H -> cosets_coincide H.
Proof.
  intros Hc g Hg. pose proof (parent_inv_in H VH g Hg) as Hig.
  apply is_set_ext; [apply is_set_make_set | apply is_set_make_set |].
  intros x. rewrite (In_left_coset H), (In_right_coset H). split.
  - intros [n [Hn ->]]. exists (op (op g n) (inv g)). split; [apply Hc; assumption|].
    rewrite (op_assoc G VG) by eauto.
    rewrite (op_inv_l G VG), (op_e_r G VG) by eauto. reflexivity.
  - intros [n [Hn ->]]. exists (op (op (inv g) n) g). split.
    + pose proof (Hc (inv g) n Hig Hn) as Hc'. simpl in Hc'.
      rewrite (inv_inv G VG) in Hc' by exact Hg. exact Hc'.
    + rewrite <- (op_assoc G VG) by eauto. rewrite <- (op_assoc G VG) by eauto.
      rewrite (op_inv_r G VG), (op_e_l G VG) by eauto. reflexivity.
Qed.

Lemma cosets_conjugation_closed : cosets_coincide H -> conjugation_closed H.
Proof.
  intros Hc g n Hg Hn. pose proof (parent_inv_in H VH g Hg) as Hig.
  assert (Hx : In (op g n) (right_coset G subset g)).
  { rewrite <- (Hc g Hg). apply (In_left_coset H). exists n. auto. }
  apply (In_right_coset H) in Hx. destruct Hx as [n' [Hn' Heq]].
  rewrite Heq. rewrite (op_assoc G VG) by eauto.
  rewrite (op_inv_r G VG), (op_e_r G VG) by eauto. exact Hn'.
Qed.

End NormalFacts.

(** C4: for a validated subgroup of a valid group the check by conjugation
    and the check by cosets agree: both return without throwing, with the
    same answer, so that one returns true exactly when the other does; the
    answer is true exactly when [g ∘ n ∘ g⁻¹] lies in [N] for all [g] and
    [n], which holds exactly when [gN = Ng] for all [g]. *)
Theorem verify_normal_agrees_with_cosets {T : Type} {E : Element T} {L : ElementLaws T}
    (elements : list T) (op : T -> T -> T) (e : T) (inv : T -> T) (G : Group)
    (subset : list T) (H : Subgroup.t) :
  is_set elements -> Group_ctor elements op e inv = Ok G ->
  is_set subset -> Subgroup.ctor G subset = Ok H ->
  let N := {| NormalSubgroup.base := H |} in
  (NormalSubgroup.verify_normal N = Ok true <->
   NormalSubgroup.verify_normal_via_cosets N = Ok true) /\
  (exists b, NormalSubgroup.verify_normal N = Ok b /\
             NormalSubgroup.verify_normal_via_cosets N = Ok b) /\
  (NormalSubgroup.verify_normal N = Ok true <-> conjugation_closed H) /\
  (conjugation_closed H <->
   forall g, In g (get_set G) -> left_coset G subset g = right_coset G subset g).
Proof.
  intros Hset HG Hsub HH N.
  pose proof (Group_ctor_valid elements op e inv G Hset HG) as VG.
  destruct (Subgroup_ctor_valid G subset H VG Hsub HH) as [VH HeqH].
  assert (Hmath : conjugation_closed H <-> cosets_coincide H).
  { split; [apply conjugation_closed_cosets | apply cosets_conjugation_closed]; exact VH. }
  assert (Hiff : NormalSubgroup.verify_normal N = Ok true <->
                 NormalSubgroup.verify_normal_via_cosets N = Ok true).
  { unfold N. rewrite (verify_normal_true H VH), (verify_normal_via_cosets_true H VH).
    exact Hmath. }
  split; [exact Hiff|]. split; [|split].
  - unfold N in *. rewrite (verify_normal_forallb H VH) in *.
    rewrite (verify_normal_via_cosets_forallb H VH) in *.
    match goal with |- exists b, Ok ?x = _ /\ Ok ?y = _ =>
      destruct x eqn:Hx; destruct y eqn:Hy end.
    + exists true. auto.
    + destruct Hiff as [Hiff _]. specialize (Hiff eq_refl). discriminate.
    + destruct Hiff as [_ Hiff]. specialize (Hiff eq_refl). discriminate.
    + exists false. auto.
  - apply (verify_normal_true H VH).
  - rewrite Hmath. unfold cosets_coincide. subst H. simpl. unfold get_set. tauto.
Qed.

Lemma verify_normal_agrees_with_cosets_witness :
  NormalSubgroup.verify_normal {| NormalSubgroup.base := Examples.HS3 |} = Ok true <->
  NormalSubgroup.verify_normal_via_cosets {| NormalSubgroup.base := Examples.HS3 |} = Ok true.
Proof.
  apply (verify_normal_agrees_with_cosets Scenario.S3 Scenario.mulS3 0%Z Scenario.invS3
           Examples.GS3 (make_set [0%Z; 1%Z]) Examples.HS3).
  - apply is_set_make_set.
  - by_evaluation.
  - apply is_set_make_set.
  - by_evaluation.
Defined.

(** ** Group::power on a valid group *)

Section PowerCorrect.
Context {T : Type} {E : Element T} {L : ElementLaws T}.
Variable G : Group (T := T).
Hypothesis VG : valid_group G.

Local Abbreviation carrier := (elements_ G).
Local Abbreviation op := (operation_ G).
Local Abbreviation e := (identity G).

Lemma gpow_square (c : T) (n : nat) :
  In c carrier -> gpow G (op c c) n = gpow G c (n + n).
Proof.
  intros Hc. induction n as [|n IH]; [reflexivity|].
  rewrite Nat.add_succ_r. simpl. rewrite IH.
  rewrite <- (op_assoc G VG) by (try apply (gpow_in G VG); assumption). reflexivity.
Qed.

Lemma gpow_succ_l (c : T) (n : nat) :
  In c carrier -> op c (gpow G c n) = gpow G c (S n).
Proof.
  intros Hc. rewrite <- (gpow_1 G VG c Hc) at 1.
  rewrite <- (gpow_add G VG) by exact Hc. reflexivity.
Qed.

(** Binary exponentiation multiplies [result] by the power of
    [current_power]. *)
Lemma power_loop_valid (exp : positive) :
  forall result current_power, In result carrier -> In current_power carrier ->
    power_loop G result current_power exp =
    Ok (op result (gpow G current_power (Pos.to_nat exp))).
Proof.
  induction exp as [exp IH|exp IH|]; intros result c Hr Hc; simpl power_loop.
  - rewrite !(operate_valid G VG) by assumption. simpl bind.
    rewrite IH by (apply (op_in G VG); assumption).
    rewrite gpow_square by exact Hc.
    rewrite (op_assoc G VG) by (try apply (gpow_in G VG); assumption).
    rewrite gpow_succ_l by exact Hc.
    rewrite Pos2Nat.inj_xI. do 3 f_equal. lia.
  - rewrite !(operate_valid G VG) by assumption. simpl bind.
    rewrite IH by (try apply (op_in G VG); assumption).
    rewrite gpow_square by exact Hc.
    rewrite Pos2Nat.inj_xO. do 3 f_equal. lia.
  - rewrite !(operate_valid G VG) by assumption. simpl bind.
    rewrite Pos2Nat.inj_1, (gpow_1 G VG) by exact Hc. reflexivity.
Qed.

Lemma power_gpow (a : T) (n : nat) :
  In a carrier -> power G a (Z.of_nat n) = Ok (gpow G a n).
Proof.
  intros Ha. destruct n as [|n]; [reflexivity|].
  simpl Z.of_nat. unfold power.
  rewrite power_loop_valid by (try apply (e_in G VG); assumption).
  rewrite (op_e_l G VG) by (apply (gpow_in G VG), Ha).
  rewrite SuccNat2Pos.id_succ. reflexivity.
Qed.

Lemma power_gpow_negative (a : T) (n : nat) :
  In a carrier -> 0 < n -> (LLONG_MIN < - Z.of_nat n)%Z ->
  power G a (- Z.of_nat n) = Ok (gpow G (inverse_func_ G a) n).
Proof.
  intros Ha Hn Hmin. destruct n as [|n]; [lia|].
  simpl Z.of_nat in *. simpl Z.opp in *. unfold power.
  match goal with |- context [(?z =? LLONG_MIN)%Z] =>
    destruct (z =? LLONG_MIN)%Z eqn:Heq; [apply Z.eqb_eq in Heq; lia|] end.
  rewrite (inverse_valid G VG) by exact Ha. simpl bind.
  pose proof (inv_in G VG a Ha) as Hia.
  rewrite power_loop_valid by (try apply (e_in G VG); assumption).
  rewrite (op_e_l G VG) by (apply (gpow_in G VG), Hia).
  rewrite SuccNat2Pos.id_succ. reflexivity.
Qed.

End PowerCorrect.

(** ** The order of an element *)

Section OrderFacts.
Context {T : Type} {E : Element T} {L : ElementLaws T}.
Variable G : Group (T := T).
Hypothesis VG : valid_group G.

Local Abbreviation carrier := (elements_ G).
Local Abbreviation op := (operation_ G).
Local Abbreviation e := (identity G).

Lemma compute_loop_spec (a : T) (remaining : nat) :
  In a carrier ->
  forall n, exists r,
    ElementOrder.compute_loop G a remaining n (gpow G a n) = Ok r /\
    match r with
    | Some m => n <= m < n + remaining /\ gpow G a m = e /\
                forall k, n <= k < m -> gpow G a k <> e
    | None => forall k, n <= k < n + remaining -> gpow G a k <> e
    end.
Proof.
  intros Ha. induction remaining as [|r IH]; intros n; simpl.
  - exists None. split; [reflexivity | intros k Hk; lia].
  - destruct (eq_op (gpow G a n) e) eqn:Heq.
    + apply eq_op_spec in Heq. exists (Some n). split; [reflexivity|].
      split; [lia|]. split; [exact Heq | intros k Hk; lia].
    + apply eq_op_false in Heq.
      rewrite (operate_valid G VG) by (try apply (gpow_in G VG); auto). simpl.
      destruct (IH (S n)) as [res [Hres Hspec]]. simpl in Hres.
      exists res. split; [exact Hres|].
      destruct res as [m|].
      * destruct Hspec as [Hm [Hpow Hmin]]. split; [lia|]. split; [exact Hpow|].
        intros k Hk. destruct (Nat.eq_dec k n) as [->|Hne]; [exact Heq | apply Hmin; lia].
      * intros k Hk. destruct (Nat.eq_dec k n) as [->|Hne]; [exact Heq | apply Hspec; lia].
Qed.

Lemma carrier_nonempty : 1 <= length carrier.
Proof.
  pose proof (e_in G VG) as He. destruct carrier; [destruct He | simpl; lia].
Qed.

Lemma compute_spec (a : T) :
  In a carrier ->
  exists r,
    ElementOrder.compute G a = Ok r /\
    match r with
    | Some n => 1 <= n <= size (get_set G) /\ gpow G a n = e /\
                forall m, 1 <= m < n -> gpow G a m <> e
    | None => forall n, 1 <= n <= size (get_set G) -> gpow G a n <> e
    end /\
    (a = e -> r = Some 1).
Proof.
  intros Ha. unfold ElementOrder.compute, size, get_set.
  rewrite (proj2 (contains_In _ _) Ha). simpl.
  destruct (eq_op a e) eqn:Heq.
  - apply eq_op_spec in Heq. exists (Some 1). split; [reflexivity|].
    split; [|reflexivity]. split; [pose proof carrier_nonempty; lia|].
    split; [|intros m Hm; lia]. rewrite (gpow_1 G VG) by exact Ha. exact Heq.
  - apply eq_op_false in Heq.
    destruct (compute_loop_spec a (length carrier) Ha 1) as [r [Hr Hspec]].
    rewrite (gpow_1 G VG) in Hr by exact Ha.
    exists r. split; [exact Hr|]. split; [|intros; contradiction].
    destruct r as [n|].
    + destruct Hspec as [Hn [Hpow Hmin]]. split; [lia|]. split; [exact Hpow|].
      intros m Hm. apply Hmin. lia.
    + intros n Hn. apply Hspec. lia.
Qed.

(** Below the order the powers of an element are pairwise different. *)
Lemma gpow_injective_below_order (a : T) (n i j : nat) :
  In a carrier -> (forall m, 1 <= m < n -> gpow G a m <> e) ->
  i < n -> j < n -> gpow G a i = gpow G a j -> i = j.
Proof.
  intros Ha Hmin.
  assert (Hlt : forall i j, i < j -> j < n -> gpow G a i <> gpow G a j).
  { clear i j. intros i j Hij Hj Heq. apply (Hmin (j - i)); [lia|].
    apply (cancel_l G VG (gpow G a i)); try apply (gpow_in G VG); try apply (e_in G VG);
      try exact Ha.
    rewrite <- (gpow_add G VG) by exact Ha.
    replace (i + (j - i)) with j by lia.
    rewrite (op_e_r G VG) by (apply (gpow_in G VG), Ha). symmetry. exact Heq. }
  intros Hi Hj Heq.
  destruct (Nat.lt_trichotomy i j) as [Hij|[Hij|Hij]]; [|exact Hij|].
  - exfalso. apply (Hlt i j Hij Hj Heq).
  - exfalso. apply (Hlt j i Hij Hi). symmetry. exact Heq.
Qed.

Lemma generate_exact_spec (g : T) (remaining : nat) :
  In g carrier ->
  forall k subgroup,
    CyclicGroup.generate_exact G g remaining subgroup (gpow G g k) =
    Ok (fold_left (fun s x => insert x s) (map (gpow G g) (seq k remaining)) subgroup).
Proof.
  intros Hg. induction remaining as [|r IH]; intros k subgroup; simpl; [reflexivity|].
  rewrite (operate_valid G VG) by (try apply (gpow_in G VG); auto). simpl.
  apply (IH (S k)).
Qed.

(** An element whose order is the order of the group has the whole carrier
    as its powers. *)
Lemma powers_cover (g : T) (n : nat) :
  In g carrier -> n = length carrier ->
  (forall m, 1 <= m < n -> gpow G g m <> e) ->
  forall x, In x carrier -> In x (map (gpow G g) (seq 0 n)).
Proof.
  intros Hg Hn Hmin.
  apply NoDup_length_incl.
  - apply Finite.Injective_map_NoDup_in; [|apply seq_NoDup].
    intros i j Hi Hj. rewrite in_seq in Hi, Hj.
    apply (gpow_injective_below_order g n); try assumption; lia.
  - rewrite length_map, length_seq. lia.
  - intros x Hx. apply in_map_iff in Hx. destruct Hx as [i [<- _]].
    apply (gpow_in G VG), Hg.
Qed.

Lemma generate_cyclic_subgroup_of_generator (g : T) :
  In g carrier -> CyclicGroup.is_generator G g = Ok true ->
  CyclicGroup.generate_cyclic_subgroup G g = Ok (get_set G).
Proof.
  intros Hg Hgen. unfold CyclicGroup.is_generator in Hgen.
  unfold CyclicGroup.generate_cyclic_subgroup.
  unfold get_set in *. rewrite (proj2 (contains_In _ _) Hg) in *. simpl in *.
  destruct (compute_spec g Hg) as [r [Hr [Hspec _]]]. rewrite Hr in *. simpl in *.
  destruct r as [n|]; [|discriminate].
  injection Hgen as Hn. apply Nat.eqb_eq in Hn. unfold size in Hn.
  destruct Hspec as [Hn1 [Hpow Hmin]].
  pose proof (generate_exact_spec g (n - 1) Hg 1 [e]) as Hgen.
  rewrite (gpow_1 G VG) in Hgen by exact Hg. rewrite Hgen. f_equal.
  assert (Hmem : forall x,
    In x (fold_left (fun s x => insert x s) (map (gpow G g) (seq 1 (n - 1))) [e]) <->
    In x (map (gpow G g) (seq 0 n))).
  { intros x. rewrite In_fold_insert.
    replace n with (S (n - 1)) at 2 by lia. simpl. tauto. }
  apply is_set_ext.
  - apply is_set_fold_insert. simpl. split; [intros ? []| exact I].
  - apply (vg_set G VG).
  - intros x. rewrite Hmem. split.
    + intros Hx. apply in_map_iff in Hx. destruct Hx as [i [<- _]].
      apply (gpow_in G VG), Hg.
    + apply powers_cover; assumption.
Qed.

End OrderFacts.

(** C3: for an element [a] of a valid group, [ElementOrder::compute]
    returns without throwing; a returned number [n] is positive, at most
    [|G|], satisfies [a^n = e] and is the least such positive number; the
    absent value is returned only when no [n] from 1 to [|G|] has [a^n = e];
    and for the identity the result is 1.  The power [a^n] is the one that
    [Group::power] computes. *)
Theorem ElementOrder_compute_least_power {T : Type} {E : Element T} {L : ElementLaws T}
    (elements : list T) (op : T -> T -> T) (e : T) (inv : T -> T) (G : Group) (a : T) :
  is_set elements -> Group_ctor elements op e inv = Ok G ->
  In a (get_set G) ->
  (exists r,
     ElementOrder.compute G a = Ok r /\
     match r with
     | Some n => 1 <= n <= size (get_set G) /\ gpow G a n = identity G /\
                 forall m, 1 <= m < n -> gpow G a m <> identity G
     | None => forall n, 1 <= n <= size (get_set G) -> gpow G a n <> identity G
     end /\
     (a = identity G -> r = Some 1)) /\
  (forall n, power G a (Z.of_nat n) = Ok (gpow G a n)).
Proof.
  intros Hset HG Ha.
  pose proof (Group_ctor_valid elements op e inv G Hset HG) as VG.
  split; [apply (compute_spec G VG a Ha) | intros n; apply (power_gpow G VG a n Ha)].
Qed.

Lemma ElementOrder_compute_least_power_witness :
  (exists r,
     ElementOrder.compute Examples.G6 2%Z = Ok r /\
     match r with
     | Some n => 1 <= n <= size (get_set Examples.G6) /\
                 gpow Examples.G6 2%Z n = identity Examples.G6 /\
                 forall m, 1 <= m < n -> gpow Examples.G6 2%Z m <> identity Examples.G6
     | None => forall n, 1 <= n <= size (get_set Examples.G6) ->
                 gpow Examples.G6 2%Z n <> identity Examples.G6
     end /\
     (2%Z = identity Examples.G6 -> r = Some 1)) /\
  (forall n, power Examples.G6 2%Z (Z.of_nat n) = Ok (gpow Examples.G6 2%Z n)).
Proof.
  apply (ElementOrder_compute_least_power Scenario.Z6 Scenario.add6 0%Z Scenario.neg6
           Examples.G6 2%Z).
  - apply is_set_make_set.
  - by_evaluation.
  - by_evaluation.
Defined.

(** C7: on a valid group, the cyclic subgroup generated by the generator
    that [find_generator] returns is the whole carrier. *)
Theorem generate_cyclic_subgroup_of_found_generator
    {T : Type} {E : Element T} {L : ElementLaws T}
    (elements : list T) (op : T -> T -> T) (e : T) (inv : T -> T) (G : Group) (g : T) :
  is_set elements -> Group_ctor elements op e inv = Ok G ->
  CyclicGroup.find_generator G = Ok (Some g) ->
  CyclicGroup.generate_cyclic_subgroup G g = Ok (get_set G).
Proof.
  intros Hset HG Hfind.
  pose proof (Group_ctor_valid elements op e inv G Hset HG) as VG.
  apply find_first_Some in Hfind. destruct Hfind as [Hg Hgen].
  apply (generate_cyclic_subgroup_of_generator G VG g Hg Hgen).
Qed.

Lemma generate_cyclic_subgroup_of_found_generator_witness :
  CyclicGroup.generate_cyclic_subgroup Examples.G6 1%Z = Ok (get_set Examples.G6).
Proof.
  apply (generate_cyclic_subgroup_of_found_generator Scenario.Z6 Scenario.add6 0%Z
           Scenario.neg6 Examples.G6 1%Z).
  - apply is_set_make_set.
  - by_evaluation.
  - by_evaluation.
Defined.

(** ** Lagrange's theorem: the partition into left cosets *)

Section PartitionLists.
Context {A : Type}.

Lemma NoDup_concat_meet (ls : list (list A)) :
  NoDup ls -> (forall c, In c ls -> NoDup c) ->
  (forall c1 c2 x, In c1 ls -> In c2 ls -> In x c1 -> In x c2 -> c1 = c2) ->
  NoDup (concat ls).
Proof.
  induction ls as [|c ls IH]; simpl; intros Hnd Hc Hmeet; [constructor|].
  inversion Hnd as [|c' ls' Hnotin Hnd']; subst.
  apply NoDup_app.
  - apply Hc. left; reflexivity.
  - apply IH; [exact Hnd' | intros; apply Hc; right; assumption |].
    intros c1 c2 x H1 H2. apply Hmeet; right; assumption.
  - intros x Hx Hin. apply in_concat in Hin. destruct Hin as [c2 [Hc2 Hx2]].
    assert (Heq : c = c2)
      by (apply (Hmeet c c2 x); [left; reflexivity | right; exact Hc2 | exact Hx | exact Hx2]).
    apply Hnotin. rewrite Heq. exact Hc2.
Qed.

Lemma length_concat_uniform (ls : list (list A)) (k : nat) :
  (forall c, In c ls -> length c = k) -> length (concat ls) = k * length ls.
Proof.
  induction ls as [|c ls IH]; simpl; intros Hk; [lia|].
  rewrite length_app, (Hk c (or_introl eq_refl)), IH by (intros; apply Hk; right; assumption).
  lia.
Qed.

End PartitionLists.

Section LagrangeFacts.
Context {T : Type} {E : Element T} {L : ElementLaws T}.
Variable H : Subgroup.t (T := T).
Hypothesis VH : valid_subgroup H.

Local Abbreviation G := (Subgroup.parent_group H).
Local Abbreviation carrier := (elements_ G).
Local Abbreviation op := (operation_ G).
Local Abbreviation inv := (inverse_func_ G).
Local Abbreviation subset := (Subgroup.get_subset H).

Let VG : valid_group G := vs_group H VH.

Local Hint Resolve sub_in parent_op_in parent_inv_in : core.

Lemma existsb_contains (cosets : list (list T)) (g : T) :
  existsb (fun coset => contains coset g) cosets = true <->
  exists c, In c cosets /\ In g c.
Proof.
  rewrite existsb_exists. split; intros [c [Hc Hg]]; exists c; split; auto;
    apply contains_In; exact Hg.
Qed.

Lemma find_all_cosets_fold :
  LagrangesTheorem.find_all_cosets G H =
  Ok (fst (fold_left (cosets_step G subset) carrier ([], []))).
Proof.
  unfold LagrangesTheorem.find_all_cosets.
  rewrite (fold_each_fold_left _ (cosets_step G subset)); [reflexivity|].
  intros [cosets processed] g Hg. unfold cosets_step.
  destruct (existsb (fun coset => contains coset g) cosets); [reflexivity|].
  unfold Coset.ctor. rewrite (build_coset_left H VH g Hg). reflexivity.
Qed.

Lemma cosets_step_invariant (l : list T) :
  (forall g, In g l -> In g carrier) ->
  forall st, cosets_invariant H (fst st) ->
    let final := fst (fold_left (cosets_step G subset) l st) in
    cosets_invariant H final /\
    (forall c, In c (fst st) -> In c final) /\
    (forall g, In g l -> exists c, In c final /\ In g c).
Proof.
  induction l as [|g l IH]; intros Hl [cosets processed] Hinv; simpl.
  - split; [exact Hinv|]. split; [auto | intros ? []].
  - assert (Hg : In g carrier) by (apply Hl; left; reflexivity).
    assert (Hl' : forall g', In g' l -> In g' carrier) by (intros; apply Hl; right; assumption).
    destruct (existsb (fun coset => contains coset g) cosets) eqn:Hex.
    + destruct (IH Hl' (cosets, processed) Hinv) as [Hinv' [Hmono Hcov]].
      split; [exact Hinv'|]. split; [exact Hmono|].
      intros g' [<-|Hg']; [|apply Hcov, Hg'].
      apply existsb_contains in Hex. destruct Hex as [c [Hc Hgc]].
      exists c. split; [apply Hmono, Hc | exact Hgc].
    + set (st' := (insert (left_coset G subset g) cosets,
                   fold_left (fun p element => insert element p)
                     (left_coset G subset g) processed)).
      assert (Hinv1 : cosets_invariant H (fst st')).
      { simpl. constructor.
        - apply is_set_insert, (ci_set H _ Hinv).
        - intros c Hc. apply In_insert in Hc. destruct Hc as [->|Hc].
          + exists g. auto.
          + apply (ci_left H _ Hinv), Hc. }
      destruct (IH Hl' st' Hinv1) as [Hinv' [Hmono Hcov]].
      split; [exact Hinv'|]. split.
      * intros c Hc. apply Hmono. simpl. apply In_insert. right. exact Hc.
      * intros g' [<-|Hg']; [|apply Hcov, Hg'].
        exists (left_coset G subset g). split.
        -- apply Hmono. simpl. apply In_insert. left. reflexivity.
        -- apply (left_coset_self H VH), Hg.
Qed.

Lemma find_all_cosets_partition :
  exists cosets, LagrangesTheorem.find_all_cosets G H = Ok cosets /\ coset_partition H cosets.
Proof.
  rewrite find_all_cosets_fold. eexists. split; [reflexivity|].
  assert (Hinit : cosets_invariant H (fst (@nil (list T), @nil T))).
  { constructor; simpl; [exact I | intros ? []]. }
  destruct (cosets_step_invariant carrier (fun g Hg => Hg) _ Hinit) as [Hinv [_ Hcov]].
  constructor; [apply (ci_set H _ Hinv) | apply (ci_left H _ Hinv) | exact Hcov].
Qed.

Variable cosets : list (list T).
Hypothesis CP : coset_partition H cosets.

Lemma partition_in_carrier (c : list T) (x : T) : In c cosets -> In x c -> In x carrier.
Proof.
  intros Hc Hx. destruct (cp_left H _ CP c Hc) as [g [Hg ->]].
  apply (left_coset_incl H VH g x Hg Hx).
Qed.

(** The coset of the family that holds [x] is the left coset of [x]. *)
Lemma partition_coset_of (c : list T) (x : T) :
  In c cosets -> In x c -> c = left_coset G subset x.
Proof.
  intros Hc Hx. destruct (cp_left H _ CP c Hc) as [g [Hg ->]].
  symmetry. apply (left_coset_absorb H VH g x Hg Hx).
Qed.

Lemma partition_meet (c1 c2 : list T) (x : T) :
  In c1 cosets -> In c2 cosets -> In x c1 -> In x c2 -> c1 = c2.
Proof.
  intros H1 H2 Hx1 Hx2.
  rewrite (partition_coset_of c1 x H1 Hx1), (partition_coset_of c2 x H2 Hx2). reflexivity.
Qed.

Lemma partition_union (x : T) : In x carrier <-> exists c, In c cosets /\ In x c.
Proof.
  split; [apply (cp_cover H _ CP)|].
  intros [c [Hc Hx]]. apply (partition_in_carrier c x Hc Hx).
Qed.

Lemma partition_exactly_one (x : T) :
  In x carrier -> exists! c, In c cosets /\ In x c.
Proof.
  intros Hx. destruct (cp_cover H _ CP x Hx) as [c [Hc Hxc]].
  exists c. split; [auto|]. intros c' [Hc' Hxc']. apply (partition_meet c c' x); assumption.
Qed.

Lemma partition_coset_size (c : list T) : In c cosets -> length c = length subset.
Proof.
  intros Hc. destruct (cp_left H _ CP c Hc) as [g [Hg ->]].
  apply (left_coset_size H VH g Hg).
Qed.

Lemma lagrange_count : length carrier = length subset * length cosets.
Proof.
  rewrite <- (length_concat_uniform cosets (length subset) partition_coset_size).
  apply same_elements_length.
  - apply is_set_NoDup, (vg_set G VG).
  - apply NoDup_concat_meet.
    + apply is_set_NoDup, (cp_set H _ CP).
    + intros c Hc. destruct (cp_left H _ CP c Hc) as [g [Hg ->]].
      apply is_set_NoDup, is_set_make_set.
    + intros c1 c2 x H1 H2 Hx1 Hx2. apply (partition_meet c1 c2 x); assumption.
  - intros x. rewrite in_concat. apply partition_union.
Qed.

End LagrangeFacts.

(** C2: for a validated subgroup [H] of a valid group [G],
    [find_all_cosets] returns a family of pairwise different left cosets of
    [H] whose union is the carrier, every element of [G] lies in exactly one
    of them, [|G| = |H| * index] holds exactly for the number [index] of
    returned cosets, and [verify] returns true. *)
Theorem find_all_cosets_partitions_carrier {T : Type} {E : Element T} {L : ElementLaws T}
    (elements : list T) (op : T -> T -> T) (e : T) (inv : T -> T) (G : Group)
    (subset : list T) (H : Subgroup.t) :
  is_set elements -> Group_ctor elements op e inv = Ok G ->
  is_set subset -> Subgroup.ctor G subset = Ok H ->
  (Z.of_nat (size (get_set G)) < size_t_modulus)%Z ->
  exists cosets,
    LagrangesTheorem.find_all_cosets G H = Ok cosets /\
    NoDup cosets /\
    (forall c, In c cosets -> exists g, In g (get_set G) /\ c = left_coset G subset g) /\
    (forall x, In x (get_set G) <-> exists c, In c cosets /\ In x c) /\
    (forall x, In x (get_set G) -> exists! c, In c cosets /\ In x c) /\
    size (get_set G) = Subgroup.size H * size cosets /\
    LagrangesTheorem.compute_index G H = Ok (size cosets) /\
    LagrangesTheorem.verify G H = Ok true.
Proof.
  intros Hset HG Hsub HH Hbound.
  pose proof (Group_ctor_valid elements op e inv G Hset HG) as VG.
  destruct (Subgroup_ctor_valid G subset H VG Hsub HH) as [VH HeqH].
  destruct (find_all_cosets_partition H VH) as [cosets [Hfind CP]].
  assert (HGH : Subgroup.parent_group H = G) by (subst H; reflexivity).
  assert (HsH : Subgroup.get_subset H = subset) by (subst H; reflexivity).
  rewrite HGH in Hfind.
  pose proof (lagrange_count H VH cosets CP) as Hcount.
  rewrite HGH in Hcount.
  exists cosets. split; [exact Hfind|].
  split; [apply is_set_NoDup, (cp_set H cosets CP)|].
  split; [intros c Hc; rewrite <- HGH, <- HsH; apply (cp_left H cosets CP c Hc)|].
  split; [intros x; rewrite <- HGH; apply (partition_union H VH cosets CP)|].
  split; [intros x; rewrite <- HGH; apply (partition_exactly_one H VH cosets CP)|].
  split; [exact Hcount|].
  unfold LagrangesTheorem.verify, LagrangesTheorem.compute_index.
  rewrite Hfind. simpl. split; [reflexivity|]. f_equal.
  unfold size, Subgroup.size, get_set in *. unfold size.
  fold (Subgroup.get_subset H).
  rewrite <- Nat2Z.inj_mul, <- Hcount.
  unfold wrap. rewrite Z.mod_small by lia. apply Z.eqb_refl.
Qed.

Lemma find_all_cosets_partitions_carrier_witness :
  exists cosets,
    LagrangesTheorem.find_all_cosets Examples.GS3 Examples.HS3 = Ok cosets /\
    NoDup cosets /\
    (forall c, In c cosets -> exists g, In g (get_set Examples.GS3) /\
       c = left_coset Examples.GS3 (make_set [0%Z; 1%Z]) g) /\
    (forall x, In x (get_set Examples.GS3) <-> exists c, In c cosets /\ In x c) /\
    (forall x, In x (get_set Examples.GS3) -> exists! c, In c cosets /\ In x c) /\
    size (get_set Examples.GS3) = Subgroup.size Examples.HS3 * size cosets /\
    LagrangesTheorem.compute_index Examples.GS3 Examples.HS3 = Ok (size cosets) /\
    LagrangesTheorem.verify Examples.GS3 Examples.HS3 = Ok true.
Proof.
  apply (find_all_cosets_partitions_carrier Scenario.S3 Scenario.mulS3 0%Z Scenario.invS3
           Examples.GS3 (make_set [0%Z; 1%Z]) Examples.HS3).
  - apply is_set_make_set.
  - by_evaluation.
  - apply is_set_make_set.
  - by_evaluation.
  - by_evaluation.
Defined.

(** ** The factor group *)

Section FactorFacts.
Context {T : Type} {E : Element T} {L : ElementLaws T}.

Lemma fill_find (c l : list T) (m : list (T * list T)) (x : T) :
  map_find x (fold_left (fun m element => map_set element c m) l m) =
  if contains l x then Some c else map_find x m.
Proof.
  revert m. induction l as [|a l IH]; intros m; simpl; [reflexivity|].
  rewrite IH. destruct (contains l x); [rewrite orb_true_r; reflexivity|].
  rewrite orb_false_r. destruct (equiv x a) eqn:Heq.
  - apply equiv_spec in Heq. subst a. apply map_find_set_same.
  - apply map_find_set_other. intros ->. rewrite equiv_refl in Heq. discriminate.
Qed.

Lemma coset_map_find (cosets : list (list T)) (m : list (T * list T)) (x : T) :
  (exists r, In r cosets /\ In x r /\ map_find x (coset_map cosets m) = Some r) \/
  ((forall r, In r cosets -> ~ In x r) /\ map_find x (coset_map cosets m) = map_find x m).
Proof.
  revert m. induction cosets as [|c cosets IH]; intros m; simpl.
  - right. split; [intros r [] | reflexivity].
  - destruct (IH (fill_coset c m)) as [[r [Hr [Hx Hf]]]|[Hnone Hf]].
    + left. exists r. auto.
    + unfold fill_coset in Hf at 2. rewrite fill_find in Hf.
      destruct (contains c x) eqn:Hc.
      * apply contains_In in Hc. left. exists c. auto.
      * apply contains_false in Hc. right. split; [|exact Hf].
        intros r [<-|Hr]; [exact Hc | apply Hnone, Hr].
Qed.

Lemma NormalSubgroup_ctor_valid (H : Subgroup.t) (N : NormalSubgroup.t) :
  valid_subgroup H -> NormalSubgroup.ctor H = Ok N ->
  N = {| NormalSubgroup.base := H |} /\ conjugation_closed H.
Proof.
  intros VH Hc. unfold NormalSubgroup.ctor in Hc.
  apply bind_Ok_inv in Hc. destruct Hc as [[|] [Hv Hc]]; simpl in Hc; [|discriminate].
  split; [congruence|]. apply (verify_normal_true H VH), Hv.
Qed.

Lemma NormalSubgroup_ctor_from_subset_valid (G : Group) (subset : list T)
    (N : NormalSubgroup.t) :
  valid_group G -> is_set subset -> NormalSubgroup.ctor_from_subset G subset = Ok N ->
  exists H, Subgroup.ctor G subset = Ok H /\ NormalSubgroup.ctor H = Ok N.
Proof.
  intros VG Hset Hc. unfold NormalSubgroup.ctor_from_subset in Hc.
  apply bind_Ok_inv in Hc. destruct Hc as [H [HH Hc]].
  exists H. split; [exact HH|]. unfold NormalSubgroup.ctor.
  destruct (NormalSubgroup.verify_normal {| NormalSubgroup.base := H |}) as [[|]|];
    simpl in *; congruence.
Qed.

Variable H : Subgroup.t (T := T).
Hypothesis VH : valid_subgroup H.
Hypothesis NH : conjugation_closed H.

Local Abbreviation G := (Subgroup.parent_group H).
Local Abbreviation carrier := (elements_ G).
Local Abbreviation op := (operation_ G).
Local Abbreviation inv := (inverse_func_ G).
Local Abbreviation subset := (Subgroup.get_subset H).

Let VG : valid_group G := vs_group H VH.

Lemma normal_sub_inv (a : T) : In a subset -> In (inv a) subset.
Proof. apply (sub_inv H VH). Qed.

Lemma normal_sub_op (a b : T) : In a subset -> In b subset -> In (op a b) subset.
Proof. apply (sub_op H VH). Qed.

Local Hint Resolve sub_in parent_op_in parent_inv_in normal_sub_inv normal_sub_op : core.

(** Normality makes the product of two left cosets a left coset: the
    product of [a ∘ n1] and [b ∘ n2] lies in the left coset of [a ∘ b]. *)
Lemma product_in_coset (a b n1 n2 : T) :
  In a carrier -> In b carrier -> In n1 subset -> In n2 subset ->
  In (op (op a n1) (op b n2)) (left_coset G subset (op a b)).
Proof.
  intros Ha Hb Hn1 Hn2.
  pose proof (parent_inv_in H VH b Hb) as Hib.
  pose proof (sub_in H VH n1 Hn1) as Hc1. pose proof (sub_in H VH n2 Hn2) as Hc2.
  assert (Hconj : In (op (op (inv b) n1) b) subset).
  { pose proof (NH (inv b) n1 Hib Hn1) as Hc. simpl in Hc.
    rewrite (inv_inv G VG) in Hc by exact Hb. exact Hc. }
  apply (In_left_coset H). exists (op (op (op (inv b) n1) b) n2).
  split; [apply normal_sub_op; assumption|].
  pose proof (sub_in H VH _ Hconj) as Hcc.
  assert (Hin : forall x y, In x carrier -> In y carrier -> In (op x y) carrier)
    by (apply (op_in G VG)).
  rewrite (op_assoc G VG a n1) by auto.
  rewrite (op_assoc G VG a b) by auto.
  f_equal.
  rewrite (op_assoc G VG (op (inv b) n1) b n2) by auto.
  rewrite (op_assoc G VG (inv b) n1) by auto.
  rewrite <- (op_assoc G VG b (inv b)) by auto.
  rewrite (op_inv_r G VG), (op_e_l G VG) by auto. reflexivity.
Qed.

Variable cosets : list (list T).
Hypothesis CP : coset_partition H cosets.

Lemma coset_products_agree (cA cB : list T) (a a' b b' : T) :
  In cA cosets -> In cB cosets -> In a cA -> In a' cA -> In b cB -> In b' cB ->
  left_coset G subset (op a' b') = left_coset G subset (op a b).
Proof.
  intros HcA HcB Ha Ha' Hb Hb'.
  pose proof (partition_in_carrier H VH cosets CP cA a HcA Ha) as Hac.
  pose proof (partition_in_carrier H VH cosets CP cB b HcB Hb) as Hbc.
  rewrite (partition_coset_of H VH cosets CP cA a HcA Ha) in Ha'.
  rewrite (partition_coset_of H VH cosets CP cB b HcB Hb) in Hb'.
  apply (In_left_coset H) in Ha', Hb'.
  destruct Ha' as [n1 [Hn1 ->]]. destruct Hb' as [n2 [Hn2 ->]].
  apply (left_coset_absorb H VH);
    [apply (op_in G VG); assumption | apply product_in_coset; assumption].
Qed.

Variable F : FactorGroup.t (T := T).
Hypothesis HF : F = {| FactorGroup.parent_group_ := G;
                       FactorGroup.normal_subgroup_ := {| NormalSubgroup.base := H |};
                       FactorGroup.cosets_ := cosets;
                       FactorGroup.element_to_coset_ := coset_map cosets [] |}.

Lemma find_coset_containing_valid (x : T) :
  In x carrier ->
  FactorGroup.find_coset_containing F x = Ok (left_coset G subset x).
Proof.
  intros Hx. unfold FactorGroup.find_coset_containing. rewrite HF. simpl.
  destruct (coset_map_find cosets [] x) as [[r [Hr [Hxr ->]]]|[Hnone _]].
  - rewrite (partition_coset_of H VH cosets CP r x Hr Hxr). reflexivity.
  - exfalso. destruct (cp_cover H cosets CP x Hx) as [c [Hc Hxc]].
    apply (Hnone c Hc Hxc).
Qed.

Lemma FactorGroup_operate_valid (cA cB : list T) (a b : T) :
  In cA cosets -> In cB cosets -> In a cA -> In b cB ->
  FactorGroup.operate F cA cB = Ok (left_coset G subset (op a b)).
Proof.
  intros HcA HcB Ha Hb. unfold FactorGroup.operate.
  replace (FactorGroup.cosets_ F) with cosets by (rewrite HF; reflexivity).
  replace (FactorGroup.parent_group_ F) with G by (rewrite HF; reflexivity).
  rewrite (proj2 (contains_In cosets cA) HcA), (proj2 (contains_In cosets cB) HcB). simpl.
  destruct cA as [|ra cA']; [destruct Ha|]. destruct cB as [|rb cB']; [destruct Hb|].
  simpl first_element. simpl bind.
  assert (Hra : In ra (ra :: cA')) by (left; reflexivity).
  assert (Hrb : In rb (rb :: cB')) by (left; reflexivity).
  pose proof (partition_in_carrier H VH cosets CP _ ra HcA Hra) as Hrac.
  pose proof (partition_in_carrier H VH cosets CP _ rb HcB Hrb) as Hrbc.
  rewrite (operate_valid G VG) by assumption. simpl.
  rewrite find_coset_containing_valid by (apply (op_in G VG); assumption).
  f_equal. apply (coset_products_agree _ _ a ra b rb HcA HcB); assumption.
Qed.

End FactorFacts.

(** C1: for a valid group [G], a normal subgroup [N] of it and the factor
    group built from them, the quotient operation does not depend on the
    representatives: for cosets [aN], [bN] of the partition and any
    [a, a'] in [aN] and [b, b'] in [bN], the coset found for [a' ∘ b'] is
    the coset found for [a ∘ b], namely the left coset [(a ∘ b)N], and
    [operate(aN, bN)] returns [(a ∘ b)N]. *)
Theorem FactorGroup_operate_representative_independent
    {T : Type} {E : Element T} {L : ElementLaws T}
    (elements : list T) (op : T -> T -> T) (e : T) (inv : T -> T) (G : Group)
    (subset : list T) (N : NormalSubgroup.t) (F : FactorGroup.t) :
  is_set elements -> Group_ctor elements op e inv = Ok G ->
  is_set subset ->
  (NormalSubgroup.ctor_from_subset G subset = Ok N \/
   exists H, Subgroup.ctor G subset = Ok H /\ NormalSubgroup.ctor H = Ok N) ->
  FactorGroup.ctor G N = Ok F ->
  forall (cA cB : list T) (a a' b b' : T),
    In cA (FactorGroup.get_cosets F) -> In cB (FactorGroup.get_cosets F) ->
    In a cA -> In a' cA -> In b cB -> In b' cB ->
    FactorGroup.find_coset_containing F (op a' b') =
      FactorGroup.find_coset_containing F (op a b) /\
    FactorGroup.find_coset_containing F (op a b) = Ok (left_coset G subset (op a b)) /\
    left_coset G subset (op a' b') = left_coset G subset (op a b) /\
    FactorGroup.operate F cA cB = Ok (left_coset G subset (op a b)).
Proof.
  intros Hset HG Hsub HN HF cA cB a a' b b'.
  pose proof (Group_ctor_valid elements op e inv G Hset HG) as VG.
  assert (HH : exists H, Subgroup.ctor G subset = Ok H /\ NormalSubgroup.ctor H = Ok N).
  { destruct HN as [HN|HN]; [|exact HN].
    apply NormalSubgroup_ctor_from_subset_valid; assumption. }
  destruct HH as [H [HH HNc]].
  destruct (Subgroup_ctor_valid G subset H VG Hsub HH) as [VH HeqH].
  destruct (NormalSubgroup_ctor_valid H N VH HNc) as [HeqN NH].
  assert (HGH : Subgroup.parent_group H = G) by (subst H; reflexivity).
  assert (HsH : Subgroup.get_subset H = subset) by (subst H; reflexivity).
  assert (Hop : operation_ G = op).
  { apply Group_ctor_Ok in HG. destruct HG as [_ [_ [_ [_ ->]]]]. reflexivity. }
  destruct (find_all_cosets_partition H VH) as [cosets [Hfind CP]].
  unfold FactorGroup.ctor, FactorGroup.build_coset_set in HF.
  rewrite HeqN in HF. simpl NormalSubgroup.base in HF.
  rewrite <- HGH in HF at 1. rewrite Hfind in HF. simpl in HF.
  injection HF as HF. symmetry in HF. rewrite <- HGH in HF at 1.
  fold (coset_map cosets []) in HF.
  unfold FactorGroup.get_cosets.
  replace (FactorGroup.cosets_ F) with cosets by (rewrite HF; reflexivity).
  intros HcA HcB Ha Ha' Hb Hb'.
  pose proof (partition_in_carrier H VH cosets CP cA a HcA Ha) as Hac.
  pose proof (partition_in_carrier H VH cosets CP cA a' HcA Ha') as Hac'.
  pose proof (partition_in_carrier H VH cosets CP cB b HcB Hb) as Hbc.
  pose proof (partition_in_carrier H VH cosets CP cB b' HcB Hb') as Hbc'.
  pose proof (coset_products_agree H VH NH cosets CP cA cB a a' b b'
                HcA HcB Ha Ha' Hb Hb') as Hagree.
  pose proof (find_coset_containing_valid H VH cosets CP F HF) as Hfc.
  pose proof (FactorGroup_operate_valid H VH NH cosets CP F HF cA cB a b HcA HcB Ha Hb)
    as Hoperate.
  rewrite HGH, HsH in *. rewrite Hop in *.
  assert (Hab : In (op a b) (elements_ G)) by (rewrite <- Hop; apply (op_in G VG); assumption).
  assert (Hab' : In (op a' b') (elements_ G))
    by (rewrite <- Hop; apply (op_in G VG); assumption).
  rewrite (Hfc _ Hab), (Hfc _ Hab'), Hagree. auto.
Qed.

Lemma FactorGroup_operate_representative_independent_witness :
  FactorGroup.find_coset_containing FactorExample.F6 (Scenario.add6 0 1) =
    FactorGroup.find_coset_containing FactorExample.F6 (Scenario.add6 3 4) /\
  FactorGroup.find_coset_containing FactorExample.F6 (Scenario.add6 3 4) =
    Ok (left_coset Examples.G6 (make_set [0; 3]%Z) (Scenario.add6 3 4)) /\
  left_coset Examples.G6 (make_set [0; 3]%Z) (Scenario.add6 0 1) =
    left_coset Examples.G6 (make_set [0; 3]%Z) (Scenario.add6 3 4) /\
  FactorGroup.operate FactorExample.F6 [0; 3]%Z [1; 4]%Z =
    Ok (left_coset Examples.G6 (make_set [0; 3]%Z) (Scenario.add6 3 4)).
Proof.
  apply (FactorGroup_operate_representative_independent
           Scenario.Z6 Scenario.add6 0%Z Scenario.neg6 Examples.G6
           (make_set [0; 3]%Z) FactorExample.N6 FactorExample.F6).
  - apply is_set_make_set.
  - by_evaluation.
  - apply is_set_make_set.
  - left. by_evaluation.
  - by_evaluation.
  - by_evaluation.
  - by_evaluation.
  - by_evaluation.
  - by_evaluation.
  - by_evaluation.
  - by_evaluation.
Defined.

(** ** Euler's function *)

(** C8: [EulerFunction::compute] returns 1, 2, 6 and 4 for 1, 6, 7 and 12,
    and for each of these [n] the sum of [compute(d)] over the positive
    divisors [d] of [n] is [n], which [verify_sum_over_divisors] confirms. *)
Theorem EulerFunction_scenario :
  EulerFunction.compute 1 = Some 1%Z /\
  EulerFunction.compute 6 = Some 2%Z /\
  EulerFunction.compute 7 = Some 6%Z /\
  EulerFunction.compute 12 = Some 4%Z /\
  Forall (fun n => totient_sum n = Some n /\
                   EulerFunction.verify_sum_over_divisors n = Some true)
    [1; 6; 7; 12]%Z.
Proof.
  split; [vm_compute; reflexivity|].
  split; [vm_compute; reflexivity|].
  split; [vm_compute; reflexivity|].
  split; [vm_compute; reflexivity|].
  repeat (apply Forall_cons; [split; vm_compute; reflexivity|]).
  apply Forall_nil.
Qed.

(** * More of the code *)

(** ** Loops that return at the first hit *)

Lemma for_all_true {A : Type} (body : A -> outcome bool) (l : list A) :
  for_all body l = Ok true <-> (forall x, In x l -> body x = Ok true).
Proof.
  induction l as [|x l IH]; simpl.
  - split; [intros _ y [] | reflexivity].
  - split.
    + intros H y [<-|Hy].
      * destruct (body x) as [[|]|]; simpl in H; congruence.
      * destruct (body x) as [[|]|]; simpl in H; try discriminate. apply IH; assumption.
    + intros H. rewrite (H x (or_introl eq_refl)). simpl.
      apply IH. intros y Hy. apply H. right. exact Hy.
Qed.

Lemma find_first_find {A : Type} (body : A -> outcome bool) (f : A -> bool) (l : list A) :
  (forall x, In x l -> body x = Ok (f x)) -> find_first body l = Ok (find f l).
Proof.
  induction l as [|x l IH]; simpl; intros H; [reflexivity|].
  rewrite (H x (or_introl eq_refl)). simpl.
  destruct (f x); [reflexivity|]. apply IH. intros y Hy. apply H. right. exact Hy.
Qed.

(** ** The laws of a group through its interface *)

Section GroupInterface.
Context {T : Type} {E : Element T} {L : ElementLaws T}.
Variable G : Group (T := T).
Hypothesis VG : valid_group G.

Local Abbreviation carrier := (elements_ G).
Local Abbreviation op := (operation_ G).
Local Abbreviation e := (identity G).
Local Abbreviation inv := (inverse_func_ G).

Lemma inverse_outside (a : T) :
  ~ In a carrier -> inverse G a = Throw (domain_error "Element not in group").
Proof.
  intros Ha. unfold inverse. apply contains_false in Ha. rewrite Ha. reflexivity.
Qed.

Lemma divide_valid (a b : T) :
  In a carrier -> In b carrier -> divide G a b = Ok (op a (inv b)).
Proof.
  intros Ha Hb. unfold divide. rewrite (inverse_valid G VG) by exact Hb. simpl.
  apply (operate_valid G VG); [exact Ha | apply (inv_in G VG), Hb].
Qed.

Lemma left_divide_valid (a b : T) :
  In a carrier -> In b carrier -> left_divide G a b = Ok (op (inv b) a).
Proof.
  intros Ha Hb. unfold left_divide. rewrite (inverse_valid G VG) by exact Hb. simpl.
  apply (operate_valid G VG); [apply (inv_in G VG), Hb | exact Ha].
Qed.

Lemma gpow_inv (a : T) (n : nat) :
  In a carrier -> gpow G (inv a) n = inv (gpow G a n).
Proof.
  intros Ha. pose proof (inv_in G VG a Ha) as Hia.
  induction n as [|n IH].
  - simpl. apply (cancel_l G VG e); try apply (e_in G VG).
    + apply (inv_in G VG), (e_in G VG).
    + rewrite (op_inv_r G VG), (op_e_l G VG) by apply (e_in G VG). reflexivity.
  - change (gpow G (inv a) (S n)) with (op (gpow G (inv a) n) (inv a)).
    rewrite <- (gpow_succ_l G VG a n Ha).
    rewrite (inv_op G VG) by (try apply (gpow_in G VG); assumption).
    rewrite IH. reflexivity.
Qed.

Lemma gpow_e (n : nat) : gpow G e n = e.
Proof.
  induction n as [|n IH]; [reflexivity|].
  simpl. rewrite IH. apply (op_e_l G VG), (e_in G VG).
Qed.

Lemma zpow_in (a : T) (z : Z) : In a carrier -> In (zpow G a z) carrier.
Proof.
  intros Ha. destruct z; simpl.
  - apply (e_in G VG).
  - apply (gpow_in G VG), Ha.
  - apply (gpow_in G VG), (inv_in G VG), Ha.
Qed.

Lemma power_zpow (a : T) (z : Z) :
  In a carrier -> (LLONG_MIN < z)%Z -> power G a z = Ok (zpow G a z).
Proof.
  intros Ha Hmin. destruct z as [|p|p].
  - reflexivity.
  - pose proof (power_gpow G VG a (Pos.to_nat p) Ha) as H.
    rewrite positive_nat_Z in H. exact H.
  - pose proof (power_gpow_negative G VG a (Pos.to_nat p) Ha (Pos2Nat.is_pos p)) as H.
    rewrite positive_nat_Z in H. apply H. exact Hmin.
Qed.

Lemma zpow_opp (a : T) (z : Z) : In a carrier -> zpow G a (- z) = inv (zpow G a z).
Proof.
  intros Ha. destruct z as [|p|p]; simpl.
  - symmetry. apply (cancel_l G VG e); try apply (e_in G VG).
    + apply (inv_in G VG), (e_in G VG).
    + rewrite (op_inv_r G VG), (op_e_l G VG) by apply (e_in G VG). reflexivity.
  - apply gpow_inv, Ha.
  - rewrite gpow_inv by exact Ha.
    rewrite (inv_inv G VG) by (apply (gpow_in G VG), Ha). reflexivity.
Qed.

Lemma zpow_succ (a : T) (z : Z) :
  In a carrier -> zpow G a (z + 1) = op (zpow G a z) a.
Proof.
  intros Ha. pose proof (inv_in G VG a Ha) as Hia.
  destruct z as [|p|p].
  - simpl. reflexivity.
  - change (Zpos p + 1)%Z with (Zpos (p + 1)). simpl.
    rewrite Pos2Nat.inj_add, Nat.add_1_r. reflexivity.
  - destruct (Pos.eq_dec p 1) as [->|Hp].
    + simpl. rewrite (op_e_l G VG), (op_inv_l G VG) by assumption. reflexivity.
    + assert (Hz : (Zneg p + 1)%Z = Zneg (Pos.pred p)) by lia.
      rewrite Hz. simpl.
      assert (Hn : Pos.to_nat p = S (Pos.to_nat (Pos.pred p))) by lia.
      rewrite Hn. simpl.
      rewrite (op_assoc G VG) by (try apply (gpow_in G VG); assumption).
      rewrite (op_inv_l G VG), (op_e_r G VG) by (try apply (gpow_in G VG); assumption).
      reflexivity.
Qed.

Lemma zpow_pred (a : T) (z : Z) :
  In a carrier -> zpow G a (z - 1) = op (zpow G a z) (inv a).
Proof.
  intros Ha. pose proof (inv_in G VG a Ha) as Hia.
  pose proof (zpow_succ a (z - 1) Ha) as H.
  replace (z - 1 + 1)%Z with z in H by lia. rewrite H.
  rewrite (op_assoc G VG) by (try apply zpow_in; assumption).
  rewrite (op_inv_r G VG), (op_e_r G VG) by (try apply zpow_in; assumption).
  reflexivity.
Qed.

Lemma zpow_add (a : T) (m n : Z) :
  In a carrier -> zpow G a (m + n) = op (zpow G a m) (zpow G a n).
Proof.
  intros Ha. pose proof (inv_in G VG a Ha) as Hia.
  revert n. apply Z.bi_induction.
  - intros x y ->. tauto.
  - rewrite Z.add_0_r. simpl. rewrite (op_e_r G VG) by (apply zpow_in, Ha). reflexivity.
  - intros n. split.
    + intros IH. rewrite Z.add_succ_r. unfold Z.succ.
      rewrite !zpow_succ by exact Ha. rewrite IH.
      apply (op_assoc G VG); try apply zpow_in; assumption.
    + intros IH.
      replace (m + n)%Z with (m + Z.succ n - 1)%Z by lia.
      replace n with (Z.succ n - 1)%Z at 2 by lia.
      rewrite !zpow_pred by exact Ha. rewrite IH.
      apply (op_assoc G VG); try apply zpow_in; assumption.
Qed.

End GroupInterface.

(** X1: on a valid group [inverse(a)] of a carrier element is an element of
    the carrier that multiplies with [a] to the identity on both sides, and
    the inverse of the inverse is [a] again; outside the carrier [inverse]
    throws [std::domain_error]. *)
Theorem Group_inverse_two_sided {T : Type} {E : Element T} {L : ElementLaws T}
    (elements : list T) (op : T -> T -> T) (e : T) (inv : T -> T) (G : Group) (a : T) :
  is_set elements -> Group_ctor elements op e inv = Ok G ->
  (In a (get_set G) ->
   exists a', inverse G a = Ok a' /\ In a' (get_set G) /\
     operate G a a' = Ok (identity G) /\ operate G a' a = Ok (identity G) /\
     inverse G a' = Ok a) /\
  (~ In a (get_set G) -> inverse G a = Throw (domain_error "Element not in group")).
Proof.
  intros Hset HG. pose proof (Group_ctor_valid elements op e inv G Hset HG) as VG.
  split.
  - intros Ha. pose proof (inv_in G VG a Ha) as Hia.
    exists (inverse_func_ G a).
    split; [apply (inverse_valid G VG), Ha|]. split; [exact Hia|].
    rewrite !(operate_valid G VG) by assumption.
    rewrite (op_inv_r G VG), (op_inv_l G VG) by exact Ha.
    rewrite (inverse_valid G VG) by exact Hia.
    rewrite (inv_inv G VG) by exact Ha. auto.
  - apply inverse_outside.
Qed.

Lemma Group_inverse_two_sided_witness :
  exists a', inverse Examples.G6 2%Z = Ok a' /\ In a' (get_set Examples.G6) /\
    operate Examples.G6 2%Z a' = Ok (identity Examples.G6) /\
    operate Examples.G6 a' 2%Z = Ok (identity Examples.G6) /\
    inverse Examples.G6 a' = Ok 2%Z.
Proof.
  apply (Group_inverse_two_sided Scenario.Z6 Scenario.add6 0%Z Scenario.neg6
           Examples.G6 2%Z).
  - apply is_set_make_set.
  - by_evaluation.
  - by_evaluation.
Defined.

(** X2: on a valid group [divide] and [left_divide] undo [operate]:
    [divide(a ∘ b, b) = a], [left_divide(b ∘ a, b) = a] and
    [divide(a, b) ∘ b = a] for all [a], [b] of the carrier. *)
Theorem divide_undoes_operate {T : Type} {E : Element T} {L : ElementLaws T}
    (elements : list T) (op : T -> T -> T) (e : T) (inv : T -> T) (G : Group) (a b : T) :
  is_set elements -> Group_ctor elements op e inv = Ok G ->
  In a (get_set G) -> In b (get_set G) ->
  (ab <- operate G a b ;; divide G ab b) = Ok a /\
  (ba <- operate G b a ;; left_divide G ba b) = Ok a /\
  (q <- divide G a b ;; operate G q b) = Ok a.
Proof.
  intros Hset HG Ha Hb. pose proof (Group_ctor_valid elements op e inv G Hset HG) as VG.
  pose proof (inv_in G VG b Hb) as Hib. unfold get_set in *.
  assert (Hab : In (operation_ G a b) (elements_ G)) by (apply (op_in G VG); assumption).
  assert (Hba : In (operation_ G b a) (elements_ G)) by (apply (op_in G VG); assumption).
  rewrite !(operate_valid G VG) by assumption. simpl bind.
  rewrite (divide_valid G VG), (left_divide_valid G VG), (divide_valid G VG) by assumption.
  simpl bind.
  rewrite (operate_valid G VG) by (try apply (op_in G VG); assumption).
  split; [|split]; f_equal.
  - rewrite (op_assoc G VG), (op_inv_r G VG), (op_e_r G VG) by assumption. reflexivity.
  - rewrite <- (op_assoc G VG), (op_inv_l G VG), (op_e_l G VG) by assumption. reflexivity.
  - rewrite (op_assoc G VG), (op_inv_l G VG), (op_e_r G VG) by assumption. reflexivity.
Qed.

Lemma divide_undoes_operate_witness :
  (ab <- operate Examples.GS3 1%Z 2%Z ;; divide Examples.GS3 ab 2%Z) = Ok 1%Z /\
  (ba <- operate Examples.GS3 2%Z 1%Z ;; left_divide Examples.GS3 ba 2%Z) = Ok 1%Z /\
  (q <- divide Examples.GS3 1%Z 2%Z ;; operate Examples.GS3 q 2%Z) = Ok 1%Z.
Proof.
  apply (divide_undoes_operate Scenario.S3 Scenario.mulS3 0%Z Scenario.invS3
           Examples.GS3 1%Z 2%Z).
  - apply is_set_make_set.
  - by_evaluation.
  - by_evaluation.
  - by_evaluation.
Defined.

(** X3: on a valid group [Group::power] turns sums of exponents into
    products and the opposite exponent into the inverse: for [a] of the
    carrier and [long long] exponents [m], [n] other than [LLONG_MIN]
    whose sum is again a [long long] other than [LLONG_MIN],
    [power(a, m) ∘ power(a, n)] is [power(a, m + n)], and [power(a, -n)]
    is the inverse of [power(a, n)].  At [LLONG_MIN] the negation inside
    [power] overflows and the call has no defined behaviour. *)
Theorem power_adds_exponents {T : Type} {E : Element T} {L : ElementLaws T}
    (elements : list T) (op : T -> T -> T) (e : T) (inv : T -> T) (G : Group)
    (a : T) (m n : Z) :
  is_set elements -> Group_ctor elements op e inv = Ok G ->
  In a (get_set G) ->
  (LLONG_MIN < m <= LLONG_MAX)%Z -> (LLONG_MIN < n <= LLONG_MAX)%Z ->
  (LLONG_MIN < m + n <= LLONG_MAX)%Z ->
  (p <- power G a m ;; q <- power G a n ;; operate G p q) = power G a (m + n) /\
  power G a (- n) = (p <- power G a n ;; inverse G p) /\
  exists what, power G a LLONG_MIN = Throw (undefined_behaviour what).
Proof.
  intros Hset HG Ha Hm Hn Hmn.
  pose proof (Group_ctor_valid elements op e inv G Hset HG) as VG.
  unfold get_set in Ha.
  assert (Hopp : (LLONG_MIN < - n)%Z) by (unfold LLONG_MIN, LLONG_MAX in *; lia).
  rewrite !(power_zpow G VG) by (try exact Ha; tauto). simpl bind.
  rewrite (operate_valid G VG) by (apply (zpow_in G VG); exact Ha).
  rewrite (inverse_valid G VG) by (apply (zpow_in G VG); exact Ha).
  rewrite (zpow_add G VG), (zpow_opp G VG) by exact Ha.
  split; [reflexivity|]. split; [reflexivity|].
  exists "signed overflow in -n"%string. reflexivity.
Qed.

Lemma power_adds_exponents_witness :
  (p <- power Examples.GS3 4%Z 5 ;; q <- power Examples.GS3 4%Z (-7) ;;
   operate Examples.GS3 p q) = power Examples.GS3 4%Z (5 + -7) /\
  power Examples.GS3 4%Z (- -7) =
    (p <- power Examples.GS3 4%Z (-7) ;; inverse Examples.GS3 p) /\
  exists what, power Examples.GS3 4%Z LLONG_MIN = Throw (undefined_behaviour what).
Proof.
  apply (power_adds_exponents Scenario.S3 Scenario.mulS3 0%Z Scenario.invS3
           Examples.GS3 4%Z 5 (-7)).
  - apply is_set_make_set.
  - by_evaluation.
  - by_evaluation.
  - vm_compute. intuition discriminate.
  - vm_compute. intuition discriminate.
  - vm_compute. intuition discriminate.
Defined.

(** ** Cancellation, commutativity and the subgroup criterion *)

Section CriterionFacts.
Context {T : Type} {E : Element T} {L : ElementLaws T}.
Variable G : Group (T := T).
Hypothesis VG : valid_group G.

Local Abbreviation carrier := (elements_ G).
Local Abbreviation op := (operation_ G).
Local Abbreviation e := (identity G).
Local Abbreviation inv := (inverse_func_ G).

Lemma has_left_cancellation_valid : has_left_cancellation G = Ok true.
Proof.
  unfold has_left_cancellation.
  apply for_all_true. intros a Ha. apply for_all_true. intros b Hb.
  apply for_all_true. intros c Hc.
  rewrite !(operate_valid G VG) by assumption. simpl. f_equal.
  destruct (eq_op (op a b) (op a c)) eqn:Heq; [|reflexivity].
  apply eq_op_spec in Heq. apply (cancel_l G VG) in Heq; try assumption.
  subst c. rewrite eq_op_refl. reflexivity.
Qed.

Lemma has_right_cancellation_valid : has_right_cancellation G = Ok true.
Proof.
  unfold has_right_cancellation.
  apply for_all_true. intros a Ha. apply for_all_true. intros b Hb.
  apply for_all_true. intros c Hc.
  rewrite !(operate_valid G VG) by assumption. simpl. f_equal.
  destruct (eq_op (op b a) (op c a)) eqn:Heq; [|reflexivity].
  apply eq_op_spec in Heq. apply (cancel_r G VG) in Heq; try assumption.
  subst c. rewrite eq_op_refl. reflexivity.
Qed.

Lemma is_idempotent_trivial : is_idempotent G = Ok true <-> carrier = [e].
Proof.
  unfold is_idempotent. rewrite for_all_true. split.
  - intros Hall.
    assert (Hone : forall a, In a carrier -> a = e).
    { intros a Ha. specialize (Hall a Ha).
      rewrite (operate_valid G VG) in Hall by assumption. simpl in Hall.
      injection Hall as Hall. apply eq_op_spec in Hall.
      apply (cancel_l G VG a); try assumption; [apply (e_in G VG)|].
      rewrite (op_e_r G VG) by exact Ha. exact Hall. }
    pose proof (is_set_NoDup _ (vg_set G VG)) as Hnd.
    pose proof (e_in G VG) as He.
    destruct carrier as [|x [|y l]].
    + destruct He.
    + rewrite (Hone x (or_introl eq_refl)). reflexivity.
    + exfalso. inversion Hnd as [|? ? Hnotin _]; subst. apply Hnotin. left.
      rewrite (Hone x), (Hone y); simpl; auto.
  - intros Hc a Ha. rewrite (operate_valid G VG) by assumption. simpl. f_equal.
    rewrite Hc in Ha. destruct Ha as [<-|[]].
    rewrite (op_e_l G VG) by apply (e_in G VG). apply eq_op_refl.
Qed.

Lemma is_commutative_true :
  is_commutative G = Ok true <->
  (forall a b, In a carrier -> In b carrier -> op a b = op b a).
Proof.
  unfold is_commutative. rewrite for_all_true. split.
  - intros Hall a b Ha Hb. specialize (Hall a Ha). rewrite for_all_true in Hall.
    specialize (Hall b Hb). rewrite !(operate_valid G VG) in Hall by assumption.
    simpl in Hall. injection Hall as Hall. apply eq_op_spec. exact Hall.
  - intros Hc a Ha. apply for_all_true. intros b Hb.
    rewrite !(operate_valid G VG) by assumption. simpl. f_equal.
    apply eq_op_spec, Hc; assumption.
Qed.

Lemma is_commutative_Ok : exists b, is_commutative G = Ok b.
Proof.
  unfold is_commutative. eexists.
  apply (for_all_forallb _ (fun a => forallb (fun b => eq_op (op a b) (op b a)) carrier)).
  intros a Ha. apply for_all_forallb. intros b Hb.
  rewrite !(operate_valid G VG) by assumption. reflexivity.
Qed.

(** The two criteria as plain booleans. *)
Lemma verify_subgroup_criterion_true (subset : list T) :
  Subgroup.verify_subgroup_criterion
    {| Subgroup.parent_group_ := G; Subgroup.subset_ := subset |} = Ok true <->
  subset <> [] /\ (forall a, In a subset -> In a carrier) /\
  (forall a b, In a subset -> In b subset -> In (op a (inv b)) subset).
Proof.
  split; [apply (verify_subgroup_criterion_valid G subset VG)|].
  intros [Hne [Hincl Hcrit]]. unfold Subgroup.verify_subgroup_criterion. simpl.
  destruct subset as [|x subset'] eqn:Hs; [contradiction|].
  simpl empty. cbv iota. rewrite <- Hs in *. clear Hs x subset'.
  rewrite (proj2 (for_all_true _ subset)); simpl.
  - apply for_all_true. intros a Ha. apply for_all_true. intros b Hb.
    rewrite (inverse_valid G VG) by auto. simpl.
    rewrite (operate_valid G VG) by (try apply (inv_in G VG); auto). simpl.
    f_equal. apply contains_In, Hcrit; assumption.
  - intros a Ha. f_equal. apply contains_In, Hincl, Ha.
Qed.

Lemma verify_subgroup_criterion_Ok (subset : list T) :
  exists b, Subgroup.verify_subgroup_criterion
              {| Subgroup.parent_group_ := G; Subgroup.subset_ := subset |} = Ok b.
Proof.
  unfold Subgroup.verify_subgroup_criterion. simpl.
  destruct subset as [|x subset'] eqn:Hs; [eexists; reflexivity|].
  simpl empty. cbv iota. rewrite <- Hs. clear Hs x subset'.
  rewrite (for_all_forallb _ (fun a => contains (get_set G) a)) by reflexivity.
  simpl bind.
  destruct (forallb (fun a => contains (get_set G) a) subset) eqn:Hin; simpl;
    [|eexists; reflexivity].
  eexists.
  apply (for_all_forallb _
    (fun a => forallb (fun b => contains subset (op a (inv b))) subset)).
  intros a Ha. apply for_all_forallb. intros b Hb.
  assert (Hincl : forall a, In a subset -> In a carrier).
  { intros c Hc. apply contains_In. apply (forallb_In _ _ c Hin Hc). }
  rewrite (inverse_valid G VG) by auto. simpl.
  rewrite (operate_valid G VG) by (try apply (inv_in G VG); auto). reflexivity.
Qed.

Lemma verify_finite_subgroup_criterion_true (subset : list T) :
  Subgroup.verify_finite_subgroup_criterion
    {| Subgroup.parent_group_ := G; Subgroup.subset_ := subset |} = Ok true <->
  subset <> [] /\ (forall a, In a subset -> In a carrier) /\
  (forall a b, In a subset -> In b subset -> In (op a b) subset).
Proof.
  unfold Subgroup.verify_finite_subgroup_criterion. simpl.
  destruct subset as [|x subset'] eqn:Hs.
  { simpl. split; [discriminate | intros [Hne _]; contradiction]. }
  simpl empty. cbv iota. rewrite <- Hs.
  assert (Hne : subset <> []) by congruence. clear Hs x subset'.
  rewrite (for_all_forallb _ (fun a => contains (get_set G) a)) by reflexivity.
  simpl bind.
  destruct (forallb (fun a => contains (get_set G) a) subset) eqn:Hin; simpl.
  - assert (Hincl : forall a, In a subset -> In a carrier).
    { intros c Hc. apply contains_In. apply (forallb_In _ _ c Hin Hc). }
    rewrite for_all_true. split.
    + intros Hall. split; [exact Hne|]. split; [exact Hincl|].
      intros a b Ha Hb. specialize (Hall a Ha). rewrite for_all_true in Hall.
      specialize (Hall b Hb). rewrite (operate_valid G VG) in Hall by auto.
      simpl in Hall. injection Hall as Hall. apply contains_In. exact Hall.
    + intros [_ [_ Hcl]] a Ha. apply for_all_true. intros b Hb.
      rewrite (operate_valid G VG) by auto. simpl. f_equal.
      apply contains_In, Hcl; assumption.
  - split; [discriminate|]. intros [_ [Hincl _]]. exfalso.
    assert (Htrue : forallb (fun a => contains (get_set G) a) subset = true).
    { apply forallb_forall. intros a Ha. apply contains_In, Hincl, Ha. }
    congruence.
Qed.

Lemma verify_finite_subgroup_criterion_Ok (subset : list T) :
  exists b, Subgroup.verify_finite_subgroup_criterion
              {| Subgroup.parent_group_ := G; Subgroup.subset_ := subset |} = Ok b.
Proof.
  unfold Subgroup.verify_finite_subgroup_criterion. simpl.
  destruct subset as [|x subset'] eqn:Hs; [eexists; reflexivity|].
  simpl empty. cbv iota. rewrite <- Hs. clear Hs x subset'.
  rewrite (for_all_forallb _ (fun a => contains (get_set G) a)) by reflexivity.
  simpl bind.
  destruct (forallb (fun a => contains (get_set G) a) subset) eqn:Hin; simpl;
    [|eexists; reflexivity].
  eexists.
  apply (for_all_forallb _ (fun a => forallb (fun b => contains subset (op a b)) subset)).
  intros a Ha. apply for_all_forallb. intros b Hb.
  assert (Hincl : forall a, In a subset -> In a carrier).
  { intros c Hc. apply contains_In. apply (forallb_In _ _ c Hin Hc). }
  rewrite (operate_valid G VG) by auto. reflexivity.
Qed.

Lemma Subgroup_ctor_succeeds (subset : list T) :
  is_set subset -> subset <> [] -> (forall a, In a subset -> In a carrier) ->
  (forall a b, In a subset -> In b subset -> In (op a (inv b)) subset) ->
  Subgroup.ctor G subset = Ok {| Subgroup.parent_group_ := G; Subgroup.subset_ := subset |} /\
  valid_subgroup {| Subgroup.parent_group_ := G; Subgroup.subset_ := subset |}.
Proof.
  intros Hset Hne Hincl Hcrit.
  assert (Hc : Subgroup.ctor G subset =
               Ok {| Subgroup.parent_group_ := G; Subgroup.subset_ := subset |}).
  { unfold Subgroup.ctor.
    rewrite (proj2 (verify_subgroup_criterion_true subset)) by auto. reflexivity. }
  split; [exact Hc|].
  apply (Subgroup_ctor_valid G subset _ VG Hset Hc).
Qed.

Lemma inv_e : inv e = e.
Proof.
  apply (cancel_l G VG e); try apply (e_in G VG).
  - apply (inv_in G VG), (e_in G VG).
  - rewrite (op_inv_r G VG), (op_e_l G VG) by apply (e_in G VG). reflexivity.
Qed.

End CriterionFacts.

(** X4: on a valid group the cancellation checks of [Groupoid] answer true,
    and [is_idempotent] answers true exactly when the identity is the only
    element. *)
Theorem group_has_cancellation {T : Type} {E : Element T} {L : ElementLaws T}
    (elements : list T) (op : T -> T -> T) (e : T) (inv : T -> T) (G : Group) :
  is_set elements -> Group_ctor elements op e inv = Ok G ->
  has_left_cancellation G = Ok true /\
  has_right_cancellation G = Ok true /\
  has_cancellation G = Ok true /\
  (is_idempotent G = Ok true <-> get_set G = [identity G]).
Proof.
  intros Hset HG. pose proof (Group_ctor_valid elements op e inv G Hset HG) as VG.
  pose proof (has_left_cancellation_valid G VG) as Hl.
  pose proof (has_right_cancellation_valid G VG) as Hr.
  split; [exact Hl|]. split; [exact Hr|]. split.
  - unfold has_cancellation. rewrite Hl. simpl. exact Hr.
  - apply (is_idempotent_trivial G VG).
Qed.

Lemma group_has_cancellation_witness :
  has_left_cancellation Examples.GS3 = Ok true /\
  has_right_cancellation Examples.GS3 = Ok true /\
  has_cancellation Examples.GS3 = Ok true /\
  (is_idempotent Examples.GS3 = Ok true <-> get_set Examples.GS3 = [identity Examples.GS3]).
Proof.
  apply (group_has_cancellation Scenario.S3 Scenario.mulS3 0%Z Scenario.invS3 Examples.GS3).
  - apply is_set_make_set.
  - by_evaluation.
Defined.

(** ** Every element of a valid group has an order *)

Section FiniteOrder.
Context {T : Type} {E : Element T} {L : ElementLaws T}.
Variable G : Group (T := T).
Hypothesis VG : valid_group G.

Local Abbreviation carrier := (elements_ G).
Local Abbreviation op := (operation_ G).
Local Abbreviation e := (identity G).
Local Abbreviation inv := (inverse_func_ G).

Lemma compute_Some (a : T) :
  In a carrier ->
  exists n, ElementOrder.compute G a = Ok (Some n) /\ is_order G a n /\
            n <= length carrier.
Proof.
  intros Ha. destruct (compute_spec G VG a Ha) as [r [Hr [Hspec _]]].
  destruct r as [n|].
  - exists n. split; [exact Hr|]. unfold is_order, size, get_set in *.
    destruct Hspec as [Hn [Hpow Hmin]]. repeat split; auto; lia.
  - exfalso. unfold size, get_set in Hspec.
    assert (Hinj : NoDup (map (gpow G a) (seq 0 (S (length carrier))))).
    { apply Finite.Injective_map_NoDup_in; [|apply seq_NoDup].
      intros i j Hi Hj. rewrite in_seq in Hi, Hj.
      apply (gpow_injective_below_order G VG a (S (length carrier))); try assumption; try lia.
      intros m Hm. apply Hspec. lia. }
    apply NoDup_incl_length with (l' := carrier) in Hinj.
    + rewrite length_map, length_seq in Hinj. lia.
    + intros x Hx. apply in_map_iff in Hx. destruct Hx as [i [<- _]].
      apply (gpow_in G VG), Ha.
Qed.

Lemma is_order_unique (a : T) (n m : nat) : is_order G a n -> is_order G a m -> n = m.
Proof.
  intros [Hn [Hpn Hminn]] [Hm [Hpm Hminm]].
  destruct (Nat.lt_trichotomy n m) as [Hlt|[Heq|Hlt]]; [|exact Heq|].
  - exfalso. apply (Hminm n); [lia | exact Hpn].
  - exfalso. apply (Hminn m); [lia | exact Hpm].
Qed.

Lemma gpow_mul (a : T) (n q : nat) :
  In a carrier -> gpow G a n = e -> gpow G a (n * q) = e.
Proof.
  intros Ha Hn. induction q as [|q IH].
  - rewrite Nat.mul_0_r. reflexivity.
  - rewrite Nat.mul_succ_r, (gpow_add G VG) by exact Ha.
    rewrite IH, Hn. apply (op_e_l G VG), (e_in G VG).
Qed.

Lemma gpow_mod (a : T) (n k : nat) :
  In a carrier -> 1 <= n -> gpow G a n = e -> gpow G a k = gpow G a (k mod n).
Proof.
  intros Ha Hn Hpow.
  rewrite (Nat.div_mod_eq k n) at 1.
  rewrite (gpow_add G VG) by exact Ha.
  rewrite gpow_mul by assumption.
  apply (op_e_l G VG), (gpow_in G VG), Ha.
Qed.

(** [a^k = e] exactly when the order divides [k]. *)
Lemma gpow_e_iff_divides (a : T) (n k : nat) :
  In a carrier -> is_order G a n -> (gpow G a k = e <-> k mod n = 0).
Proof.
  intros Ha [Hn [Hpow Hmin]].
  rewrite (gpow_mod a n k) by assumption.
  pose proof (Nat.mod_upper_bound k n ltac:(lia)) as Hlt.
  split.
  - intros He. destruct (Nat.eq_dec (k mod n) 0) as [H0|H0]; [exact H0|].
    exfalso. apply (Hmin (k mod n)); [lia | exact He].
  - intros ->. reflexivity.
Qed.

Lemma is_order_inv (a : T) (n : nat) :
  In a carrier -> is_order G a n -> is_order G (inv a) n.
Proof.
  intros Ha [Hn [Hpow Hmin]]. split; [exact Hn|]. split.
  - rewrite (gpow_inv G VG) by exact Ha. rewrite Hpow. apply (inv_e G VG).
  - intros m Hm Heq. apply (Hmin m Hm).
    rewrite (gpow_inv G VG) in Heq by exact Ha.
    rewrite <- (inv_inv G VG (gpow G a m)) by (apply (gpow_in G VG), Ha).
    rewrite Heq. apply (inv_e G VG).
Qed.

(** The inverse is a power: [a⁻¹ = a^(2n - 1)] for the order [n]. *)
Lemma inv_as_power (a : T) (n : nat) :
  In a carrier -> is_order G a n -> inv a = gpow G a (n + n - 1).
Proof.
  intros Ha [Hn [Hpow _]].
  apply (cancel_l G VG a); try assumption.
  - apply (inv_in G VG), Ha.
  - apply (gpow_in G VG), Ha.
  - rewrite (op_inv_r G VG) by exact Ha.
    rewrite (gpow_succ_l G VG) by exact Ha.
    replace (S (n + n - 1)) with (n * 2) by lia.
    symmetry. apply gpow_mul; assumption.
Qed.

(** The set that [generate_cyclic_subgroup] returns for an element of
    order [n]: the powers below [n]. *)
Lemma generate_cyclic_subgroup_powers (g : T) (n : nat) :
  In g carrier -> ElementOrder.compute G g = Ok (Some n) -> is_order G g n ->
  exists S, CyclicGroup.generate_cyclic_subgroup G g = Ok S /\ is_set S /\
    (forall x, In x S <-> exists i, i < n /\ x = gpow G g i) /\
    length S = n.
Proof.
  intros Hg Hcomp [Hn [Hpow Hmin]].
  unfold CyclicGroup.generate_cyclic_subgroup. unfold get_set.
  rewrite (proj2 (contains_In _ _) Hg). simpl. rewrite Hcomp. simpl.
  pose proof (generate_exact_spec G VG g (n - 1) Hg 1 [e]) as Hgen.
  rewrite (gpow_1 G VG) in Hgen by exact Hg. rewrite Hgen.
  eexists. split; [reflexivity|].
  assert (Hset : is_set (fold_left (fun s x => insert x s)
                           (map (gpow G g) (seq 1 (n - 1))) [e])).
  { apply is_set_fold_insert. simpl. split; [intros ? []| exact I]. }
  assert (Hmem : forall x,
    In x (fold_left (fun s x => insert x s) (map (gpow G g) (seq 1 (n - 1))) [e]) <->
    In x (map (gpow G g) (seq 0 n))).
  { intros x. rewrite In_fold_insert.
    replace n with (S (n - 1)) at 2 by lia. simpl. tauto. }
  split; [exact Hset|]. split.
  - intros x. rewrite Hmem, in_map_iff. split.
    + intros [i [<- Hi]]. apply in_seq in Hi. exists i. split; [lia | reflexivity].
    + intros [i [Hi ->]]. exists i. split; [reflexivity | apply in_seq; lia].
  - transitivity (length (map (gpow G g) (seq 0 n)));
      [|rewrite length_map, length_seq; reflexivity].
    apply same_elements_length.
    + apply is_set_NoDup, Hset.
    + apply Finite.Injective_map_NoDup_in; [|apply seq_NoDup].
      intros i j Hi Hj. rewrite in_seq in Hi, Hj.
      apply (gpow_injective_below_order G VG g n); try assumption; lia.
    + exact Hmem.
Qed.

Lemma powers_subgroup (g : T) (n : nat) (S : list T) :
  In g carrier -> is_order G g n -> is_set S ->
  (forall x, In x S <-> exists i, i < n /\ x = gpow G g i) ->
  Subgroup.ctor G S = Ok {| Subgroup.parent_group_ := G; Subgroup.subset_ := S |} /\
  valid_subgroup {| Subgroup.parent_group_ := G; Subgroup.subset_ := S |}.
Proof.
  intros Hg Hord Hset Hmem. pose proof Hord as [Hn [Hpow Hmin]].
  assert (Hany : forall k, In (gpow G g k) S).
  { intros k. apply Hmem. exists (k mod n). split.
    - apply Nat.mod_upper_bound. lia.
    - apply gpow_mod; assumption. }
  apply (Subgroup_ctor_succeeds G VG S Hset).
  - intros HS. specialize (Hany 0). rewrite HS in Hany. destruct Hany.
  - intros a Ha. apply Hmem in Ha. destruct Ha as [i [_ ->]]. apply (gpow_in G VG), Hg.
  - intros a b Ha Hb. apply Hmem in Ha, Hb.
    destruct Ha as [i [_ ->]]. destruct Hb as [j [_ ->]].
    rewrite <- (gpow_inv G VG) by exact Hg.
    rewrite (inv_as_power g n Hg Hord).
    assert (Hpp : forall k m, gpow G (gpow G g k) m = gpow G g (k * m)).
    { intros k m. induction m as [|m IH].
      - rewrite Nat.mul_0_r. reflexivity.
      - simpl. rewrite IH, Nat.mul_succ_r. symmetry. apply (gpow_add G VG), Hg. }
    rewrite Hpp. rewrite <- (gpow_add G VG) by exact Hg. apply Hany.
Qed.

End FiniteOrder.

(** X5: on a valid group [ElementOrder::compute] finds an order for every
    element of the carrier, the order divides the order of the group, and
    accordingly [is_finite] answers true, [is_infinite] false and
    [get_order] returns the order without throwing. *)
Theorem element_order_divides_group_order
    {T : Type} {E : Element T} {L : ElementLaws T}
    (elements : list T) (op : T -> T -> T) (e : T) (inv : T -> T) (G : Group) (a : T) :
  is_set elements -> Group_ctor elements op e inv = Ok G ->
  In a (get_set G) ->
  exists n,
    ElementOrder.compute G a = Ok (Some n) /\ is_order G a n /\
    size (get_set G) mod n = 0 /\
    ElementOrder.is_finite G a = Ok true /\
    ElementOrder.is_infinite G a = Ok false /\
    ElementOrder.get_order G a = Ok n.
Proof.
  intros Hset HG Ha. pose proof (Group_ctor_valid elements op e inv G Hset HG) as VG.
  unfold get_set in *.
  destruct (compute_Some G VG a Ha) as [n [Hcomp [Hord Hle]]].
  exists n. split; [exact Hcomp|]. split; [exact Hord|].
  unfold ElementOrder.is_infinite, ElementOrder.is_finite, ElementOrder.get_order.
  rewrite Hcomp. simpl. split; [|auto].
  destruct (generate_cyclic_subgroup_powers G VG a n Ha Hcomp Hord)
    as [S [_ [HsetS [Hmem Hlen]]]].
  destruct (powers_subgroup G VG a n S Ha Hord HsetS Hmem) as [_ VH].
  destruct (find_all_cosets_partition _ VH) as [cosets [_ CP]].
  pose proof (lagrange_count _ VH cosets CP) as Hcount. simpl in Hcount.
  unfold size. rewrite Hcount, Hlen, Nat.mul_comm. apply Nat.Div0.mod_mul.
Qed.

Lemma element_order_divides_group_order_witness :
  exists n,
    ElementOrder.compute Examples.GS3 4%Z = Ok (Some n) /\ is_order Examples.GS3 4%Z n /\
    size (get_set Examples.GS3) mod n = 0 /\
    ElementOrder.is_finite Examples.GS3 4%Z = Ok true /\
    ElementOrder.is_infinite Examples.GS3 4%Z = Ok false /\
    ElementOrder.get_order Examples.GS3 4%Z = Ok n.
Proof.
  apply (element_order_divides_group_order Scenario.S3 Scenario.mulS3 0%Z Scenario.invS3
           Examples.GS3 4%Z).
  - apply is_set_make_set.
  - by_evaluation.
  - by_evaluation.
Defined.

(** X6: on a valid group [CyclicGroup::cyclic_subgroup] never throws for an
    element of the carrier: the powers that [generate_cyclic_subgroup]
    collects pass the subgroup criterion, their number is the order of the
    element, and the element and the identity are among them. *)
Theorem cyclic_subgroup_is_subgroup {T : Type} {E : Element T} {L : ElementLaws T}
    (elements : list T) (op : T -> T -> T) (e : T) (inv : T -> T) (G : Group) (g : T) :
  is_set elements -> Group_ctor elements op e inv = Ok G ->
  In g (get_set G) ->
  exists H n,
    CyclicGroup.cyclic_subgroup G g = Ok H /\
    CyclicGroup.generate_cyclic_subgroup G g = Ok (Subgroup.get_subset H) /\
    ElementOrder.compute G g = Ok (Some n) /\
    Subgroup.size H = n /\
    Subgroup.contains H g = true /\
    Subgroup.contains H (identity G) = true /\
    (forall x, In x (Subgroup.get_subset H) <-> exists i, i < n /\ x = gpow G g i).
Proof.
  intros Hset HG Hg. pose proof (Group_ctor_valid elements op e inv G Hset HG) as VG.
  unfold get_set in *.
  destruct (compute_Some G VG g Hg) as [n [Hcomp [Hord Hle]]].
  destruct (generate_cyclic_subgroup_powers G VG g n Hg Hcomp Hord)
    as [S [Hgen [HsetS [Hmem Hlen]]]].
  destruct (powers_subgroup G VG g n S Hg Hord HsetS Hmem) as [Hctor _].
  exists {| Subgroup.parent_group_ := G; Subgroup.subset_ := S |}, n.
  unfold CyclicGroup.cyclic_subgroup. rewrite Hgen. simpl.
  split; [exact Hctor|]. split; [reflexivity|]. split; [exact Hcomp|].
  split; [exact Hlen|].
  destruct Hord as [Hn [Hpow _]].
  unfold Subgroup.contains. simpl. split; [|split; [|exact Hmem]].
  - apply contains_In, Hmem. exists (1 mod n). split.
    + apply Nat.mod_upper_bound. lia.
    + rewrite <- (gpow_mod G VG g n 1 Hg Hn Hpow). symmetry. apply (gpow_1 G VG), Hg.
  - apply contains_In, Hmem. exists 0. split; [lia | reflexivity].
Qed.

Lemma cyclic_subgroup_is_subgroup_witness :
  exists H n,
    CyclicGroup.cyclic_subgroup Examples.GS3 4%Z = Ok H /\
    CyclicGroup.generate_cyclic_subgroup Examples.GS3 4%Z = Ok (Subgroup.get_subset H) /\
    ElementOrder.compute Examples.GS3 4%Z = Ok (Some n) /\
    Subgroup.size H = n /\
    Subgroup.contains H 4%Z = true /\
    Subgroup.contains H (identity Examples.GS3) = true /\
    (forall x, In x (Subgroup.get_subset H) <->
               exists i, i < n /\ x = gpow Examples.GS3 4%Z i).
Proof.
  apply (cyclic_subgroup_is_subgroup Scenario.S3 Scenario.mulS3 0%Z Scenario.invS3
           Examples.GS3 4%Z).
  - apply is_set_make_set.
  - by_evaluation.
  - by_evaluation.
Defined.

(** ** The criterion for finite groups *)

Section FiniteCriterion.
Context {T : Type} {E : Element T} {L : ElementLaws T}.
Variable G : Group (T := T).
Hypothesis VG : valid_group G.

Local Abbreviation carrier := (elements_ G).
Local Abbreviation op := (operation_ G).
Local Abbreviation inv := (inverse_func_ G).

Lemma closed_subset_has_inverses (subset : list T) :
  (forall a, In a subset -> In a carrier) ->
  (forall a b, In a subset -> In b subset -> In (op a b) subset) ->
  forall a, In a subset -> In (inv a) subset.
Proof.
  intros Hincl Hcl a Ha.
  destruct (compute_Some G VG a (Hincl a Ha)) as [n [_ [Hord _]]].
  rewrite (inv_as_power G VG a n (Hincl a Ha) Hord).
  assert (Hpos : forall k, In (gpow G a (S k)) subset).
  { intros k. induction k as [|k IH].
    - rewrite (gpow_1 G VG) by auto. exact Ha.
    - change (gpow G a (S (S k))) with (op (gpow G a (S k)) a). apply Hcl; assumption. }
  destruct Hord as [Hn _].
  replace (n + n - 1) with (S (n + n - 2)) by lia. apply Hpos.
Qed.

Lemma criteria_agree (subset : list T) :
  Subgroup.verify_finite_subgroup_criterion
    {| Subgroup.parent_group_ := G; Subgroup.subset_ := subset |} =
  Subgroup.verify_subgroup_criterion
    {| Subgroup.parent_group_ := G; Subgroup.subset_ := subset |}.
Proof.
  destruct (verify_finite_subgroup_criterion_Ok G VG subset) as [b1 H1].
  destruct (verify_subgroup_criterion_Ok G VG subset) as [b2 H2].
  rewrite H1, H2. f_equal.
  assert (Hiff : b1 = true <-> b2 = true).
  { split; intros ->.
    - apply (verify_finite_subgroup_criterion_true G VG) in H1.
      destruct H1 as [Hne [Hincl Hcl]].
      assert (H2' : Subgroup.verify_subgroup_criterion
                {| Subgroup.parent_group_ := G; Subgroup.subset_ := subset |} = Ok true).
      { apply (verify_subgroup_criterion_true G VG). split; [exact Hne|].
        split; [exact Hincl|]. intros a b Ha Hb. apply Hcl; [exact Ha|].
        apply closed_subset_has_inverses; assumption. }
      congruence.
    - apply (verify_subgroup_criterion_true G VG) in H2.
      destruct H2 as [Hne [Hincl Hcrit]].
      assert (H1' : Subgroup.verify_finite_subgroup_criterion
                {| Subgroup.parent_group_ := G; Subgroup.subset_ := subset |} = Ok true).
      { apply (verify_finite_subgroup_criterion_true G VG). split; [exact Hne|].
        split; [exact Hincl|]. intros a b Ha Hb.
        assert (He : In (identity G) subset).
        { rewrite <- (op_inv_r G VG a (Hincl a Ha)). apply Hcrit; assumption. }
        assert (Hib : In (inv b) subset).
        { rewrite <- (op_e_l G VG (inv b)) by (apply (inv_in G VG), Hincl, Hb).
          apply Hcrit; assumption. }
        rewrite <- (inv_inv G VG b) by (apply Hincl, Hb). apply Hcrit; assumption. }
      congruence. }
  destruct b1, b2; try reflexivity.
  - destruct Hiff as [Hiff _]. symmetry. apply Hiff. reflexivity.
  - destruct Hiff as [_ Hiff]. apply Hiff. reflexivity.
Qed.

End FiniteCriterion.

(** X7: on a valid group the criterion for finite groups, closure under
    the operation alone, decides the same as the subgroup criterion
    [a ∘ b⁻¹ ∈ H]: for every subset the two checks return the same answer,
    and neither throws. *)
Theorem finite_subgroup_criterion_agrees {T : Type} {E : Element T} {L : ElementLaws T}
    (elements : list T) (op : T -> T -> T) (e : T) (inv : T -> T) (G : Group)
    (subset : list T) :
  is_set elements -> Group_ctor elements op e inv = Ok G ->
  exists b,
    Subgroup.verify_finite_subgroup_criterion
      {| Subgroup.parent_group_ := G; Subgroup.subset_ := subset |} = Ok b /\
    Subgroup.verify_subgroup_criterion
      {| Subgroup.parent_group_ := G; Subgroup.subset_ := subset |} = Ok b.
Proof.
  intros Hset HG. pose proof (Group_ctor_valid elements op e inv G Hset HG) as VG.
  destruct (verify_subgroup_criterion_Ok G VG subset) as [b Hb].
  exists b. split; [|exact Hb]. rewrite (criteria_agree G VG). exact Hb.
Qed.

Lemma finite_subgroup_criterion_agrees_witness :
  exists b,
    Subgroup.verify_finite_subgroup_criterion
      {| Subgroup.parent_group_ := Examples.GS3; Subgroup.subset_ := [0; 4; 5]%Z |} = Ok b /\
    Subgroup.verify_subgroup_criterion
      {| Subgroup.parent_group_ := Examples.GS3; Subgroup.subset_ := [0; 4; 5]%Z |} = Ok b.
Proof.
  apply (finite_subgroup_criterion_agrees Scenario.S3 Scenario.mulS3 0%Z Scenario.invS3
           Examples.GS3 [0; 4; 5]%Z).
  - apply is_set_make_set.
  - by_evaluation.
Defined.

(** ** Properties of the order *)

Section OrderProperties.
Context {T : Type} {E : Element T} {L : ElementLaws T}.
Variable G : Group (T := T).
Hypothesis VG : valid_group G.

Local Abbreviation carrier := (elements_ G).
Local Abbreviation op := (operation_ G).
Local Abbreviation e := (identity G).
Local Abbreviation inv := (inverse_func_ G).

Lemma compute_is_order (a : T) (n : nat) :
  In a carrier -> is_order G a n -> ElementOrder.compute G a = Ok (Some n).
Proof.
  intros Ha Hord. destruct (compute_Some G VG a Ha) as [m [Hcomp [Hord' _]]].
  rewrite (is_order_unique G a n m Hord Hord'). exact Hcomp.
Qed.

Lemma order_equals_inverse_order_valid (a : T) :
  In a carrier -> ElementOrder.order_equals_inverse_order G a = Ok true.
Proof.
  intros Ha. unfold ElementOrder.order_equals_inverse_order.
  destruct (compute_Some G VG a Ha) as [n [Hcomp [Hord _]]].
  rewrite Hcomp. simpl. rewrite (inverse_valid G VG) by exact Ha. simpl.
  rewrite (compute_is_order (inv a) n (inv_in G VG a Ha) (is_order_inv G VG a n Ha Hord)).
  simpl. rewrite Nat.eqb_refl. reflexivity.
Qed.

Lemma to_long_long_small (n : Z) : (0 <= n < 2 ^ 63)%Z -> ElementOrder.to_long_long n = n.
Proof.
  intros Hn. unfold ElementOrder.to_long_long.
  destruct (n <? 2 ^ 63)%Z eqn:Hlt; [reflexivity | lia].
Qed.

Lemma satisfies_identity_power_valid (a : T) (n : Z) :
  In a carrier -> (0 <= n < 2 ^ 63)%Z ->
  ElementOrder.satisfies_identity_power G a n = Ok (eq_op (gpow G a (Z.to_nat n)) e).
Proof.
  intros Ha Hn. unfold ElementOrder.satisfies_identity_power.
  rewrite to_long_long_small by exact Hn.
  rewrite <- (Z2Nat.id n) at 1 by lia.
  rewrite (power_gpow G VG) by exact Ha. reflexivity.
Qed.

Lemma order_divides_power_valid (a : T) (n : Z) :
  In a carrier -> (0 <= n < 2 ^ 63)%Z ->
  ElementOrder.order_divides_power G a n = Ok (eq_op (gpow G a (Z.to_nat n)) e).
Proof.
  intros Ha Hn. unfold ElementOrder.order_divides_power.
  rewrite satisfies_identity_power_valid by assumption. simpl.
  destruct (eq_op (gpow G a (Z.to_nat n)) e) eqn:Heq; [|reflexivity]. simpl.
  destruct (compute_Some G VG a Ha) as [m [Hcomp [Hord _]]].
  rewrite Hcomp. simpl. f_equal. apply Z.eqb_eq.
  apply eq_op_spec in Heq. apply (gpow_e_iff_divides G VG a m _ Ha Hord) in Heq.
  destruct Hord as [Hm _].
  rewrite <- (Z2Nat.id n) by lia. rewrite <- Nat2Z.inj_mod. rewrite Heq. reflexivity.
Qed.

Lemma via_cyclic_subgroup_loop_valid (a : T) (m : nat) :
  In a carrier -> is_order G a m ->
  forall d n remaining seen,
    n + d = m -> 1 <= n -> d < remaining ->
    (forall x, In x seen <-> x = e \/ exists k, 1 <= k < n /\ x = gpow G a k) ->
    ElementOrder.via_cyclic_subgroup_loop G a remaining n seen (gpow G a n) = Ok (Some m).
Proof.
  intros Ha Hord. pose proof Hord as [Hm [Hpow Hmin]].
  induction d as [|d IH]; intros n remaining seen Hnd Hn Hrem HS.
  - destruct remaining as [|r]; [lia|]. simpl.
    replace n with m by lia. rewrite Hpow, eq_op_refl. reflexivity.
  - destruct remaining as [|r]; [lia|]. simpl.
    assert (Hne : gpow G a n <> e) by (apply Hmin; lia).
    rewrite (proj2 (eq_op_false _ _) Hne).
    rewrite (operate_valid G VG) by (try apply (gpow_in G VG); assumption). simpl.
    change (op (gpow G a n) a) with (gpow G a (S n)).
    assert (Hcont : contains (insert (gpow G a n) seen) (gpow G a (S n)) &&
                    negb (eq_op (gpow G a (S n)) e) = false).
    { destruct (eq_op (gpow G a (S n)) e) eqn:Heq; [apply andb_false_r|].
      apply eq_op_false in Heq. rewrite andb_true_r. apply contains_false.
      intros Hin. apply In_insert in Hin.
      assert (Hlt : S n < m).
      { destruct (Nat.eq_dec (S n) m) as [Hm'|Hm']; [|lia].
        exfalso. apply Heq. rewrite Hm'. exact Hpow. }
      destruct Hin as [Hin|Hin].
      - apply (gpow_injective_below_order G VG a m (S n) n Ha Hmin) in Hin; lia.
      - apply HS in Hin. destruct Hin as [Hin|[k [Hk Hin]]]; [contradiction|].
        apply (gpow_injective_below_order G VG a m (S n) k Ha Hmin) in Hin; lia. }
    rewrite Hcont. apply IH; try lia.
    intros x. rewrite In_insert, HS. split.
    + intros [->|[->|[k [Hk ->]]]].
      * right. exists n. split; [lia | reflexivity].
      * left. reflexivity.
      * right. exists k. split; [lia | reflexivity].
    + intros [->|[k [Hk ->]]].
      * right. left. reflexivity.
      * destruct (Nat.eq_dec k n) as [->|Hkn]; [left; reflexivity|].
        right. right. exists k. split; [lia | reflexivity].
Qed.

Lemma via_cyclic_subgroup_valid (a : T) :
  In a carrier -> ElementOrder.via_cyclic_subgroup G a = ElementOrder.compute G a.
Proof.
  intros Ha. destruct (compute_Some G VG a Ha) as [m [Hcomp [Hord Hle]]].
  rewrite Hcomp. unfold ElementOrder.via_cyclic_subgroup.
  rewrite <- (gpow_1 G VG a Ha) at 2.
  pose proof Hord as [Hm _].
  apply (via_cyclic_subgroup_loop_valid a m Ha Hord (m - 1) 1); try lia.
  - unfold size, get_set. lia.
  - intros x. simpl. split.
    + intros [<-|[]]. left. reflexivity.
    + intros [->|[k [Hk _]]]; [left; reflexivity | lia].
Qed.

Lemma is_generator_valid (a : T) (n : nat) :
  In a carrier -> is_order G a n ->
  CyclicGroup.is_generator G a = Ok (n =? length carrier)%nat.
Proof.
  intros Ha Hord. unfold CyclicGroup.is_generator, get_set.
  rewrite (proj2 (contains_In _ _) Ha). simpl.
  rewrite (compute_is_order a n Ha Hord). reflexivity.
Qed.

Lemma is_generator_true (a : T) :
  In a carrier ->
  (CyclicGroup.is_generator G a = Ok true <-> is_order G a (length carrier)).
Proof.
  intros Ha. destruct (compute_Some G VG a Ha) as [n [_ [Hord _]]].
  rewrite (is_generator_valid a n Ha Hord). split.
  - intros [= Heq]. apply Nat.eqb_eq in Heq. rewrite <- Heq. exact Hord.
  - intros Hord'. rewrite (is_order_unique G a n _ Hord Hord'), Nat.eqb_refl. reflexivity.
Qed.

(** A group with a generator is commutative. *)
Lemma generator_commutes (g : T) :
  In g carrier -> is_order G g (length carrier) ->
  forall a b, In a carrier -> In b carrier -> op a b = op b a.
Proof.
  intros Hg [_ [_ Hmin]] a b Ha Hb.
  apply (powers_cover G VG g (length carrier) Hg eq_refl Hmin) in Ha, Hb.
  apply in_map_iff in Ha, Hb.
  destruct Ha as [i [<- _]]. destruct Hb as [j [<- _]].
  rewrite <- !(gpow_add G VG) by exact Hg. rewrite Nat.add_comm. reflexivity.
Qed.

End OrderProperties.

Lemma find_first_None {A : Type} (body : A -> outcome bool) (l : list A) :
  find_first body l = Ok None -> forall x, In x l -> body x = Ok false.
Proof.
  induction l as [|y l IH]; simpl; intros H x Hx; [destruct Hx|].
  destruct (body y) as [[|]|] eqn:Hy; simpl in H; try discriminate.
  destruct Hx as [<-|Hx]; [exact Hy | apply IH; assumption].
Qed.

(** X8: on a valid group an element and its inverse have the same order:
    [order_equals_inverse_order] answers true for every element of the
    carrier. *)
Theorem order_equals_inverse_order_holds {T : Type} {E : Element T} {L : ElementLaws T}
    (elements : list T) (op : T -> T -> T) (e : T) (inv : T -> T) (G : Group) (a : T) :
  is_set elements -> Group_ctor elements op e inv = Ok G ->
  In a (get_set G) ->
  ElementOrder.order_equals_inverse_order G a = Ok true /\
  exists a', inverse G a = Ok a' /\ ElementOrder.compute G a' = ElementOrder.compute G a.
Proof.
  intros Hset HG Ha. pose proof (Group_ctor_valid elements op e inv G Hset HG) as VG.
  unfold get_set in Ha.
  split; [apply (order_equals_inverse_order_valid G VG a Ha)|].
  exists (inverse_func_ G a). split; [apply (inverse_valid G VG), Ha|].
  destruct (compute_Some G VG a Ha) as [n [Hcomp [Hord _]]]. rewrite Hcomp.
  apply (compute_is_order G VG _ n (inv_in G VG a Ha) (is_order_inv G VG a n Ha Hord)).
Qed.

Lemma order_equals_inverse_order_holds_witness :
  ElementOrder.order_equals_inverse_order Examples.GS3 4%Z = Ok true /\
  exists a', inverse Examples.GS3 4%Z = Ok a' /\
    ElementOrder.compute Examples.GS3 a' = ElementOrder.compute Examples.GS3 4%Z.
Proof.
  apply (order_equals_inverse_order_holds Scenario.S3 Scenario.mulS3 0%Z Scenario.invS3
           Examples.GS3 4%Z).
  - apply is_set_make_set.
  - by_evaluation.
  - by_evaluation.
Defined.

(** X9: on a valid group, for an element [a] of the carrier and an exponent
    [n] below [2^63], [order_divides_power] answers what
    [satisfies_identity_power] answers: true exactly when [a^n = e], which
    is exactly when the computed order divides [n]. *)
Theorem order_divides_power_holds {T : Type} {E : Element T} {L : ElementLaws T}
    (elements : list T) (op : T -> T -> T) (e : T) (inv : T -> T) (G : Group)
    (a : T) (n : Z) :
  is_set elements -> Group_ctor elements op e inv = Ok G ->
  In a (get_set G) -> (0 <= n < 2 ^ 63)%Z ->
  exists b order,
    ElementOrder.satisfies_identity_power G a n = Ok b /\
    ElementOrder.order_divides_power G a n = Ok b /\
    ElementOrder.compute G a = Ok (Some order) /\
    (b = true <-> gpow G a (Z.to_nat n) = identity G) /\
    (b = true <-> (n mod Z.of_nat order = 0)%Z).
Proof.
  intros Hset HG Ha Hn. pose proof (Group_ctor_valid elements op e inv G Hset HG) as VG.
  unfold get_set in Ha.
  destruct (compute_Some G VG a Ha) as [m [Hcomp [Hord _]]].
  exists (eq_op (gpow G a (Z.to_nat n)) (identity G)), m.
  split; [apply (satisfies_identity_power_valid G VG a n Ha Hn)|].
  split; [apply (order_divides_power_valid G VG a n Ha Hn)|].
  split; [exact Hcomp|]. split; [apply eq_op_spec|].
  rewrite eq_op_spec, (gpow_e_iff_divides G VG a m _ Ha Hord).
  destruct Hord as [Hm _].
  rewrite <- (Z2Nat.id n) at 2 by lia. rewrite <- Nat2Z.inj_mod. lia.
Qed.

Lemma order_divides_power_holds_witness :
  exists b order,
    ElementOrder.satisfies_identity_power Examples.G6 2%Z 9 = Ok b /\
    ElementOrder.order_divides_power Examples.G6 2%Z 9 = Ok b /\
    ElementOrder.compute Examples.G6 2%Z = Ok (Some order) /\
    (b = true <-> gpow Examples.G6 2%Z (Z.to_nat 9) = identity Examples.G6) /\
    (b = true <-> (9 mod Z.of_nat order = 0)%Z).
Proof.
  apply (order_divides_power_holds Scenario.Z6 Scenario.add6 0%Z Scenario.neg6
           Examples.G6 2%Z 9).
  - apply is_set_make_set.
  - by_evaluation.
  - by_evaluation.
  - lia.
Defined.

(** X10: on a valid group the order that
    [CyclicSubgroupOrder::via_cyclic_subgroup] finds through the set of
    powers is the order that [ElementOrder::compute] returns; its branch
    for a power seen before is never taken. *)
Theorem via_cyclic_subgroup_agrees_with_compute
    {T : Type} {E : Element T} {L : ElementLaws T}
    (elements : list T) (op : T -> T -> T) (e : T) (inv : T -> T) (G : Group) (a : T) :
  is_set elements -> Group_ctor elements op e inv = Ok G ->
  In a (get_set G) ->
  ElementOrder.via_cyclic_subgroup G a = ElementOrder.compute G a.
Proof.
  intros Hset HG Ha. pose proof (Group_ctor_valid elements op e inv G Hset HG) as VG.
  apply (via_cyclic_subgroup_valid G VG a Ha).
Qed.

Lemma via_cyclic_subgroup_agrees_with_compute_witness :
  ElementOrder.via_cyclic_subgroup Examples.GS3 5%Z = ElementOrder.compute Examples.GS3 5%Z.
Proof.
  apply (via_cyclic_subgroup_agrees_with_compute Scenario.S3 Scenario.mulS3 0%Z
           Scenario.invS3 Examples.GS3 5%Z).
  - apply is_set_make_set.
  - by_evaluation.
  - by_evaluation.
Defined.

(** ** Generators *)

Section InsertIf.
Context {T : Type} {E : Element T} {L : ElementLaws T}.

Lemma In_insert_if (f : T -> bool) (l s : list T) (x : T) :
  In x (insert_if f l s) <-> (In x l /\ f x = true) \/ In x s.
Proof.
  unfold insert_if. revert s. induction l as [|a l IH]; intros s; simpl; [tauto|].
  rewrite IH. destruct (f a) eqn:Hfa.
  - rewrite In_insert. split.
    + intros [[Hl Hf]|[->|Hs]]; auto.
    + intros [[[->|Hl] Hf]|Hs]; auto.
  - split.
    + intros [[Hl Hf]|Hs]; auto.
    + intros [[[->|Hl] Hf]|Hs]; auto. congruence.
Qed.

Lemma is_set_insert_if (f : T -> bool) (l s : list T) :
  is_set s -> is_set (insert_if f l s).
Proof.
  unfold insert_if. revert s. induction l as [|a l IH]; intros s Hs; simpl; [exact Hs|].
  apply IH. destruct (f a); [apply is_set_insert|]; exact Hs.
Qed.

(** Filtering a set in its order gives the set of the elements that pass. *)
Lemma insert_if_filter (f : T -> bool) (l : list T) :
  is_set l -> insert_if f l [] = filter f l.
Proof.
  intros Hl. apply is_set_ext.
  - apply is_set_insert_if. exact I.
  - induction l as [|a l IH]; simpl; [exact I|].
    destruct Hl as [Ha Hl]. destruct (f a); [|apply IH, Hl].
    simpl. split; [|apply IH, Hl].
    intros y Hy. apply filter_In in Hy. apply Ha, Hy.
  - intros x. rewrite In_insert_if, filter_In. simpl. tauto.
Qed.

End InsertIf.

Section GeneratorFacts.
Context {T : Type} {E : Element T} {L : ElementLaws T}.
Variable G : Group (T := T).
Hypothesis VG : valid_group G.

Local Abbreviation carrier := (elements_ G).

Lemma order_or_zero_is_order (a : T) :
  In a carrier -> is_order G a (order_or_zero G a).
Proof.
  intros Ha. destruct (compute_Some G VG a Ha) as [n [Hcomp [Hord _]]].
  unfold order_or_zero. rewrite Hcomp. exact Hord.
Qed.

Lemma is_generator_order_or_zero (a : T) :
  In a carrier ->
  CyclicGroup.is_generator G a = Ok (order_or_zero G a =? length carrier)%nat.
Proof.
  intros Ha. apply (is_generator_valid G VG a _ Ha), order_or_zero_is_order, Ha.
Qed.

Lemma find_generator_find :
  CyclicGroup.find_generator G =
  Ok (find (fun a => (order_or_zero G a =? length carrier)%nat) carrier).
Proof.
  unfold CyclicGroup.find_generator. apply find_first_find.
  intros a Ha. apply is_generator_order_or_zero, Ha.
Qed.

Lemma is_generator_iff (a : T) :
  In a carrier ->
  ((order_or_zero G a =? length carrier)%nat = true <-> is_order G a (length carrier)).
Proof.
  intros Ha. rewrite <- (is_generator_true G VG a Ha).
  rewrite is_generator_order_or_zero by exact Ha. split; congruence.
Qed.

Lemma find_all_generators_valid :
  exists gens,
    CyclicGroup.find_all_generators G = Ok gens /\ is_set gens /\
    (forall g, In g gens <-> In g carrier /\ is_order G g (length carrier)) /\
    CyclicGroup.is_cyclic G = Ok (negb (empty gens)).
Proof.
  unfold CyclicGroup.find_all_generators, CyclicGroup.is_cyclic.
  rewrite find_generator_find. simpl bind.
  set (f := fun a => (order_or_zero G a =? length carrier)%nat).
  destruct (find f carrier) as [g|] eqn:Hfind; simpl.
  - exists (insert_if f carrier []).
    split.
    { apply fold_each_fold_left. intros s x Hx.
      rewrite is_generator_order_or_zero by exact Hx. simpl. fold (f x).
      destruct (f x); reflexivity. }
    split; [apply is_set_insert_if; exact I|].
    assert (Hmem : forall x, In x (insert_if f carrier []) <->
                             In x carrier /\ is_order G x (length carrier)).
    { intros x. rewrite In_insert_if. simpl. split.
      - intros [[Hx Hf]|[]]. split; [exact Hx|]. apply is_generator_iff; assumption.
      - intros [Hx Hord]. left. split; [exact Hx|]. apply is_generator_iff; assumption. }
    split; [exact Hmem|].
    apply find_some in Hfind. destruct Hfind as [Hg Hfg].
    assert (Hin : In g (insert_if f carrier [])).
    { apply In_insert_if. left. auto. }
    destruct (insert_if f carrier []); [destruct Hin | reflexivity].
  - exists []. split; [reflexivity|]. split; [exact I|]. split; [|reflexivity].
    intros x. split; [intros []|]. intros [Hx Hord].
    pose proof (find_none _ _ Hfind x Hx) as Hf. unfold f in Hf.
    apply (is_generator_iff x Hx) in Hord. congruence.
Qed.

End GeneratorFacts.

(** X11: a valid group that [CyclicGroup::is_cyclic] accepts is abelian:
    [Group::is_abelian] and [CyclicGroup::Properties::is_abelian] answer
    true. *)
Theorem cyclic_group_is_abelian {T : Type} {E : Element T} {L : ElementLaws T}
    (elements : list T) (op : T -> T -> T) (e : T) (inv : T -> T) (G : Group) :
  is_set elements -> Group_ctor elements op e inv = Ok G ->
  CyclicGroup.is_cyclic G = Ok true ->
  is_abelian G = Ok true /\ CyclicGroup.Properties_is_abelian G = Ok true.
Proof.
  intros Hset HG Hcyc. pose proof (Group_ctor_valid elements op e inv G Hset HG) as VG.
  assert (Hab : is_abelian G = Ok true).
  { unfold CyclicGroup.is_cyclic in Hcyc.
    destruct (CyclicGroup.find_generator G) as [[g|]|] eqn:Hfind; simpl in Hcyc;
      try discriminate.
    apply find_first_Some in Hfind. destruct Hfind as [Hg Hgen].
    apply (is_generator_true G VG g Hg) in Hgen.
    apply (is_commutative_true G VG). apply (generator_commutes G VG g Hg Hgen). }
  split; [exact Hab|].
  unfold CyclicGroup.Properties_is_abelian. rewrite Hcyc. simpl. exact Hab.
Qed.

Lemma cyclic_group_is_abelian_witness :
  is_abelian Examples.G6 = Ok true /\ CyclicGroup.Properties_is_abelian Examples.G6 = Ok true.
Proof.
  apply (cyclic_group_is_abelian Scenario.Z6 Scenario.add6 0%Z Scenario.neg6 Examples.G6).
  - apply is_set_make_set.
  - by_evaluation.
  - by_evaluation.
Defined.

(** X12: on a valid group [find_all_generators] returns the set of the
    elements whose order is the order of the group; the set is nonempty
    exactly when [is_cyclic] answers true, and each of its elements
    generates the whole carrier. *)
Theorem find_all_generators_are_the_generators
    {T : Type} {E : Element T} {L : ElementLaws T}
    (elements : list T) (op : T -> T -> T) (e : T) (inv : T -> T) (G : Group) :
  is_set elements -> Group_ctor elements op e inv = Ok G ->
  exists gens,
    CyclicGroup.find_all_generators G = Ok gens /\ is_set gens /\
    (forall g, In g gens <-> In g (get_set G) /\ is_order G g (size (get_set G))) /\
    CyclicGroup.is_cyclic G = Ok (negb (empty gens)) /\
    (forall g, In g gens -> CyclicGroup.generate_cyclic_subgroup G g = Ok (get_set G)).
Proof.
  intros Hset HG. pose proof (Group_ctor_valid elements op e inv G Hset HG) as VG.
  destruct (find_all_generators_valid G VG) as [gens [Hfind [Hs [Hmem Hcyc]]]].
  exists gens. split; [exact Hfind|]. split; [exact Hs|]. split; [exact Hmem|].
  split; [exact Hcyc|].
  intros g Hg. apply Hmem in Hg. destruct Hg as [Hg Hord].
  apply (generate_cyclic_subgroup_of_generator G VG g Hg).
  apply (is_generator_true G VG g Hg). exact Hord.
Qed.

Lemma find_all_generators_are_the_generators_witness :
  exists gens,
    CyclicGroup.find_all_generators Examples.G6 = Ok gens /\ is_set gens /\
    (forall g, In g gens <->
       In g (get_set Examples.G6) /\ is_order Examples.G6 g (size (get_set Examples.G6))) /\
    CyclicGroup.is_cyclic Examples.G6 = Ok (negb (empty gens)) /\
    (forall g, In g gens ->
       CyclicGroup.generate_cyclic_subgroup Examples.G6 g = Ok (get_set Examples.G6)).
Proof.
  apply (find_all_generators_are_the_generators Scenario.Z6 Scenario.add6 0%Z
           Scenario.neg6 Examples.G6).
  - apply is_set_make_set.
  - by_evaluation.
Defined.

(** ** The exponent of a group *)

Lemma gcd_Nat_gcd (a b : nat) : gcd a b = Nat.gcd b a.
Proof. reflexivity. Qed.

Lemma wrap_size_small (n : nat) : (Z.of_nat n < size_t_modulus)%Z -> wrap_size n = n.
Proof.
  intros Hn. unfold wrap_size, wrap. rewrite Z.mod_small by lia. apply Nat2Z.id.
Qed.

Lemma lcm_Nat_lcm (a b : nat) :
  1 <= a -> 1 <= b -> (Z.of_nat (Nat.lcm a b) < size_t_modulus)%Z ->
  GroupExponent.lcm a b = Nat.lcm a b.
Proof.
  intros Ha Hb Hsmall. unfold GroupExponent.lcm.
  destruct a as [|a]; [lia|]. destruct b as [|b]; [lia|].
  change ((S a =? 0) || (S b =? 0)) with false. cbv iota.
  assert (Heq : S a / gcd (S a) (S b) * S b = Nat.lcm (S a) (S b)).
  { rewrite gcd_Nat_gcd, (Nat.lcm_comm (S a) (S b)). unfold Nat.lcm. apply Nat.mul_comm. }
  rewrite Heq. apply wrap_size_small, Hsmall.
Qed.

Lemma fold_lcm_spec (N : nat) (rest : list nat) (first : nat) :
  1 <= N -> (Z.of_nat N < size_t_modulus)%Z ->
  1 <= first -> Nat.divide first N ->
  (forall n, In n rest -> 1 <= n /\ Nat.divide n N) ->
  let x := fold_left GroupExponent.lcm rest first in
  1 <= x /\ Nat.divide x N /\
  (forall m, Nat.divide x m <-> forall n, In n (first :: rest) -> Nat.divide n m).
Proof.
  intros HN Hsmall. revert first. induction rest as [|b rest IH]; intros first Hf Hdiv Hrest; simpl.
  - split; [exact Hf|]. split; [exact Hdiv|]. intros m. split.
    + intros H n [<-|[]]. exact H.
    + intros H. apply H. left. reflexivity.
  - destruct (Hrest b (or_introl eq_refl)) as [Hb Hbdiv].
    assert (Hl : Nat.divide (Nat.lcm first b) N) by (apply Nat.lcm_least; assumption).
    assert (Hle : Nat.lcm first b <= N) by (apply Nat.divide_pos_le; [lia | exact Hl]).
    assert (Hpos : 1 <= Nat.lcm first b).
    { destruct (Nat.eq_dec (Nat.lcm first b) 0) as [H0|H0]; [|lia].
      apply Nat.lcm_eq_0 in H0. lia. }
    rewrite lcm_Nat_lcm by (try assumption; lia).
    destruct (IH (Nat.lcm first b) Hpos Hl (fun n Hn => Hrest n (or_intror Hn)))
      as [Hx [Hxdiv Hxm]].
    split; [exact Hx|]. split; [exact Hxdiv|].
    intros m. rewrite Hxm. split.
    + intros H n [<-|[<-|Hn]].
      * apply Nat.divide_trans with (Nat.lcm first b); [apply Nat.divide_lcm_l|].
        apply H. left. reflexivity.
      * apply Nat.divide_trans with (Nat.lcm first b); [apply Nat.divide_lcm_r|].
        apply H. left. reflexivity.
      * apply H. right. exact Hn.
    + intros H n [<-|Hn].
      * apply Nat.lcm_least; apply H; simpl; auto.
      * apply H. simpl. auto.
Qed.

Section ExponentFacts.
Context {T : Type} {E : Element T} {L : ElementLaws T}.
Variable G : Group (T := T).
Hypothesis VG : valid_group G.

Local Abbreviation carrier := (elements_ G).
Local Abbreviation e := (identity G).

Lemma order_divides_carrier (a : T) (n : nat) :
  In a carrier -> is_order G a n -> Nat.divide n (length carrier).
Proof.
  intros Ha Hord.
  pose proof (compute_is_order G VG a n Ha Hord) as Hcomp.
  destruct (generate_cyclic_subgroup_powers G VG a n Ha Hcomp Hord)
    as [S [_ [HsetS [Hmem Hlen]]]].
  destruct (powers_subgroup G VG a n S Ha Hord HsetS Hmem) as [_ VH].
  destruct (find_all_cosets_partition _ VH) as [cosets [_ CP]].
  pose proof (lagrange_count _ VH cosets CP) as Hcount. simpl in Hcount.
  exists (length cosets). rewrite Hcount, Hlen. apply Nat.mul_comm.
Qed.

Lemma collect_orders_valid (l : list T) (orders : list nat) :
  (forall a, In a l -> In a carrier) ->
  GroupExponent.collect_orders G l orders = Ok (Some (orders ++ map (order_or_zero G) l)).
Proof.
  revert orders. induction l as [|a l IH]; intros orders Hl; simpl.
  - rewrite app_nil_r. reflexivity.
  - destruct (compute_Some G VG a (Hl a (or_introl eq_refl))) as [n [Hcomp _]].
    unfold order_or_zero at 1. rewrite Hcomp. simpl.
    rewrite IH by (intros; apply Hl; right; assumption).
    rewrite <- app_assoc. reflexivity.
Qed.

Lemma exponent_valid :
  (Z.of_nat (length carrier) < size_t_modulus)%Z ->
  exists x,
    GroupExponent.compute G = Ok (Some x) /\ 1 <= x /\
    Nat.divide x (length carrier) /\
    (forall m, Nat.divide x m <->
               forall a, In a carrier -> gpow G a m = e).
Proof.
  intros Hsmall. unfold GroupExponent.compute, get_set.
  rewrite collect_orders_valid by auto. simpl.
  pose proof (carrier_nonempty G VG) as HN.
  assert (Hall : forall n, In n (map (order_or_zero G) carrier) ->
                  1 <= n /\ Nat.divide n (length carrier)).
  { intros n Hn. apply in_map_iff in Hn. destruct Hn as [a [<- Ha]].
    pose proof (order_or_zero_is_order G VG a Ha) as Hord.
    split; [apply Hord|]. apply (order_divides_carrier a _ Ha Hord). }
  assert (Hmem : forall m, (forall n, In n (map (order_or_zero G) carrier) -> Nat.divide n m) <->
                           (forall a, In a carrier -> gpow G a m = e)).
  { intros m. split.
    - intros H a Ha.
      apply (gpow_e_iff_divides G VG a _ m Ha (order_or_zero_is_order G VG a Ha)).
      apply Nat.Lcm0.mod_divide. apply H. apply in_map, Ha.
    - intros H n Hn. apply in_map_iff in Hn. destruct Hn as [a [<- Ha]].
      apply Nat.Lcm0.mod_divide.
      apply (gpow_e_iff_divides G VG a _ m Ha (order_or_zero_is_order G VG a Ha)).
      apply H, Ha. }
  destruct (map (order_or_zero G) carrier) as [|first rest] eqn:Hmap.
  { apply map_eq_nil in Hmap. rewrite Hmap in HN. simpl in HN. lia. }
  simpl.
  destruct (fold_lcm_spec (length carrier) rest first HN Hsmall) as [Hx [Hdiv Hm]].
  - apply Hall. left. reflexivity.
  - apply Hall. left. reflexivity.
  - intros n Hn. apply Hall. right. exact Hn.
  - eexists. split; [reflexivity|].
    split; [exact Hx|]. split; [exact Hdiv|].
    intros m. rewrite Hm. apply Hmem.
Qed.

Lemma exponent_checks (x : nat) :
  GroupExponent.compute G = Ok (Some x) -> 1 <= x ->
  Nat.divide x (length carrier) ->
  (forall m, Nat.divide x m <-> forall a, In a carrier -> gpow G a m = e) ->
  GroupExponent.divides_group_order G = Ok true /\
  GroupExponent.orders_divide_exponent G = Ok true /\
  GroupExponent.get_exponent G = Ok x /\
  GroupExponent.is_finite G = Ok true.
Proof.
  intros Hcomp Hx Hdiv Hm.
  unfold GroupExponent.divides_group_order, GroupExponent.orders_divide_exponent,
    GroupExponent.get_exponent, GroupExponent.is_finite.
  rewrite Hcomp. simpl. repeat split.
  - destruct x as [|x']; [lia|]. unfold size, get_set.
    apply Nat.Lcm0.mod_divide in Hdiv. rewrite Hdiv. reflexivity.
  - apply for_all_true. unfold get_set. intros a Ha.
    pose proof (order_or_zero_is_order G VG a Ha) as Hord.
    rewrite (compute_is_order G VG a _ Ha Hord). simpl.
    destruct (order_or_zero G a) as [|n'] eqn:Hn; [destruct Hord; lia|].
    assert (Hd : Nat.divide (S n') x).
    { apply Nat.Lcm0.mod_divide.
      apply (gpow_e_iff_divides G VG a _ x Ha Hord).
      apply (proj1 (Hm x) (Nat.divide_refl x)), Ha. }
    apply Nat.Lcm0.mod_divide in Hd. rewrite Hd. reflexivity.
Qed.

Lemma satisfies_exponent_valid (x : nat) (n : Z) :
  1 <= x ->
  (forall m, Nat.divide x m <-> forall a, In a carrier -> gpow G a m = e) ->
  (0 <= n < 2 ^ 63)%Z ->
  GroupExponent.satisfies_exponent G n = Ok (Z.to_nat n mod x =? 0).
Proof.
  intros Hx Hm Hn. unfold GroupExponent.satisfies_exponent, get_set.
  rewrite (for_all_forallb _ (fun a => eq_op (gpow G a (Z.to_nat n)) e)).
  - f_equal. apply eq_true_iff_eq. rewrite forallb_forall, Nat.eqb_eq.
    rewrite Nat.Lcm0.mod_divide, Hm. split.
    + intros H a Ha. apply eq_op_spec. apply H, Ha.
    + intros H a Ha. rewrite (H a Ha). apply eq_op_refl.
  - intros a Ha. rewrite to_long_long_small by exact Hn.
    rewrite <- (Z2Nat.id n) at 1 by lia.
    rewrite (power_gpow G VG) by exact Ha. reflexivity.
Qed.

Lemma cyclic_exponent (x : nat) :
  1 <= x -> Nat.divide x (length carrier) ->
  (forall m, Nat.divide x m <-> forall a, In a carrier -> gpow G a m = e) ->
  CyclicGroup.is_cyclic G = Ok true -> x = length carrier.
Proof.
  intros Hx Hdiv Hm Hcyc.
  unfold CyclicGroup.is_cyclic in Hcyc. rewrite (find_generator_find G VG) in Hcyc.
  simpl in Hcyc.
  destruct (find _ carrier) as [g|] eqn:Hfind; [|discriminate].
  apply find_some in Hfind. destruct Hfind as [Hg Hord].
  apply (is_generator_iff G VG g Hg) in Hord.
  apply Nat.divide_antisym; [exact Hdiv|].
  apply Nat.Lcm0.mod_divide. apply (gpow_e_iff_divides G VG g _ x Hg Hord).
  apply (proj1 (Hm x) (Nat.divide_refl x)), Hg.
Qed.

End ExponentFacts.

(** X13: on a valid group whose size fits [size_t],
    [GroupExponent::compute] returns a number [x >= 1] such that [a^m] is
    the identity for every element [a] exactly when [x] divides [m]: the
    least common multiple of the orders, computed without wrap-around.
    It divides the order of the group, every order divides it, and
    [divides_group_order], [orders_divide_exponent] and [is_finite] answer
    true and [get_exponent] returns it. *)
Theorem exponent_is_least_common_power {T : Type} {E : Element T} {L : ElementLaws T}
    (elements : list T) (op : T -> T -> T) (e : T) (inv : T -> T) (G : Group) :
  is_set elements -> Group_ctor elements op e inv = Ok G ->
  (Z.of_nat (size (get_set G)) < size_t_modulus)%Z ->
  exists x,
    GroupExponent.compute G = Ok (Some x) /\ 1 <= x /\
    (forall m, m mod x = 0 <->
               forall a, In a (get_set G) -> gpow G a m = identity G) /\
    size (get_set G) mod x = 0 /\
    GroupExponent.divides_group_order G = Ok true /\
    GroupExponent.orders_divide_exponent G = Ok true /\
    GroupExponent.get_exponent G = Ok x /\
    GroupExponent.is_finite G = Ok true.
Proof.
  intros Hset HG Hsmall. pose proof (Group_ctor_valid elements op e inv G Hset HG) as VG.
  unfold size, get_set in *.
  destruct (exponent_valid G VG Hsmall) as [x [Hcomp [Hx [Hdiv Hm]]]].
  exists x. split; [exact Hcomp|]. split; [exact Hx|].
  split; [intros m; rewrite Nat.Lcm0.mod_divide; apply Hm|].
  split; [apply Nat.Lcm0.mod_divide, Hdiv|].
  apply (exponent_checks G VG x Hcomp Hx Hdiv Hm).
Qed.

Lemma exponent_is_least_common_power_witness :
  exists x,
    GroupExponent.compute Examples.GS3 = Ok (Some x) /\ 1 <= x /\
    (forall m, m mod x = 0 <->
               forall a, In a (get_set Examples.GS3) ->
                         gpow Examples.GS3 a m = identity Examples.GS3) /\
    size (get_set Examples.GS3) mod x = 0 /\
    GroupExponent.divides_group_order Examples.GS3 = Ok true /\
    GroupExponent.orders_divide_exponent Examples.GS3 = Ok true /\
    GroupExponent.get_exponent Examples.GS3 = Ok x /\
    GroupExponent.is_finite Examples.GS3 = Ok true.
Proof.
  apply (exponent_is_least_common_power Scenario.S3 Scenario.mulS3 0%Z Scenario.invS3
           Examples.GS3).
  - apply is_set_make_set.
  - by_evaluation.
  - vm_compute. reflexivity.
Defined.

(** X14: on a valid group whose size fits [size_t], and for [n] below
    [2^63], [GroupExponent::satisfies_exponent] answers true exactly when
    the exponent of the group divides [n]; [has_exponent] compares [n] with
    the exponent, and [matches_exponent] answers true exactly at the
    exponent itself. *)
Theorem satisfies_exponent_iff_multiple {T : Type} {E : Element T} {L : ElementLaws T}
    (elements : list T) (op : T -> T -> T) (e : T) (inv : T -> T) (G : Group) (n : nat) :
  is_set elements -> Group_ctor elements op e inv = Ok G ->
  (Z.of_nat (size (get_set G)) < size_t_modulus)%Z ->
  (Z.of_nat n < 2 ^ 63)%Z ->
  exists x,
    GroupExponent.compute G = Ok (Some x) /\
    GroupExponent.satisfies_exponent G (Z.of_nat n) = Ok (n mod x =? 0) /\
    GroupExponent.has_exponent G n = Ok (x =? n) /\
    GroupExponent.matches_exponent G n = Ok (x =? n).
Proof.
  intros Hset HG Hsmall Hn. pose proof (Group_ctor_valid elements op e inv G Hset HG) as VG.
  unfold size, get_set in *.
  destruct (exponent_valid G VG Hsmall) as [x [Hcomp [Hx [Hdiv Hm]]]].
  exists x. split; [exact Hcomp|].
  assert (Hsat : GroupExponent.satisfies_exponent G (Z.of_nat n) = Ok (n mod x =? 0)).
  { rewrite (satisfies_exponent_valid G VG x (Z.of_nat n) Hx Hm) by lia.
    rewrite Nat2Z.id. reflexivity. }
  split; [exact Hsat|].
  unfold GroupExponent.matches_exponent, GroupExponent.has_exponent.
  rewrite Hcomp. simpl. split; [reflexivity|].
  destruct (x =? n) eqn:Heq; [|reflexivity].
  rewrite Hsat. apply Nat.eqb_eq in Heq. subst n.
  rewrite Nat.Div0.mod_same. reflexivity.
Qed.

Lemma satisfies_exponent_iff_multiple_witness :
  exists x,
    GroupExponent.compute Examples.GS3 = Ok (Some x) /\
    GroupExponent.satisfies_exponent Examples.GS3 (Z.of_nat 12) = Ok (12 mod x =? 0) /\
    GroupExponent.has_exponent Examples.GS3 12 = Ok (x =? 12) /\
    GroupExponent.matches_exponent Examples.GS3 12 = Ok (x =? 12).
Proof.
  apply (satisfies_exponent_iff_multiple Scenario.S3 Scenario.mulS3 0%Z Scenario.invS3
           Examples.GS3 12).
  - apply is_set_make_set.
  - by_evaluation.
  - vm_compute. reflexivity.
  - vm_compute. reflexivity.
Defined.

(** X15: a valid group that [CyclicGroup::is_cyclic] accepts has its order
    as exponent, so [GroupExponent::is_cyclic] and
    [CyclicGroup::Properties::exponent_equals_order] answer true for it.
    The test by the exponent is weaker than the search for a generator:
    the symmetric group on three letters has exponent 6, and
    [GroupExponent::is_cyclic] accepts it although it has no generator. *)
Theorem exponent_test_accepts_cyclic_groups :
  (forall (T : Type) (E : Element T) (L : ElementLaws T)
          (elements : list T) (op : T -> T -> T) (e : T) (inv : T -> T) (G : Group),
     is_set elements -> Group_ctor elements op e inv = Ok G ->
     (Z.of_nat (size (get_set G)) < size_t_modulus)%Z ->
     CyclicGroup.is_cyclic G = Ok true ->
     GroupExponent.compute G = Ok (Some (size (get_set G))) /\
     GroupExponent.is_cyclic G = Ok true /\
     GroupExponent.exponent_equals_order G = Ok true) /\
  (Group_ctor Scenario.S3 Scenario.mulS3 0%Z Scenario.invS3 = Ok Examples.GS3 /\
   GroupExponent.is_cyclic Examples.GS3 = Ok true /\
   CyclicGroup.is_cyclic Examples.GS3 = Ok false).
Proof.
  split.
  - intros T E L elements op e inv G Hset HG Hsmall Hcyc.
    pose proof (Group_ctor_valid elements op e inv G Hset HG) as VG.
    unfold size, get_set in *.
    destruct (exponent_valid G VG Hsmall) as [x [Hcomp [Hx [Hdiv Hm]]]].
    pose proof (cyclic_exponent G VG x Hx Hdiv Hm Hcyc) as ->.
    split; [exact Hcomp|].
    unfold GroupExponent.is_cyclic, GroupExponent.exponent_equals_order.
    rewrite Hcyc, Hcomp. simpl. unfold size, get_set.
    rewrite Nat.eqb_refl. split; reflexivity.
  - split; [apply GS3_constructed|]. split; vm_compute; reflexivity.
Qed.

Lemma exponent_test_accepts_cyclic_groups_witness :
  GroupExponent.compute Examples.G6 = Ok (Some (size (get_set Examples.G6))) /\
  GroupExponent.is_cyclic Examples.G6 = Ok true /\
  GroupExponent.exponent_equals_order Examples.G6 = Ok true.
Proof.
  apply (proj1 exponent_test_accepts_cyclic_groups Z Element_Z ElementLaws_Z
           Scenario.Z6 Scenario.add6 0%Z Scenario.neg6 Examples.G6).
  - apply is_set_make_set.
  - by_evaluation.
  - vm_compute. reflexivity.
  - vm_compute. reflexivity.
Defined.

(** ** Trivial, improper and normal subgroups *)

Lemma ElementLaws_nat : ElementLaws nat.
Proof.
  constructor; simpl.
  - intros a b. apply Nat.eqb_eq.
  - intros a. apply Nat.ltb_irrefl.
  - intros a b c. rewrite !Nat.ltb_lt. lia.
  - intros a b. rewrite !Nat.ltb_ge. lia.
Qed.

#[export] Existing Instance ElementLaws_nat.

Section SpecialSubgroups.
Context {T : Type} {E : Element T} {L : ElementLaws T}.
Variable G : Group (T := T).
Hypothesis VG : valid_group G.

Local Abbreviation carrier := (elements_ G).
Local Abbreviation op := (operation_ G).
Local Abbreviation e := (identity G).
Local Abbreviation inv := (inverse_func_ G).

Lemma trivial_subgroup_valid :
  Subgroup.trivial_subgroup G = Ok {| Subgroup.parent_group_ := G; Subgroup.subset_ := [e] |} /\
  valid_subgroup {| Subgroup.parent_group_ := G; Subgroup.subset_ := [e] |}.
Proof.
  unfold Subgroup.trivial_subgroup. change (make_set [e]) with [e].
  apply (Subgroup_ctor_succeeds G VG).
  - simpl. split; [intros y []|exact I].
  - discriminate.
  - intros a [<-|[]]. apply (e_in G VG).
  - intros a b [<-|[]] [<-|[]]. left.
    rewrite (inv_e G VG). symmetry. apply (op_e_l G VG), (e_in G VG).
Qed.

Lemma improper_subgroup_valid :
  Subgroup.improper_subgroup G =
    Ok {| Subgroup.parent_group_ := G; Subgroup.subset_ := carrier |} /\
  valid_subgroup {| Subgroup.parent_group_ := G; Subgroup.subset_ := carrier |}.
Proof.
  unfold Subgroup.improper_subgroup, get_set.
  apply (Subgroup_ctor_succeeds G VG).
  - apply (vg_set G VG).
  - pose proof (carrier_nonempty G VG) as Hne. intros Heq. rewrite Heq in Hne.
    simpl in Hne. lia.
  - auto.
  - intros a b Ha Hb. apply (op_in G VG); [exact Ha|]. apply (inv_in G VG), Hb.
Qed.

Lemma NormalSubgroup_ctor_succeeds (H : Subgroup.t) :
  valid_subgroup H -> conjugation_closed H ->
  NormalSubgroup.ctor H = Ok {| NormalSubgroup.base := H |} /\
  NormalSubgroup.is_normal H = Ok true /\
  NormalSubgroup.verify_normal_via_cosets {| NormalSubgroup.base := H |} = Ok true.
Proof.
  intros VH Hc.
  pose proof (proj2 (verify_normal_true H VH) Hc) as Hv.
  split; [unfold NormalSubgroup.ctor; rewrite Hv; reflexivity|].
  split; [exact Hv|].
  apply (verify_normal_via_cosets_true H VH), (conjugation_closed_cosets H VH), Hc.
Qed.

Lemma trivial_conjugation_closed :
  conjugation_closed {| Subgroup.parent_group_ := G; Subgroup.subset_ := [e] |}.
Proof.
  intros g n Hg [<-|[]]. simpl. left.
  rewrite (op_e_r G VG) by exact Hg. symmetry. apply (op_inv_r G VG), Hg.
Qed.

Lemma improper_conjugation_closed :
  conjugation_closed {| Subgroup.parent_group_ := G; Subgroup.subset_ := carrier |}.
Proof.
  intros g n Hg Hn. simpl in *.
  apply (op_in G VG); [apply (op_in G VG); assumption | apply (inv_in G VG), Hg].
Qed.

Lemma abelian_conjugation_closed (H : Subgroup.t) :
  valid_subgroup H -> Subgroup.parent_group H = G ->
  is_abelian G = Ok true -> conjugation_closed H.
Proof.
  intros VH HG Hab g n Hg Hn. rewrite HG in *.
  unfold is_abelian in Hab.
  pose proof (proj1 (is_commutative_true G VG) Hab) as Hcomm.
  pose proof (sub_in H VH n Hn) as Hnc. rewrite HG in Hnc.
  rewrite (Hcomm g n Hg Hnc).
  rewrite (op_assoc G VG) by (try assumption; apply (inv_in G VG), Hg).
  rewrite (op_inv_r G VG), (op_e_r G VG) by assumption. exact Hn.
Qed.

Lemma possible_subgroup_orders_valid :
  is_set (LagrangesTheorem.possible_subgroup_orders G) /\
  forall d, In d (LagrangesTheorem.possible_subgroup_orders G) <->
            1 <= d /\ length carrier mod d = 0.
Proof.
  unfold LagrangesTheorem.possible_subgroup_orders, size, get_set.
  fold (insert_if (fun d => length carrier mod d =? 0) (seq 1 (length carrier)) []).
  split; [apply is_set_insert_if; exact I|].
  intros d. rewrite In_insert_if, in_seq, Nat.eqb_eq. simpl. split.
  - intros [[[Hd _] Hmod]|[]]. auto.
  - intros [Hd Hmod]. left. split; [|exact Hmod]. split; [exact Hd|].
    destruct (Nat.le_gt_cases d (length carrier)) as [Hle|Hgt]; [lia|].
    rewrite Nat.mod_small in Hmod by exact Hgt.
    pose proof (carrier_nonempty G VG). lia.
Qed.

Lemma order_divides_group_order_valid (H : Subgroup.t) :
  valid_subgroup H -> Subgroup.parent_group H = G ->
  LagrangesTheorem.order_divides_group_order G H = Ok true /\
  1 <= Subgroup.size H /\ length carrier mod Subgroup.size H = 0.
Proof.
  intros VH HG.
  destruct (find_all_cosets_partition H VH) as [cosets [_ CP]].
  pose proof (lagrange_count H VH cosets CP) as Hcount. rewrite HG in Hcount.
  assert (Hmod : length carrier mod Subgroup.size H = 0).
  { unfold Subgroup.size, size. unfold Subgroup.get_subset in Hcount.
    rewrite Hcount, Nat.mul_comm. apply Nat.Div0.mod_mul. }
  assert (Hpos : 1 <= Subgroup.size H).
  { unfold Subgroup.size, size. pose proof (sub_e H VH) as He.
    unfold Subgroup.get_subset in He.
    destruct (Subgroup.subset_ H); [destruct He | simpl; lia]. }
  split; [|auto].
  unfold LagrangesTheorem.order_divides_group_order, size, get_set.
  destruct (Subgroup.size H) as [|k] eqn:Hk; [lia|].
  rewrite Hmod. reflexivity.
Qed.

End SpecialSubgroups.

(** X16: on a valid group [trivial_subgroup], [improper_subgroup],
    [trivial_normal_subgroup] and [improper_normal_subgroup] never throw:
    the set of the identity alone and the whole carrier pass the subgroup
    criterion and the normality test. *)
Theorem trivial_and_improper_subgroups_are_normal
    {T : Type} {E : Element T} {L : ElementLaws T}
    (elements : list T) (op : T -> T -> T) (e : T) (inv : T -> T) (G : Group) :
  is_set elements -> Group_ctor elements op e inv = Ok G ->
  exists Ht Hi,
    Subgroup.trivial_subgroup G = Ok Ht /\
    Subgroup.get_subset Ht = [identity G] /\
    Subgroup.improper_subgroup G = Ok Hi /\
    Subgroup.get_subset Hi = get_set G /\
    NormalSubgroup.trivial_normal_subgroup G = Ok {| NormalSubgroup.base := Ht |} /\
    NormalSubgroup.improper_normal_subgroup G = Ok {| NormalSubgroup.base := Hi |}.
Proof.
  intros Hset HG. pose proof (Group_ctor_valid elements op e inv G Hset HG) as VG.
  destruct (trivial_subgroup_valid G VG) as [Ht VHt].
  destruct (improper_subgroup_valid G VG) as [Hi VHi].
  eexists. eexists.
  split; [exact Ht|]. split; [reflexivity|].
  split; [exact Hi|]. split; [reflexivity|].
  unfold NormalSubgroup.trivial_normal_subgroup, NormalSubgroup.improper_normal_subgroup.
  rewrite Ht, Hi. simpl bind. split.
  - apply (NormalSubgroup_ctor_succeeds _ VHt (trivial_conjugation_closed G VG)).
  - apply (NormalSubgroup_ctor_succeeds _ VHi (improper_conjugation_closed G VG)).
Qed.

Lemma trivial_and_improper_subgroups_are_normal_witness :
  exists Ht Hi,
    Subgroup.trivial_subgroup Examples.GS3 = Ok Ht /\
    Subgroup.get_subset Ht = [identity Examples.GS3] /\
    Subgroup.improper_subgroup Examples.GS3 = Ok Hi /\
    Subgroup.get_subset Hi = get_set Examples.GS3 /\
    NormalSubgroup.trivial_normal_subgroup Examples.GS3 = Ok {| NormalSubgroup.base := Ht |} /\
    NormalSubgroup.improper_normal_subgroup Examples.GS3 = Ok {| NormalSubgroup.base := Hi |}.
Proof.
  apply (trivial_and_improper_subgroups_are_normal Scenario.S3 Scenario.mulS3 0%Z
           Scenario.invS3 Examples.GS3).
  - apply is_set_make_set.
  - by_evaluation.
Defined.

(** X17: every validated subgroup of a valid group for which
    [is_normal_in_abelian_group] answers true is normal: both constructors
    of [NormalSubgroup] accept it, and [is_normal] and
    [verify_normal_via_cosets] answer true. *)
Theorem subgroup_of_abelian_group_is_normal
    {T : Type} {E : Element T} {L : ElementLaws T}
    (elements : list T) (op : T -> T -> T) (e : T) (inv : T -> T) (G : Group)
    (subset : list T) (H : Subgroup.t) :
  is_set elements -> Group_ctor elements op e inv = Ok G ->
  is_set subset -> Subgroup.ctor G subset = Ok H ->
  NormalSubgroup.is_normal_in_abelian_group H = Ok true ->
  NormalSubgroup.ctor H = Ok {| NormalSubgroup.base := H |} /\
  NormalSubgroup.ctor_from_subset G subset = Ok {| NormalSubgroup.base := H |} /\
  NormalSubgroup.is_normal H = Ok true /\
  NormalSubgroup.verify_normal_via_cosets {| NormalSubgroup.base := H |} = Ok true.
Proof.
  intros Hset HG Hsub HH Hab.
  pose proof (Group_ctor_valid elements op e inv G Hset HG) as VG.
  destruct (Subgroup_ctor_valid G subset H VG Hsub HH) as [VH HeqH].
  assert (HGH : Subgroup.parent_group H = G) by (subst H; reflexivity).
  unfold NormalSubgroup.is_normal_in_abelian_group in Hab. rewrite HGH in Hab.
  pose proof (abelian_conjugation_closed G VG H VH HGH Hab) as Hc.
  destruct (NormalSubgroup_ctor_succeeds H VH Hc) as [Hctor [Hn Hv]].
  split; [exact Hctor|]. split; [|split; assumption].
  unfold NormalSubgroup.ctor_from_subset. rewrite HH. simpl bind.
  change (NormalSubgroup.verify_normal {| NormalSubgroup.base := H |})
    with (NormalSubgroup.is_normal H).
  rewrite Hn. reflexivity.
Qed.

Lemma subgroup_of_abelian_group_is_normal_witness :
  NormalSubgroup.ctor Examples.H6 = Ok {| NormalSubgroup.base := Examples.H6 |} /\
  NormalSubgroup.ctor_from_subset Examples.G6 (make_set [0; 3]%Z) =
    Ok {| NormalSubgroup.base := Examples.H6 |} /\
  NormalSubgroup.is_normal Examples.H6 = Ok true /\
  NormalSubgroup.verify_normal_via_cosets {| NormalSubgroup.base := Examples.H6 |} = Ok true.
Proof.
  apply (subgroup_of_abelian_group_is_normal Scenario.Z6 Scenario.add6 0%Z Scenario.neg6
           Examples.G6 (make_set [0; 3]%Z) Examples.H6).
  - apply is_set_make_set.
  - by_evaluation.
  - apply is_set_make_set.
  - by_evaluation.
  - by_evaluation.
Defined.

(** X18: the order of a validated subgroup of a valid group divides the
    order of the group: [order_divides_group_order] answers true without
    dividing by zero, and the order is one of [possible_subgroup_orders],
    which is the increasing list of exactly the divisors of the order of
    the group. *)
Theorem subgroup_order_is_a_possible_order
    {T : Type} {E : Element T} {L : ElementLaws T}
    (elements : list T) (op : T -> T -> T) (e : T) (inv : T -> T) (G : Group)
    (subset : list T) (H : Subgroup.t) :
  is_set elements -> Group_ctor elements op e inv = Ok G ->
  is_set subset -> Subgroup.ctor G subset = Ok H ->
  LagrangesTheorem.order_divides_group_order G H = Ok true /\
  In (Subgroup.size H) (LagrangesTheorem.possible_subgroup_orders G) /\
  is_set (LagrangesTheorem.possible_subgroup_orders G) /\
  (forall d, In d (LagrangesTheorem.possible_subgroup_orders G) <->
             1 <= d /\ size (get_set G) mod d = 0).
Proof.
  intros Hset HG Hsub HH.
  pose proof (Group_ctor_valid elements op e inv G Hset HG) as VG.
  destruct (Subgroup_ctor_valid G subset H VG Hsub HH) as [VH HeqH].
  assert (HGH : Subgroup.parent_group H = G) by (subst H; reflexivity).
  destruct (order_divides_group_order_valid G H VH HGH) as [Hdiv [Hpos Hmod]].
  destruct (possible_subgroup_orders_valid G VG) as [Hs Hmem].
  split; [exact Hdiv|]. split; [apply Hmem; auto|]. split; [exact Hs|exact Hmem].
Qed.

Lemma subgroup_order_is_a_possible_order_witness :
  LagrangesTheorem.order_divides_group_order Examples.GS3 Examples.HS3 = Ok true /\
  In (Subgroup.size Examples.HS3) (LagrangesTheorem.possible_subgroup_orders Examples.GS3) /\
  is_set (LagrangesTheorem.possible_subgroup_orders Examples.GS3) /\
  (forall d, In d (LagrangesTheorem.possible_subgroup_orders Examples.GS3) <->
             1 <= d /\ size (get_set Examples.GS3) mod d = 0).
Proof.
  apply (subgroup_order_is_a_possible_order Scenario.S3 Scenario.mulS3 0%Z Scenario.invS3
           Examples.GS3 (make_set [0; 1]%Z) Examples.HS3).
  - apply is_set_make_set.
  - by_evaluation.
  - apply is_set_make_set.
  - by_evaluation.
Defined.

(** ** The factor group is a group *)

Section FactorGroupFacts.
Context {T : Type} {E : Element T} {L : ElementLaws T}.
Variable H : Subgroup.t (T := T).
Hypothesis VH : valid_subgroup H.
Hypothesis NH : conjugation_closed H.

Local Abbreviation G := (Subgroup.parent_group H).
Local Abbreviation carrier := (elements_ G).
Local Abbreviation op := (operation_ G).
Local Abbreviation e := (identity G).
Local Abbreviation inv := (inverse_func_ G).
Local Abbreviation subset := (Subgroup.get_subset H).

Let VG : valid_group G := vs_group H VH.

Lemma left_coset_identity : left_coset G subset e = subset.
Proof.
  apply is_set_ext; [apply is_set_make_set | apply (vs_set H VH) |].
  intros x. rewrite (In_left_coset H). split.
  - intros [h [Hh ->]]. rewrite (op_e_l G VG) by (apply (sub_in H VH), Hh). exact Hh.
  - intros Hx. exists x. split; [exact Hx|].
    symmetry. apply (op_e_l G VG), (sub_in H VH), Hx.
Qed.

Lemma inverse_in_coset (r a : T) :
  In r carrier -> In a (left_coset G subset r) ->
  In (inv a) (left_coset G subset (inv r)).
Proof.
  intros Hr Ha. apply (In_left_coset H) in Ha. destruct Ha as [n [Hn ->]].
  pose proof (sub_in H VH n Hn) as Hnc.
  pose proof (inv_in G VG r Hr) as Hir.
  pose proof (inv_in G VG n Hnc) as Hin.
  apply (In_left_coset H). exists (op (op r (inv n)) (inv r)). split.
  - apply NH; [exact Hr | apply (sub_inv H VH), Hn].
  - rewrite (inv_op G VG) by assumption.
    assert (Hin' : forall x y, In x carrier -> In y carrier -> In (op x y) carrier)
      by (apply (op_in G VG)).
    rewrite <- (op_assoc G VG (inv r)) by auto.
    rewrite <- (op_assoc G VG (inv r) r) by auto.
    rewrite (op_inv_l G VG), (op_e_l G VG) by auto. reflexivity.
Qed.

Variable cosets : list (list T).
Hypothesis CP : coset_partition H cosets.

Lemma left_coset_in_partition (x : T) : In x carrier -> In (left_coset G subset x) cosets.
Proof.
  intros Hx. destruct (cp_cover H _ CP x Hx) as [c [Hc Hxc]].
  rewrite <- (partition_coset_of H VH cosets CP c x Hc Hxc). exact Hc.
Qed.

Variable F : FactorGroup.t (T := T).
Hypothesis HF : F = {| FactorGroup.parent_group_ := G;
                       FactorGroup.normal_subgroup_ := {| NormalSubgroup.base := H |};
                       FactorGroup.cosets_ := cosets;
                       FactorGroup.element_to_coset_ := coset_map cosets [] |}.

Lemma FactorGroup_identity_valid : FactorGroup.identity F = Ok subset.
Proof.
  unfold FactorGroup.identity.
  replace (FactorGroup.parent_group_ F) with G by (rewrite HF; reflexivity).
  rewrite (find_coset_containing_valid H VH cosets CP F HF) by (apply (e_in G VG)).
  rewrite left_coset_identity. reflexivity.
Qed.

Lemma subset_in_partition : In subset cosets.
Proof. rewrite <- left_coset_identity. apply left_coset_in_partition, (e_in G VG). Qed.

Lemma FactorGroup_inverse_valid (c : list T) (a : T) :
  In c cosets -> In a c ->
  FactorGroup.inverse F c = Ok (left_coset G subset (inv a)).
Proof.
  intros Hc Ha. unfold FactorGroup.inverse.
  replace (FactorGroup.cosets_ F) with cosets by (rewrite HF; reflexivity).
  replace (FactorGroup.parent_group_ F) with G by (rewrite HF; reflexivity).
  rewrite (proj2 (contains_In cosets c) Hc). simpl.
  pose proof (partition_in_carrier H VH cosets CP c a Hc Ha) as Hac.
  destruct c as [|r c']; [destruct Ha|]. simpl first_element. simpl bind.
  assert (Hr : In r (r :: c')) by (left; reflexivity).
  pose proof (partition_in_carrier H VH cosets CP _ r Hc Hr) as Hrc.
  rewrite (inverse_valid G VG) by exact Hrc. simpl.
  rewrite (find_coset_containing_valid H VH cosets CP F HF) by (apply (inv_in G VG), Hrc).
  f_equal. symmetry. apply (left_coset_absorb H VH); [apply (inv_in G VG), Hrc|].
  apply inverse_in_coset; [exact Hrc|].
  rewrite <- (partition_coset_of H VH cosets CP _ r Hc Hr). exact Ha.
Qed.

Local Abbreviation operate_valid' := (FactorGroup_operate_valid H VH NH cosets CP F HF).

Lemma verify_factor_group_valid : FactorGroup.verify_factor_group F = Ok true.
Proof.
  unfold FactorGroup.verify_factor_group.
  rewrite FactorGroup_identity_valid. simpl bind.
  replace (FactorGroup.cosets_ F) with cosets by (rewrite HF; reflexivity).
  pose proof subset_in_partition as HN.
  pose proof (sub_e H VH) as HeN.
  pose proof (e_in G VG) as Hec.
  assert (Hin : forall x y, In x carrier -> In y carrier -> In (op x y) carrier)
    by (apply (op_in G VG)).
  assert (Hfirst : forall c, In c cosets -> exists a, In a c /\ In a carrier /\
                                                      c = left_coset G subset a).
  { intros c Hc. destruct (cp_left H _ CP c Hc) as [g [Hg Heq]].
    exists g. split; [|auto]. rewrite Heq. apply (left_coset_self H VH), Hg. }
  rewrite (proj2 (for_all_true _ cosets)); [simpl|].
  2: { intros c Hc. destruct (Hfirst c Hc) as [a [Ha [Hac Heq]]].
       rewrite (operate_valid' subset c e a HN Hc HeN Ha). simpl.
       rewrite (operate_valid' c subset a e Hc HN Ha HeN). simpl.
       rewrite (op_e_l G VG), (op_e_r G VG) by exact Hac. rewrite <- Heq.
       rewrite (proj2 (set_eq_spec c c) eq_refl). reflexivity. }
  rewrite (proj2 (for_all_true _ cosets)); [simpl|].
  2: { intros c Hc. destruct (Hfirst c Hc) as [a [Ha [Hac Heq]]].
       pose proof (inv_in G VG a Hac) as Hia.
       rewrite (FactorGroup_inverse_valid c a Hc Ha). simpl.
       pose proof (left_coset_in_partition (inv a) Hia) as Hic.
       pose proof (left_coset_self H VH (inv a) Hia) as Hiac.
       rewrite (operate_valid' c _ a (inv a) Hc Hic Ha Hiac). simpl.
       rewrite (operate_valid' _ c (inv a) a Hic Hc Hiac Ha). simpl.
       rewrite (op_inv_r G VG), (op_inv_l G VG) by exact Hac.
       rewrite left_coset_identity.
       rewrite (proj2 (set_eq_spec subset subset) eq_refl). reflexivity. }
  apply for_all_true. intros a Ha. apply for_all_true. intros b Hb.
  apply for_all_true. intros c Hc.
  destruct (Hfirst a Ha) as [x [Hx [Hxc _]]].
  destruct (Hfirst b Hb) as [y [Hy [Hyc _]]].
  destruct (Hfirst c Hc) as [z [Hz [Hzc _]]].
  rewrite (operate_valid' a b x y Ha Hb Hx Hy). simpl.
  rewrite (operate_valid' _ c (op x y) z (left_coset_in_partition _ (Hin x y Hxc Hyc)) Hc
             (left_coset_self H VH _ (Hin x y Hxc Hyc)) Hz). simpl.
  rewrite (operate_valid' b c y z Hb Hc Hy Hz). simpl.
  rewrite (operate_valid' a _ x (op y z) Ha (left_coset_in_partition _ (Hin y z Hyc Hzc))
             Hx (left_coset_self H VH _ (Hin y z Hyc Hzc))). simpl.
  rewrite (op_assoc G VG) by assumption.
  f_equal. apply set_eq_spec. reflexivity.
Qed.

End FactorGroupFacts.

Lemma FactorGroup_ctor_valid {T : Type} {E : Element T} {L : ElementLaws T}
    (G : Group) (subset : list T) (N : NormalSubgroup.t) (F : FactorGroup.t) :
  valid_group G -> is_set subset ->
  (NormalSubgroup.ctor_from_subset G subset = Ok N \/
   exists H, Subgroup.ctor G subset = Ok H /\ NormalSubgroup.ctor H = Ok N) ->
  FactorGroup.ctor G N = Ok F ->
  let H := {| Subgroup.parent_group_ := G; Subgroup.subset_ := subset |} in
  valid_subgroup H /\ conjugation_closed H /\
  exists cosets,
    coset_partition H cosets /\
    F = {| FactorGroup.parent_group_ := G;
           FactorGroup.normal_subgroup_ := {| NormalSubgroup.base := H |};
           FactorGroup.cosets_ := cosets;
           FactorGroup.element_to_coset_ := coset_map cosets [] |}.
Proof.
  intros VG Hsub HN HF.
  assert (HH : exists H, Subgroup.ctor G subset = Ok H /\ NormalSubgroup.ctor H = Ok N).
  { destruct HN as [HN|HN]; [|exact HN].
    apply NormalSubgroup_ctor_from_subset_valid; assumption. }
  destruct HH as [H [HH HNc]].
  destruct (Subgroup_ctor_valid G subset H VG Hsub HH) as [VH HeqH].
  destruct (NormalSubgroup_ctor_valid H N VH HNc) as [HeqN NH].
  subst H. simpl. split; [exact VH|]. split; [exact NH|].
  destruct (find_all_cosets_partition _ VH) as [cosets [Hfind CP]].
  exists cosets. split; [exact CP|].
  unfold FactorGroup.ctor, FactorGroup.build_coset_set in HF.
  rewrite HeqN in HF. simpl in HF, Hfind. rewrite Hfind in HF. simpl in HF.
  injection HF as HF. symmetry. exact HF.
Qed.

(** X19: the factor group built from a valid group and a normal subgroup
    [N] is a group: [verify_factor_group] returns true without throwing,
    [identity] returns [N] itself, which is one of the cosets, [inverse]
    of the coset of [a] returns the coset of the inverse of [a] whichever
    element [a] of the coset is taken, and the number of cosets times the
    order of [N] is the order of the group. *)
Theorem factor_group_is_a_group {T : Type} {E : Element T} {L : ElementLaws T}
    (elements : list T) (op : T -> T -> T) (e : T) (inv : T -> T) (G : Group)
    (subset : list T) (N : NormalSubgroup.t) (F : FactorGroup.t) :
  is_set elements -> Group_ctor elements op e inv = Ok G ->
  is_set subset ->
  (NormalSubgroup.ctor_from_subset G subset = Ok N \/
   exists H, Subgroup.ctor G subset = Ok H /\ NormalSubgroup.ctor H = Ok N) ->
  FactorGroup.ctor G N = Ok F ->
  FactorGroup.verify_factor_group F = Ok true /\
  FactorGroup.identity F = Ok subset /\
  In subset (FactorGroup.get_cosets F) /\
  (forall c a, In c (FactorGroup.get_cosets F) -> In a c ->
     FactorGroup.inverse F c = Ok (left_coset G subset (inv a)) /\
     In (left_coset G subset (inv a)) (FactorGroup.get_cosets F) /\
     FactorGroup.operate F c (left_coset G subset (inv a)) = Ok subset) /\
  size (get_set G) = (size subset * FactorGroup.size F)%nat.
Proof.
  intros Hset HG Hsub HN HF.
  pose proof (Group_ctor_valid elements op e inv G Hset HG) as VG.
  assert (Hinv : inverse_func_ G = inv).
  { apply Group_ctor_Ok in HG. destruct HG as [_ [_ [_ [_ ->]]]]. reflexivity. }
  destruct (FactorGroup_ctor_valid G subset N F VG Hsub HN HF)
    as [VH [NH [cosets [CP HeqF]]]].
  set (H := {| Subgroup.parent_group_ := G; Subgroup.subset_ := subset |}) in *.
  unfold FactorGroup.get_cosets, FactorGroup.size.
  replace (FactorGroup.cosets_ F) with cosets by (rewrite HeqF; reflexivity).
  split; [apply (verify_factor_group_valid H VH NH cosets CP F HeqF)|].
  split; [apply (FactorGroup_identity_valid H VH cosets CP F HeqF)|].
  split; [apply (subset_in_partition H VH cosets CP)|].
  split; [|apply (lagrange_count H VH cosets CP)].
  intros c a Hc Ha. rewrite <- Hinv.
  pose proof (partition_in_carrier H VH cosets CP c a Hc Ha) as Hac. simpl in Hac.
  pose proof (inv_in G VG a Hac) as Hia.
  split; [apply (FactorGroup_inverse_valid H VH NH cosets CP F HeqF c a Hc Ha)|].
  split; [apply (left_coset_in_partition H VH cosets CP), Hia|].
  pose proof (FactorGroup_operate_valid H VH NH cosets CP F HeqF c _ a (inverse_func_ G a) Hc
                (left_coset_in_partition H VH cosets CP _ Hia) Ha
                (left_coset_self H VH _ Hia)) as Hop.
  pose proof (left_coset_identity H VH) as Hid.
  unfold H in Hop, Hid. simpl in Hop, Hid.
  rewrite (op_inv_r G VG) in Hop by exact Hac.
  rewrite Hop, Hid. reflexivity.
Qed.

Lemma factor_group_is_a_group_witness :
  FactorGroup.verify_factor_group FactorExample.F6 = Ok true /\
  FactorGroup.identity FactorExample.F6 = Ok (make_set [0; 3]%Z) /\
  In (make_set [0; 3]%Z) (FactorGroup.get_cosets FactorExample.F6) /\
  (forall c a, In c (FactorGroup.get_cosets FactorExample.F6) -> In a c ->
     FactorGroup.inverse FactorExample.F6 c =
       Ok (left_coset Examples.G6 (make_set [0; 3]%Z) (Scenario.neg6 a)) /\
     In (left_coset Examples.G6 (make_set [0; 3]%Z) (Scenario.neg6 a))
        (FactorGroup.get_cosets FactorExample.F6) /\
     FactorGroup.operate FactorExample.F6 c
       (left_coset Examples.G6 (make_set [0; 3]%Z) (Scenario.neg6 a)) =
       Ok (make_set [0; 3]%Z)) /\
  size (get_set Examples.G6) = (size (make_set [0; 3]%Z) * FactorGroup.size FactorExample.F6)%nat.
Proof.
  apply (factor_group_is_a_group Scenario.Z6 Scenario.add6 0%Z Scenario.neg6 Examples.G6
           (make_set [0; 3]%Z) FactorExample.N6 FactorExample.F6).
  - apply is_set_make_set.
  - by_evaluation.
  - apply is_set_make_set.
  - left. by_evaluation.
  - by_evaluation.
Defined.

(** ** Powers and products in a semigroup and in a monoid *)

Section SemigroupFacts.
Context {T : Type} {E : Element T} {L : ElementLaws T}.
Variable S : Semigroup (T := T).
Hypothesis VS : valid_semigroup S.

Local Abbreviation carrier := (elements_ S).
Local Abbreviation op := (operation_ S).

Lemma sg_closed (a b : T) : In a carrier -> In b carrier -> In (op a b) carrier.
Proof. apply (proj1 VS). Qed.

Lemma sg_assoc (a b c : T) :
  In a carrier -> In b carrier -> In c carrier -> op (op a b) c = op a (op b c).
Proof. apply (proj2 VS). Qed.

Lemma sg_operate (a b : T) :
  In a carrier -> In b carrier -> operate S a b = Ok (op a b).
Proof. intros Ha Hb. apply operate_Ok; auto using sg_closed. Qed.

Lemma pow1_in (a : T) (n : nat) : In a carrier -> In (pow1 op a n) carrier.
Proof. intros Ha. induction n as [|n IH]; simpl; auto using sg_closed. Qed.

Lemma pow1_add (a : T) (m n : nat) :
  In a carrier -> op (pow1 op a m) (pow1 op a n) = pow1 op a (Datatypes.S (m + n)).
Proof.
  intros Ha. induction n as [|n IH].
  - rewrite Nat.add_0_r. reflexivity.
  - rewrite Nat.add_succ_r. simpl. simpl in IH. rewrite <- IH.
    symmetry. apply sg_assoc; auto using pow1_in.
Qed.

Lemma pow1_square (c : T) (n : nat) :
  In c carrier -> pow1 op (op c c) n = pow1 op c (Datatypes.S (n + n)).
Proof.
  intros Hc. induction n as [|n IH]; [reflexivity|].
  rewrite Nat.add_succ_r. simpl. simpl in IH. rewrite IH.
  symmetry. apply sg_assoc; auto using pow1_in.
  change (In (pow1 op c (Datatypes.S (n + n))) carrier). apply pow1_in, Hc.
Qed.

Lemma square_and_multiply_valid (exp : positive) :
  forall result current_power, In result carrier -> In current_power carrier ->
    square_and_multiply S result current_power exp =
    Ok (op result (pow1 op current_power (Pos.to_nat exp - 1))).
Proof.
  induction exp as [exp IH|exp IH|]; intros r c Hr Hc; simpl square_and_multiply.
  - rewrite !sg_operate by assumption. simpl bind.
    rewrite IH by auto using sg_closed.
    rewrite pow1_square by exact Hc.
    pose proof (Pos2Nat.is_pos exp) as Hpos.
    rewrite sg_assoc by auto using pow1_in.
    f_equal. f_equal.
    etransitivity; [exact (pow1_add c 0 _ Hc)|].
    f_equal. rewrite Pos2Nat.inj_xI. lia.
  - rewrite !sg_operate by assumption. simpl bind.
    rewrite IH by auto using sg_closed.
    rewrite pow1_square by exact Hc. f_equal. f_equal. f_equal.
    pose proof (Pos2Nat.is_pos exp). rewrite Pos2Nat.inj_xO. lia.
  - rewrite !sg_operate by assumption. reflexivity.
Qed.

Lemma Semigroup_power_valid (a : T) (n : nat) :
  In a carrier -> 1 <= n -> Semigroup_power S a (N.of_nat n) = Ok (pow1 op a (n - 1)).
Proof.
  intros Ha Hn. destruct n as [|n]; [lia|].
  unfold Semigroup_power. simpl N.of_nat.
  pose proof (SuccNat2Pos.id_succ n) as Hn'.
  assert (Hgen : forall q, (1 < q)%positive -> Pos.to_nat q = Datatypes.S n ->
            square_and_multiply S a a (Pos.pred q) = Ok (pow1 op a (Datatypes.S n - 1))).
  { intros q Hq Hqn. rewrite square_and_multiply_valid by exact Ha.
    f_equal. etransitivity; [exact (pow1_add a 0 _ Ha)|].
    f_equal. rewrite Pos2Nat.inj_pred by exact Hq.
    pose proof (Pos2Nat.inj_lt 1 q) as Hlt. apply Hlt in Hq. simpl in Hq. lia. }
  destruct (Pos.of_succ_nat n) as [p|p|] eqn:Hp.
  - apply Hgen; [reflexivity | exact Hn'].
  - apply Hgen; [reflexivity | exact Hn'].
  - simpl in Hn'. injection Hn' as <-. reflexivity.
Qed.

Lemma product_fold (first : T) (rest : list T) :
  In first carrier -> (forall x, In x rest -> In x carrier) ->
  product S (first :: rest) = Ok (fold_left op rest first) /\
  In (fold_left op rest first) carrier.
Proof.
  revert first. induction rest as [|x rest IH]; intros first Hf Hrest.
  - split; [reflexivity | exact Hf].
  - assert (Hx : In x carrier) by (apply Hrest; left; reflexivity).
    destruct (IH (op first x) (sg_closed _ _ Hf Hx)
                (fun y Hy => Hrest y (or_intror Hy))) as [IH1 IH2].
    split; [|exact IH2].
    simpl in *. rewrite sg_operate by assumption. exact IH1.
Qed.

Lemma product_repeat (a : T) (n : nat) :
  In a carrier -> product S (repeat a (Datatypes.S n)) = Ok (pow1 op a n).
Proof.
  intros Ha. simpl repeat.
  rewrite (proj1 (product_fold a (repeat a n) Ha
                    (fun x Hx => eq_ind_r (fun y => In y carrier) Ha (repeat_spec n a x Hx)))).
  f_equal.
  assert (Hgen : forall m k, fold_left op (repeat a m) (pow1 op a k) = pow1 op a (k + m)).
  { induction m as [|m IH]; intros k; simpl.
    - rewrite Nat.add_0_r. reflexivity.
    - change (op (pow1 op a k) a) with (pow1 op a (Datatypes.S k)).
      rewrite IH. f_equal. lia. }
  apply (Hgen n 0).
Qed.

End SemigroupFacts.

Section MonoidFacts.
Context {T : Type} {E : Element T} {L : ElementLaws T}.
Variable M : Monoid (T := T).
Hypothesis VM : valid_monoid M.

Local Abbreviation carrier := (elements_ M).
Local Abbreviation op := (operation_ M).
Local Abbreviation e := (identity_ M).

Let VS : valid_semigroup M := proj1 VM.

Lemma m_e_in : In e carrier.
Proof. apply (proj2 VM). Qed.

Lemma m_e_l (a : T) : In a carrier -> op e a = a.
Proof. intros Ha. apply (proj2 (proj2 VM) a Ha). Qed.

Lemma m_e_r (a : T) : In a carrier -> op a e = a.
Proof. intros Ha. apply (proj2 (proj2 VM) a Ha). Qed.

Lemma Monoid_power_valid (a : T) (n : nat) :
  In a carrier -> 1 <= n -> Monoid_power M a (N.of_nat n) = Ok (pow1 op a (n - 1)).
Proof.
  intros Ha Hn. destruct n as [|n]; [lia|].
  unfold Monoid_power. simpl N.of_nat.
  pose proof (SuccNat2Pos.id_succ n) as Hn'.
  assert (Hgen : forall q, Pos.to_nat q = Datatypes.S n ->
            square_and_multiply M e a q = Ok (pow1 op a (Datatypes.S n - 1))).
  { intros q Hqn. rewrite (square_and_multiply_valid M VS) by (try apply m_e_in; exact Ha).
    rewrite m_e_l by (apply (pow1_in M VS), Ha). rewrite Hqn. reflexivity. }
  destruct (Pos.of_succ_nat n) as [p|p|] eqn:Hp.
  - apply Hgen, Hn'.
  - apply Hgen, Hn'.
  - simpl in Hn'. injection Hn' as <-. reflexivity.
Qed.

Lemma Monoid_power_outside (a : T) (n : nat) :
  ~ In a carrier -> 2 <= n ->
  Monoid_power M a (N.of_nat n) = Throw (domain_error "Elements not in groupoid").
Proof.
  intros Ha Hn. destruct n as [|[|n]]; try lia.
  unfold Monoid_power. simpl N.of_nat.
  destruct (Pos.succ (Pos.of_succ_nat n)) as [p|p|] eqn:Hp.
  - simpl. rewrite operate_outside by auto. reflexivity.
  - simpl. rewrite operate_outside by auto. reflexivity.
  - exfalso. pose proof (f_equal Pos.to_nat Hp) as Hn'.
    rewrite Pos2Nat.inj_succ, SuccNat2Pos.id_succ in Hn'. simpl in Hn'. lia.
Qed.

(** The identity search *)

Lemma is_identity_candidate_valid (S : Semigroup) (c : T) :
  valid_semigroup S -> In c (elements_ S) ->
  is_identity_candidate S c =
  Ok (forallb (fun a => eq_op (operation_ S c a) a && eq_op (operation_ S a c) a)
        (elements_ S)).
Proof.
  intros HS Hc. unfold is_identity_candidate. apply for_all_forallb. intros a Ha.
  rewrite !(sg_operate S HS) by assumption. simpl.
  destruct (eq_op (operation_ S c a) a); reflexivity.
Qed.

Lemma identity_candidate_true (S : Semigroup) (c : T) :
  forallb (fun a => eq_op (operation_ S c a) a && eq_op (operation_ S a c) a)
    (elements_ S) = true <->
  (forall a, In a (elements_ S) -> operation_ S c a = a /\ operation_ S a c = a).
Proof.
  rewrite forallb_forall. split; intros H a Ha; specialize (H a Ha).
  - apply andb_true_iff in H. rewrite !eq_op_spec in H. exact H.
  - apply andb_true_iff. rewrite !eq_op_spec. exact H.
Qed.

Lemma find_identity_search (S : Semigroup) :
  valid_semigroup S ->
  find_first (is_identity_candidate S) (elements_ S) =
  Ok (find (fun c => forallb (fun a => eq_op (operation_ S c a) a &&
                                       eq_op (operation_ S a c) a) (elements_ S))
        (elements_ S)).
Proof.
  intros HS. apply find_first_find. intros c Hc. apply is_identity_candidate_valid; assumption.
Qed.

Lemma find_identity_valid : find_identity M = Ok e.
Proof.
  unfold find_identity. rewrite (find_identity_search M VS). simpl bind.
  destruct (find _ carrier) as [c|] eqn:Hfind.
  - apply find_some in Hfind. destruct Hfind as [Hc Hf].
    pose proof (proj1 (identity_candidate_true M c) Hf) as Hid.
    f_equal. rewrite <- (m_e_r c Hc). apply (Hid e m_e_in).
  - exfalso. pose proof (find_none _ _ Hfind e m_e_in) as Hf. simpl in Hf.
    assert (Ht : forallb (fun a => eq_op (op e a) a && eq_op (op a e) a) carrier = true).
    { apply (identity_candidate_true M e). intros a Ha. split; [apply m_e_l | apply m_e_r]; exact Ha. }
    congruence.
Qed.

(** The invertible elements *)

Lemma is_inverse_pair_valid (a b : T) :
  In a carrier -> In b carrier -> is_inverse_pair M a b = Ok (inverse_pair M a b).
Proof.
  intros Ha Hb. unfold is_inverse_pair, inverse_pair.
  rewrite !(sg_operate M VS) by assumption. simpl.
  destruct (eq_op (op a b) e); reflexivity.
Qed.

Lemma inverse_pair_true (a b : T) : inverse_pair M a b = true <-> op a b = e /\ op b a = e.
Proof. unfold inverse_pair. rewrite andb_true_iff, !eq_op_spec. tauto. Qed.

Lemma inverse_search (a : T) :
  In a carrier ->
  find_first (is_inverse_pair M a) carrier = Ok (find (inverse_pair M a) carrier).
Proof.
  intros Ha. apply find_first_find. intros b Hb. apply is_inverse_pair_valid; assumption.
Qed.

Lemma has_inverse_true (a : T) :
  has_inverse M a = true <-> exists b, In b carrier /\ op a b = e /\ op b a = e.
Proof.
  unfold has_inverse. destruct (find (inverse_pair M a) carrier) as [b|] eqn:Hfind.
  - apply find_some in Hfind. destruct Hfind as [Hb Hp]. apply inverse_pair_true in Hp.
    split; [intros _; exists b; auto | reflexivity].
  - split; [discriminate|]. intros [b [Hb Hp]].
    apply inverse_pair_true in Hp. pose proof (find_none _ _ Hfind b Hb). congruence.
Qed.

Lemma inverse_unique (a b b' : T) :
  In a carrier -> In b carrier -> In b' carrier ->
  op b a = e -> op a b' = e -> b = b'.
Proof.
  intros Ha Hb Hb' H1 H2.
  rewrite <- (m_e_r b Hb), <- H2, <- (sg_assoc M VS) by assumption.
  rewrite H1. apply m_e_l, Hb'.
Qed.

Lemma invertible_elements_valid :
  invertible_elements M = Ok (insert_if (has_inverse M) carrier []).
Proof.
  unfold invertible_elements. apply fold_each_fold_left. intros s a Ha.
  rewrite (inverse_search a Ha). simpl. unfold has_inverse.
  destruct (find (inverse_pair M a) carrier); reflexivity.
Qed.

Lemma In_units (x : T) :
  In x (insert_if (has_inverse M) carrier []) <->
  In x carrier /\ exists b, In b carrier /\ op x b = e /\ op b x = e.
Proof.
  rewrite In_insert_if, has_inverse_true. simpl. tauto.
Qed.

Lemma units_closed (x y : T) :
  In x (insert_if (has_inverse M) carrier []) -> In y (insert_if (has_inverse M) carrier []) ->
  In (op x y) (insert_if (has_inverse M) carrier []).
Proof.
  rewrite !In_units. intros [Hx [x' [Hx' [Hx1 Hx2]]]] [Hy [y' [Hy' [Hy1 Hy2]]]].
  assert (Hcl : forall a b, In a carrier -> In b carrier -> In (op a b) carrier)
    by (apply (sg_closed M VS)).
  split; [auto|]. exists (op y' x'). split; [auto|]. split.
  - rewrite (sg_assoc M VS x y) by auto.
    rewrite <- (sg_assoc M VS y y') by auto.
    rewrite Hy1, m_e_l by auto. exact Hx1.
  - rewrite (sg_assoc M VS y' x') by auto.
    rewrite <- (sg_assoc M VS x' x) by auto.
    rewrite Hx2, m_e_l by auto. exact Hy2.
Qed.

Lemma is_invertible_valid (x : T) :
  is_invertible M x = Ok (contains (insert_if (has_inverse M) carrier []) x).
Proof.
  unfold is_invertible. destruct (contains carrier x) eqn:Hx; simpl.
  - apply contains_In in Hx. rewrite (inverse_search x Hx). simpl.
    transitivity (Ok (has_inverse M x)).
    { unfold has_inverse. destruct (find (inverse_pair M x) carrier); reflexivity. }
    f_equal. apply eq_true_iff_eq.
    rewrite contains_In, In_insert_if. simpl.
    destruct (has_inverse M x); intuition congruence.
  - f_equal. symmetry. apply contains_false. apply contains_false in Hx.
    rewrite In_units. tauto.
Qed.

Lemma Monoid_inverse_valid (x : T) :
  In x (insert_if (has_inverse M) carrier []) ->
  exists b, Monoid_inverse M x = Ok b /\ In b (insert_if (has_inverse M) carrier []) /\
            op x b = e /\ op b x = e.
Proof.
  intros Hx. unfold Monoid_inverse. rewrite is_invertible_valid.
  rewrite (proj2 (contains_In _ _) Hx). simpl.
  apply In_units in Hx. destruct Hx as [Hx Hex].
  rewrite (inverse_search x Hx). simpl.
  apply has_inverse_true in Hex. unfold has_inverse in Hex.
  destruct (find (inverse_pair M x) carrier) as [b|] eqn:Hfind; [|discriminate].
  apply find_some in Hfind. destruct Hfind as [Hb Hp]. apply inverse_pair_true in Hp.
  exists b. split; [reflexivity|]. split; [|exact Hp].
  apply In_units. split; [exact Hb|]. exists x. tauto.
Qed.

Lemma Monoid_inverse_outside (x : T) :
  ~ In x (insert_if (has_inverse M) carrier []) ->
  Monoid_inverse M x = Throw (logic_error "Element is not invertible").
Proof.
  intros Hx. unfold Monoid_inverse. rewrite is_invertible_valid.
  rewrite (proj2 (contains_false _ _) Hx). reflexivity.
Qed.

End MonoidFacts.

Section InheritedMembers.
Context {T : Type} {E : Element T} {L : ElementLaws T}.
Variable G : Group (T := T).
Hypothesis VG : valid_group G.

Local Abbreviation carrier := (elements_ G).
Local Abbreviation op := (operation_ G).
Local Abbreviation e := (identity G).
Local Abbreviation inv := (inverse_func_ G).

Lemma valid_group_monoid : valid_monoid G.
Proof.
  split; [split; [apply (vg_closed G VG) | apply (vg_assoc G VG)]|].
  apply (vg_identity G VG).
Qed.

Lemma gpow_pow1 (a : T) (n : nat) : In a carrier -> gpow G a (S n) = pow1 op a n.
Proof.
  intros Ha. induction n as [|n IH]; [apply (gpow_1 G VG), Ha|].
  simpl. simpl in IH. rewrite IH. reflexivity.
Qed.

Lemma group_units (a : T) : In a carrier -> has_inverse G a = true.
Proof.
  intros Ha. apply (has_inverse_true G). exists (inv a).
  split; [apply (inv_in G VG), Ha|].
  split; [apply (op_inv_r G VG), Ha | apply (op_inv_l G VG), Ha].
Qed.

Lemma group_invertible_elements : invertible_elements G = Ok carrier.
Proof.
  rewrite (invertible_elements_valid G valid_group_monoid). f_equal.
  rewrite insert_if_filter by (apply (vg_set G VG)).
  apply forallb_filter_id. apply forallb_forall. intros a Ha. apply group_units, Ha.
Qed.

End InheritedMembers.

(** X20: in a semigroup that the constructor accepted,
    [Semigroup::power(a, n)] for [a] in the carrier and [n >= 1] returns the
    product of [n] copies of [a], the same element as [product] returns on
    the range of [n] copies; it turns sums of exponents into products; and
    the exponent 0 and the empty range throw [invalid_argument]. *)
Theorem Semigroup_power_is_repeated_product {T : Type} {E : Element T} {L : ElementLaws T}
    (elements : list T) (op : T -> T -> T) (S : Semigroup) (a : T) :
  Semigroup_ctor elements op = Ok S -> In a elements ->
  Semigroup_power S a 0 = Throw (invalid_argument "Zero power not defined in semigroup") /\
  product S [] = Throw (invalid_argument "Empty product is not defined in semigroup") /\
  (forall n, 1 <= n ->
     Semigroup_power S a (N.of_nat n) = Ok (pow1 op a (n - 1)) /\
     product S (repeat a n) = Ok (pow1 op a (n - 1)) /\
     In (pow1 op a (n - 1)) elements) /\
  (forall m n, 1 <= m -> 1 <= n ->
     (x <- Semigroup_power S a (N.of_nat m) ;;
      y <- Semigroup_power S a (N.of_nat n) ;;
      operate S x y) = Semigroup_power S a (N.of_nat (m + n))).
Proof.
  intros HS Ha. apply Semigroup_ctor_Ok in HS. destruct HS as [Hcl [Has ->]].
  set (S := {| semigroup_base := {| elements_ := elements; operation_ := op |} |}).
  assert (VS : valid_semigroup S) by (split; assumption).
  split; [reflexivity|]. split; [reflexivity|]. split.
  - intros n Hn. split; [apply (Semigroup_power_valid S VS a n Ha Hn)|].
    split; [|apply (pow1_in S VS a _ Ha)].
    destruct n as [|n]; [lia|]. rewrite (product_repeat S VS a n Ha).
    f_equal. f_equal. lia.
  - intros m n Hm Hn.
    rewrite !(Semigroup_power_valid S VS a) by (try assumption; lia). simpl bind.
    rewrite (sg_operate S VS) by (apply (pow1_in S VS a _ Ha)).
    f_equal. etransitivity; [apply (pow1_add S VS a _ _ Ha)|]. f_equal. lia.
Qed.

Lemma Semigroup_power_is_repeated_product_witness :
  Semigroup_power Examples.G6 4%Z 0 =
    Throw (invalid_argument "Zero power not defined in semigroup") /\
  product Examples.G6 [] =
    Throw (invalid_argument "Empty product is not defined in semigroup") /\
  (forall n, 1 <= n ->
     Semigroup_power Examples.G6 4%Z (N.of_nat n) = Ok (pow1 Scenario.add6 4%Z (n - 1)) /\
     product Examples.G6 (repeat 4%Z n) = Ok (pow1 Scenario.add6 4%Z (n - 1)) /\
     In (pow1 Scenario.add6 4%Z (n - 1)) Scenario.Z6) /\
  (forall m n, 1 <= m -> 1 <= n ->
     (x <- Semigroup_power Examples.G6 4%Z (N.of_nat m) ;;
      y <- Semigroup_power Examples.G6 4%Z (N.of_nat n) ;;
      operate Examples.G6 x y) = Semigroup_power Examples.G6 4%Z (N.of_nat (m + n))).
Proof.
  apply (Semigroup_power_is_repeated_product Scenario.Z6 Scenario.add6 Examples.G6 4%Z).
  - by_evaluation.
  - by_evaluation.
Defined.

(** X21: in a monoid that the constructor accepted, [Monoid::power(a, n)]
    returns the identity for [n = 0] and, for [a] in the carrier and
    [n >= 1], the element that [Semigroup::power] returns.  The domain is
    checked only from [n = 2] on: for [a] outside the carrier the exponents
    0 and 1 return the identity and [a], every larger one throws
    [domain_error]. *)
Theorem Monoid_power_agrees_with_Semigroup_power
    {T : Type} {E : Element T} {L : ElementLaws T}
    (elements : list T) (op : T -> T -> T) (e : T) (M : Monoid) (a : T) :
  Monoid_ctor elements op e = Ok M ->
  Monoid_power M a 0 = Ok e /\
  Monoid_power M a 1 = Ok a /\
  (In a elements -> forall n, 1 <= n ->
     Monoid_power M a (N.of_nat n) = Ok (pow1 op a (n - 1)) /\
     Monoid_power M a (N.of_nat n) = Semigroup_power M a (N.of_nat n)) /\
  (~ In a elements -> forall n, 2 <= n ->
     Monoid_power M a (N.of_nat n) = Throw (domain_error "Elements not in groupoid")).
Proof.
  intros HM. apply Monoid_ctor_Ok in HM. destruct HM as [Hcl [Has [Hid ->]]].
  set (M := {| monoid_base := {| semigroup_base := {| elements_ := elements;
                                                      operation_ := op |} |};
               identity_ := e |}).
  assert (VM : valid_monoid M) by (split; [split|]; assumption).
  split; [reflexivity|]. split; [reflexivity|]. split.
  - intros Ha n Hn. rewrite (Monoid_power_valid M VM a n Ha Hn).
    split; [reflexivity|]. symmetry. apply (Semigroup_power_valid M (proj1 VM) a n Ha Hn).
  - intros Ha n Hn. apply (Monoid_power_outside M a n Ha Hn).
Qed.

Lemma Monoid_power_agrees_with_Semigroup_power_witness :
  Monoid_power Examples.G6 7%Z 0 = Ok 0%Z /\
  Monoid_power Examples.G6 7%Z 1 = Ok 7%Z /\
  (In 7%Z Scenario.Z6 -> forall n, 1 <= n ->
     Monoid_power Examples.G6 7%Z (N.of_nat n) = Ok (pow1 Scenario.add6 7%Z (n - 1)) /\
     Monoid_power Examples.G6 7%Z (N.of_nat n) =
       Semigroup_power Examples.G6 7%Z (N.of_nat n)) /\
  (~ In 7%Z Scenario.Z6 -> forall n, 2 <= n ->
     Monoid_power Examples.G6 7%Z (N.of_nat n) =
       Throw (domain_error "Elements not in groupoid")).
Proof.
  apply (Monoid_power_agrees_with_Semigroup_power Scenario.Z6 Scenario.add6 0%Z
           Examples.G6 7%Z).
  by_evaluation.
Defined.

(** X22: the identity of a monoid that the constructor accepted is found
    again by the search: [find_identity] returns it, [has_identity] answers
    true, and [Monoid(const Semigroup&)] rebuilds the same monoid from its
    semigroup.  For an accepted semigroup in general, [find_identity]
    throws [logic_error] exactly when [has_identity] answers false, and
    what it returns otherwise is a two-sided identity of the carrier. *)
Theorem find_identity_round_trip {T : Type} {E : Element T} {L : ElementLaws T}
    (elements : list T) (op : T -> T -> T) (S : Semigroup) :
  Semigroup_ctor elements op = Ok S ->
  (forall e M, Monoid_ctor elements op e = Ok M ->
     find_identity S = Ok e /\ has_identity S = Ok true /\
     Monoid_from_semigroup S = Ok M) /\
  (has_identity S = Ok false <->
   find_identity S = Throw (logic_error "Semigroup has no identity element")) /\
  (forall c, find_identity S = Ok c ->
     has_identity S = Ok true /\ is_identity elements op c).
Proof.
  intros HS. apply Semigroup_ctor_Ok in HS. destruct HS as [Hcl [Has ->]].
  set (S := {| semigroup_base := {| elements_ := elements; operation_ := op |} |}).
  assert (VS : valid_semigroup S) by (split; assumption).
  split; [|split].
  - intros e M HM. apply Monoid_ctor_Ok in HM. destruct HM as [_ [_ [Hid ->]]].
    set (M := {| monoid_base := S; identity_ := e |}).
    assert (VM : valid_monoid M) by (split; assumption).
    pose proof (find_identity_valid M VM) as Hfind.
    change (find_identity M) with (find_identity S) in Hfind.
    split; [exact Hfind|].
    unfold Monoid_from_semigroup. rewrite Hfind. split; [|reflexivity].
    unfold has_identity. unfold find_identity in Hfind.
    rewrite (find_identity_search S VS) in *.
    destruct (find _ (elements_ S)) as [c|]; [reflexivity | discriminate].
  - unfold has_identity, find_identity.
    rewrite (find_identity_search S VS).
    destruct (find _ (elements_ S)) as [c|]; simpl; split; congruence.
  - intros c Hc. unfold has_identity. unfold find_identity in Hc.
    rewrite (find_identity_search S VS) in *. simpl in *.
    destruct (find _ elements) as [c'|] eqn:Hfind; [|discriminate].
    injection Hc as ->. split; [reflexivity|].
    apply find_some in Hfind. destruct Hfind as [Hin Hf].
    split; [exact Hin|]. apply (identity_candidate_true S c), Hf.
Qed.

Lemma find_identity_round_trip_witness :
  (forall e M, Monoid_ctor Scenario.Z6 Scenario.add6 e = Ok M ->
     find_identity Examples.G6 = Ok e /\ has_identity Examples.G6 = Ok true /\
     Monoid_from_semigroup Examples.G6 = Ok M) /\
  (has_identity Examples.G6 = Ok false <->
   find_identity Examples.G6 = Throw (logic_error "Semigroup has no identity element")) /\
  (forall c, find_identity Examples.G6 = Ok c ->
     has_identity Examples.G6 = Ok true /\ is_identity Scenario.Z6 Scenario.add6 c).
Proof.
  apply (find_identity_round_trip Scenario.Z6 Scenario.add6 Examples.G6).
  by_evaluation.
Defined.

(** X23: in a monoid that the constructor accepted, [invertible_elements]
    returns the set of the elements with a two-sided inverse in the
    carrier.  It holds the identity and is closed under the operation;
    [is_invertible] is the membership test of that set; [inverse] returns,
    for a member, a member that is its two-sided inverse, and throws
    [logic_error] for everything else. *)
Theorem invertible_elements_are_the_units {T : Type} {E : Element T} {L : ElementLaws T}
    (elements : list T) (op : T -> T -> T) (e : T) (M : Monoid) :
  is_set elements -> Monoid_ctor elements op e = Ok M ->
  exists U,
    invertible_elements M = Ok U /\ is_set U /\
    (forall x, In x U <->
               In x elements /\ exists b, In b elements /\ op x b = e /\ op b x = e) /\
    In e U /\
    (forall x y, In x U -> In y U -> In (op x y) U) /\
    (forall x, is_invertible M x = Ok (contains U x)) /\
    (forall x, In x U ->
       exists b, Monoid_inverse M x = Ok b /\ In b U /\ op x b = e /\ op b x = e) /\
    (forall x, ~ In x U ->
       Monoid_inverse M x = Throw (logic_error "Element is not invertible")).
Proof.
  intros Hset HM. apply Monoid_ctor_Ok in HM. destruct HM as [Hcl [Has [Hid ->]]].
  set (M := {| monoid_base := {| semigroup_base := {| elements_ := elements;
                                                      operation_ := op |} |};
               identity_ := e |}).
  assert (VM : valid_monoid M) by (split; [split|]; assumption).
  exists (insert_if (has_inverse M) elements []).
  split; [apply (invertible_elements_valid M VM)|].
  split; [apply is_set_insert_if; exact I|].
  split; [apply (In_units M)|].
  split.
  { apply (In_units M). split; [apply Hid|]. exists e. split; [apply Hid|].
    split; apply (proj2 Hid e (proj1 Hid)). }
  split; [apply (units_closed M VM)|].
  split; [apply (is_invertible_valid M VM)|].
  split; [apply (Monoid_inverse_valid M VM)|].
  apply (Monoid_inverse_outside M VM).
Qed.

Lemma invertible_elements_are_the_units_witness :
  exists U,
    invertible_elements Examples.G6 = Ok U /\ is_set U /\
    (forall x, In x U <->
               In x Scenario.Z6 /\
               exists b, In b Scenario.Z6 /\ Scenario.add6 x b = 0%Z /\
                         Scenario.add6 b x = 0%Z) /\
    In 0%Z U /\
    (forall x y, In x U -> In y U -> In (Scenario.add6 x y) U) /\
    (forall x, is_invertible Examples.G6 x = Ok (contains U x)) /\
    (forall x, In x U ->
       exists b, Monoid_inverse Examples.G6 x = Ok b /\ In b U /\
                 Scenario.add6 x b = 0%Z /\ Scenario.add6 b x = 0%Z) /\
    (forall x, ~ In x U ->
       Monoid_inverse Examples.G6 x = Throw (logic_error "Element is not invertible")).
Proof.
  apply (invertible_elements_are_the_units Scenario.Z6 Scenario.add6 0%Z Examples.G6).
  - apply is_set_make_set.
  - by_evaluation.
Defined.

(** X24: on a valid group the members inherited from [Monoid] agree with
    those of [Group]: every element of the carrier is invertible,
    [invertible_elements] returns the carrier, the inverse that
    [Monoid::inverse] finds by search is the one that [Group::inverse]
    returns, and [Monoid::power] returns what [Group::power] returns for
    the same exponent. *)
Theorem inherited_monoid_members_agree {T : Type} {E : Element T} {L : ElementLaws T}
    (elements : list T) (op : T -> T -> T) (e : T) (inv : T -> T) (G : Group) :
  is_set elements -> Group_ctor elements op e inv = Ok G ->
  invertible_elements G = Ok (get_set G) /\
  forall a, In a (get_set G) ->
    is_invertible G a = Ok true /\
    Monoid_inverse G a = Ok (inv a) /\
    Monoid_inverse G a = inverse G a /\
    forall n, Monoid_power G a (N.of_nat n) = power G a (Z.of_nat n).
Proof.
  intros Hset HG. pose proof (Group_ctor_valid elements op e inv G Hset HG) as VG.
  assert (Hinv : inverse_func_ G = inv).
  { apply Group_ctor_Ok in HG. destruct HG as [_ [_ [_ [_ ->]]]]. reflexivity. }
  pose proof (valid_group_monoid G VG) as VM.
  unfold get_set. split; [apply (group_invertible_elements G VG)|].
  intros a Ha.
  assert (HaU : In a (insert_if (has_inverse G) (elements_ G) [])).
  { apply In_insert_if. left. split; [exact Ha | apply (group_units G VG a Ha)]. }
  split.
  { rewrite (is_invertible_valid G VM). f_equal. apply contains_In, HaU. }
  assert (Hmi : Monoid_inverse G a = Ok (inv a)).
  { destruct (Monoid_inverse_valid G VM a HaU) as [b [Hb [HbU [H1 H2]]]].
    rewrite Hb. f_equal. rewrite <- Hinv.
    apply (In_units G) in HbU. destruct HbU as [Hbc _].
    apply (inverse_unique G VM a b (inverse_func_ G a) Ha Hbc (inv_in G VG a Ha) H2).
    apply (op_inv_r G VG), Ha. }
  split; [exact Hmi|].
  split; [rewrite Hmi, (inverse_valid G VG) by exact Ha; rewrite Hinv; reflexivity|].
  intros n. rewrite (power_gpow G VG) by exact Ha.
  destruct n as [|n]; [reflexivity|].
  rewrite (Monoid_power_valid G VM a (S n) Ha) by lia.
  rewrite (gpow_pow1 G VG a n Ha). f_equal. f_equal. lia.
Qed.

Lemma inherited_monoid_members_agree_witness :
  invertible_elements Examples.GS3 = Ok (get_set Examples.GS3) /\
  forall a, In a (get_set Examples.GS3) ->
    is_invertible Examples.GS3 a = Ok true /\
    Monoid_inverse Examples.GS3 a = Ok (Scenario.invS3 a) /\
    Monoid_inverse Examples.GS3 a = inverse Examples.GS3 a /\
    forall n, Monoid_power Examples.GS3 a (N.of_nat n) = power Examples.GS3 a (Z.of_nat n).
Proof.
  apply (inherited_monoid_members_agree Scenario.S3 Scenario.mulS3 0%Z Scenario.invS3
           Examples.GS3).
  - apply is_set_make_set.
  - by_evaluation.
Defined.

(** ** The one-sided definitions of a group *)

Section OneSidedAxioms.
Context {T : Type} {E : Element T} {L : ElementLaws T}.
Variable elements : list T.

(** A left identity with left inverses is a two-sided identity with
    two-sided inverses. *)
Lemma left_axioms_two_sided (op : T -> T -> T) (e : T) :
  closed elements op -> associative elements op -> In e elements ->
  (forall a, In a elements -> op e a = a) ->
  (forall a, In a elements -> exists c, In c elements /\ op c a = e) ->
  is_identity elements op e /\
  (forall a, In a elements -> exists c, In c elements /\ op a c = e /\ op c a = e).
Proof.
  intros Hcl Has He Hid Hinv.
  assert (Hright : forall a b, In a elements -> In b elements -> op b a = e -> op a b = e).
  { intros a b Ha Hb Hba. destruct (Hinv b Hb) as [c [Hc Hcb]].
    rewrite <- (Hid (op a b)) by auto.
    rewrite <- Hcb at 1.
    rewrite (Has c b (op a b)) by auto.
    rewrite <- (Has b a b) by auto.
    rewrite Hba, Hid by auto. exact Hcb. }
  split.
  - split; [exact He|]. intros a Ha. split; [apply Hid, Ha|].
    destruct (Hinv a Ha) as [b [Hb Hba]].
    rewrite <- Hba. rewrite <- (Has a b a) by auto.
    rewrite (Hright a b Ha Hb Hba). apply Hid, Ha.
  - intros a Ha. destruct (Hinv a Ha) as [b [Hb Hba]].
    exists b. split; [exact Hb|]. split; [apply Hright; assumption | exact Hba].
Qed.

Lemma group_of_two_sided (op : T -> T -> T) (e : T) :
  closed elements op -> associative elements op -> is_identity elements op e ->
  (forall a, In a elements -> exists c, In c elements /\ op a c = e /\ op c a = e) ->
  exists inv G, Group_ctor elements op e inv = Ok G.
Proof.
  intros Hcl Has Hid Hinv.
  set (inv := fun a => match find (fun c => eq_op (op a c) e && eq_op (op c a) e) elements with
                       | Some c => c
                       | None => a
                       end).
  exists inv.
  assert (HM : exists M, Monoid_ctor elements op e = Ok M).
  { eexists. apply Monoid_ctor_Ok. repeat split; try assumption; apply Hid; assumption. }
  destruct HM as [M HM].
  destruct (Group_ctor_on_monoid elements op e inv M HM)
    as [[HG _]|[x [_ [_ [a [Ha Hbad]]]]]]; [exact HG|].
  exfalso. apply (proj1 (good_or_bad_inverse elements op e inv a)); [|exact Hbad].
  unfold good_inverse, inv.
  destruct (find _ elements) as [c|] eqn:Hfind.
  - apply find_some in Hfind. destruct Hfind as [Hc Hp].
    apply andb_true_iff in Hp. rewrite !eq_op_spec in Hp. tauto.
  - destruct (Hinv a Ha) as [c [Hc [H1 H2]]].
    pose proof (find_none _ _ Hfind c Hc) as Hf. simpl in Hf.
    rewrite (proj2 (eq_op_spec _ _) H1), (proj2 (eq_op_spec _ _) H2) in Hf. discriminate.
Qed.

Lemma forallb_assoc (op : T -> T -> T) :
  forallb (fun a => forallb (fun b => forallb (fun c =>
    eq_op (op (op a b) c) (op a (op b c))) elements) elements) elements = true <->
  associative elements op.
Proof.
  unfold associative. rewrite forallb_forall. split.
  - intros H a b c Ha Hb Hc. specialize (H a Ha). rewrite forallb_forall in H.
    specialize (H b Hb). rewrite forallb_forall in H. apply eq_op_spec, H, Hc.
  - intros H a Ha. apply forallb_forall. intros b Hb. apply forallb_forall. intros c Hc.
    apply eq_op_spec, H; assumption.
Qed.

Lemma alternative_definition_left (op : T -> T -> T) :
  satisfies_alternative_definition elements op = true <->
  exists e, In e elements /\ (forall a, In a elements -> op e a = a) /\
            (forall a, In a elements -> exists c, In c elements /\ op c a = e) /\
            associative elements op /\
            find (fun candidate => forallb (fun a => eq_op (op candidate a) a) elements)
              elements = Some e.
Proof.
  unfold satisfies_alternative_definition.
  destruct (find _ elements) as [e|] eqn:Hfind.
  - pose proof (find_some _ _ Hfind) as [He Hid].
    rewrite forallb_forall in Hid.
    match goal with |- (if negb ?b then _ else _) = _ <-> _ => destruct b eqn:Hinv end; simpl.
    + rewrite forallb_assoc. rewrite forallb_forall in Hinv. split.
      * intros Has. exists e. split; [exact He|]. split.
        { intros a Ha. apply eq_op_spec, Hid, Ha. }
        split; [|auto].
        intros a Ha. specialize (Hinv a Ha). apply existsb_exists in Hinv.
        destruct Hinv as [c [Hc Hca]]. exists c. split; [exact Hc|]. apply eq_op_spec, Hca.
      * intros [e' [_ [_ [_ [Has _]]]]]. exact Has.
    + split; [discriminate|]. intros [e' [_ [_ [Hinv' [_ Heq]]]]].
      injection Heq as <-. exfalso.
      assert (Ht : forallb (fun a => existsb (fun c => eq_op (op c a) e) elements) elements
                   = true).
      { apply forallb_forall. intros a Ha. apply existsb_exists.
        destruct (Hinv' a Ha) as [c [Hc Hca]]. exists c. split; [exact Hc|].
        apply eq_op_spec, Hca. }
      congruence.
  - split; [discriminate|]. intros [e [_ [_ [_ [_ Heq]]]]]. discriminate.
Qed.

Lemma alternative_definition_right (op : T -> T -> T) :
  satisfies_right_alternative_definition elements op = true <->
  exists e, In e elements /\ (forall a, In a elements -> op a e = a) /\
            (forall a, In a elements -> exists c, In c elements /\ op a c = e) /\
            associative elements op /\
            find (fun candidate => forallb (fun a => eq_op (op a candidate) a) elements)
              elements = Some e.
Proof.
  unfold satisfies_right_alternative_definition.
  destruct (find _ elements) as [e|] eqn:Hfind.
  - pose proof (find_some _ _ Hfind) as [He Hid].
    rewrite forallb_forall in Hid.
    match goal with |- (if negb ?b then _ else _) = _ <-> _ => destruct b eqn:Hinv end; simpl.
    + rewrite forallb_assoc. rewrite forallb_forall in Hinv. split.
      * intros Has. exists e. split; [exact He|]. split.
        { intros a Ha. apply eq_op_spec, Hid, Ha. }
        split; [|auto].
        intros a Ha. specialize (Hinv a Ha). apply existsb_exists in Hinv.
        destruct Hinv as [c [Hc Hca]]. exists c. split; [exact Hc|]. apply eq_op_spec, Hca.
      * intros [e' [_ [_ [_ [Has _]]]]]. exact Has.
    + split; [discriminate|]. intros [e' [_ [_ [Hinv' [_ Heq]]]]].
      injection Heq as <-. exfalso.
      assert (Ht : forallb (fun a => existsb (fun c => eq_op (op a c) e) elements) elements
                   = true).
      { apply forallb_forall. intros a Ha. apply existsb_exists.
        destruct (Hinv' a Ha) as [c [Hc Hca]]. exists c. split; [exact Hc|].
        apply eq_op_spec, Hca. }
      congruence.
  - split; [discriminate|]. intros [e [_ [_ [_ [_ Heq]]]]]. discriminate.
Qed.

(** In a group the search for a one-sided identity stops at the identity. *)
Lemma find_one_sided_identity (e : T) (test : T -> bool) :
  In e elements -> test e = true ->
  (forall c, In c elements -> test c = true -> c = e) ->
  find test elements = Some e.
Proof.
  intros He Ht Huniq. destruct (find test elements) as [c|] eqn:Hfind.
  - apply find_some in Hfind. f_equal. apply Huniq; tauto.
  - pose proof (find_none _ _ Hfind e He). congruence.
Qed.

Lemma alternative_definitions_iff_group (op : T -> T -> T) :
  closed elements op ->
  (satisfies_alternative_definition elements op = true <->
   exists e inv G, Group_ctor elements op e inv = Ok G) /\
  (satisfies_right_alternative_definition elements op = true <->
   exists e inv G, Group_ctor elements op e inv = Ok G).
Proof.
  intros Hcl.
  assert (Hgroup : (exists e inv G, Group_ctor elements op e inv = Ok G) ->
            exists e, associative elements op /\ is_identity elements op e /\
                      forall a, In a elements ->
                        exists c, In c elements /\ op a c = e /\ op c a = e).
  { intros [e [inv [G HG]]]. apply Group_ctor_Ok in HG.
    destruct HG as [_ [Has [Hid [Hinv _]]]]. exists e. split; [exact Has|].
    split; [exact Hid|]. intros a Ha. exists (inv a). apply Hinv, Ha. }
  split; split.
  - intros Halt. apply alternative_definition_left in Halt.
    destruct Halt as [e [He [Hid [Hinv [Has _]]]]].
    destruct (left_axioms_two_sided op e Hcl Has He Hid Hinv) as [Hid2 Hinv2].
    exists e. apply group_of_two_sided; assumption.
  - intros HG. destruct (Hgroup HG) as [e [Has [[He Hid] Hinv]]].
    apply alternative_definition_left. exists e.
    split; [exact He|]. split; [intros a Ha; apply Hid, Ha|].
    split; [intros a Ha; destruct (Hinv a Ha) as [c [Hc [_ H2]]]; exists c; auto|].
    split; [exact Has|].
    apply (find_one_sided_identity e); [exact He | |].
    + apply forallb_forall. intros a Ha. apply eq_op_spec, Hid, Ha.
    + intros c Hc Ht. rewrite forallb_forall in Ht.
      specialize (Ht e He). apply eq_op_spec in Ht.
      rewrite <- Ht. symmetry. apply Hid, Hc.
  - intros Halt. apply alternative_definition_right in Halt.
    destruct Halt as [e [He [Hid [Hinv [Has _]]]]].
    destruct (left_axioms_two_sided (fun a b => op b a) e) as [[_ Hid2] Hinv2];
      try assumption.
    + intros a b Ha Hb. apply Hcl; assumption.
    + intros a b c Ha Hb Hc. symmetry. apply Has; assumption.
    + exists e. apply group_of_two_sided; try assumption.
      * split; [exact He|]. intros a Ha. destruct (Hid2 a Ha). auto.
      * intros a Ha. destruct (Hinv2 a Ha) as [c [Hc [H1 H2]]]. exists c. auto.
  - intros HG. destruct (Hgroup HG) as [e [Has [[He Hid] Hinv]]].
    apply alternative_definition_right. exists e.
    split; [exact He|]. split; [intros a Ha; apply Hid, Ha|].
    split; [intros a Ha; destruct (Hinv a Ha) as [c [Hc [H1 _]]]; exists c; auto|].
    split; [exact Has|].
    apply (find_one_sided_identity e); [exact He | |].
    + apply forallb_forall. intros a Ha. apply eq_op_spec, Hid, Ha.
    + intros c Hc Ht. rewrite forallb_forall in Ht.
      specialize (Ht e He). apply eq_op_spec in Ht.
      rewrite <- Ht. symmetry. apply Hid, Hc.
Qed.

End OneSidedAxioms.

(** X25: for a closed operation the two one-sided tests
    [satisfies_alternative_definition] and
    [satisfies_right_alternative_definition] answer true exactly when the
    set and the operation form a group, that is when the constructor of
    [Group] accepts them with some identity and some inverse function.
    The tests do not look at closure themselves: they accept the integers
    -1, 0, 1 with the addition, which no constructor accepts. *)
Theorem alternative_definitions_characterise_groups :
  (forall (T : Type) (E : Element T) (L : ElementLaws T)
          (elements : list T) (op : T -> T -> T),
     closed elements op ->
     (satisfies_alternative_definition elements op = true <->
      exists e inv G, Group_ctor elements op e inv = Ok G) /\
     (satisfies_right_alternative_definition elements op = true <->
      exists e inv G, Group_ctor elements op e inv = Ok G)) /\
  (satisfies_alternative_definition (make_set [-1; 0; 1]%Z) Z.add = true /\
   satisfies_right_alternative_definition (make_set [-1; 0; 1]%Z) Z.add = true /\
   Groupoid_ctor (make_set [-1; 0; 1]%Z) Z.add =
     Throw (invalid_argument "Operation is not closed: result not in set") /\
   forall e inv,
     Group_ctor (make_set [-1; 0; 1]%Z) Z.add e inv =
       Throw (invalid_argument "Operation is not closed: result not in set")).
Proof.
  split.
  - intros T E L elements op Hcl. apply alternative_definitions_iff_group, Hcl.
  - split; [vm_compute; reflexivity|]. split; [vm_compute; reflexivity|].
    split; [vm_compute; reflexivity|]. intros e inv. reflexivity.
Qed.

Lemma alternative_definitions_characterise_groups_witness :
  (satisfies_alternative_definition Scenario.S3 Scenario.mulS3 = true <->
   exists e inv G, Group_ctor Scenario.S3 Scenario.mulS3 e inv = Ok G) /\
  (satisfies_right_alternative_definition Scenario.S3 Scenario.mulS3 = true <->
   exists e inv G, Group_ctor Scenario.S3 Scenario.mulS3 e inv = Ok G).
Proof.
  apply (proj1 alternative_definitions_characterise_groups Z Element_Z ElementLaws_Z
           Scenario.S3 Scenario.mulS3).
  apply Groupoid_ctor_Ok with (G := Examples.GS3). by_evaluation.
Defined.

(** ** The order of a power *)

Section PowerOrder.
Context {T : Type} {E : Element T} {L : ElementLaws T}.
Variable G : Group (T := T).
Hypothesis VG : valid_group G.

Local Abbreviation carrier := (elements_ G).
Local Abbreviation op := (operation_ G).
Local Abbreviation e := (identity G).

Lemma gpow_gpow (a : T) (k m : nat) :
  In a carrier -> gpow G (gpow G a k) m = gpow G a (k * m).
Proof.
  intros Ha. induction m as [|m IH].
  - rewrite Nat.mul_0_r. reflexivity.
  - simpl. rewrite IH, Nat.mul_succ_r. symmetry. apply (gpow_add G VG), Ha.
Qed.

Lemma is_order_of_divides (b : T) (n : nat) :
  1 <= n -> (forall m, gpow G b m = e <-> Nat.divide n m) -> is_order G b n.
Proof.
  intros Hn Hdiv. split; [exact Hn|]. split.
  - apply Hdiv, Nat.divide_refl.
  - intros m Hm Hpow. apply Hdiv in Hpow.
    apply Nat.divide_pos_le in Hpow; lia.
Qed.

Lemma divide_mul_gcd (n k m : nat) :
  1 <= n -> (Nat.divide n (k * m) <-> Nat.divide (n / Nat.gcd n k) m).
Proof.
  intros Hn. set (g := Nat.gcd n k).
  assert (Hg : g <> 0).
  { unfold g. intros H0. apply Nat.gcd_eq_0_l in H0. lia. }
  destruct (Nat.gcd_divide_l n k) as [n' Hn']. fold g in Hn'.
  destruct (Nat.gcd_divide_r n k) as [k' Hk']. fold g in Hk'.
  assert (Hdn : n / g = n') by (rewrite Hn'; apply Nat.div_mul, Hg).
  assert (Hdk : k / g = k') by (rewrite Hk'; apply Nat.div_mul, Hg).
  pose proof (Nat.gcd_div_gcd n k g Hg eq_refl) as Hco. rewrite Hdn, Hdk in Hco.
  rewrite Hdn. split.
  - intros Hdiv. apply (Nat.gauss n' k' m); [|exact Hco].
    apply (Nat.mul_divide_cancel_l _ _ g Hg).
    replace (g * n') with n by lia. replace (g * (k' * m)) with (k * m) by nia. exact Hdiv.
  - intros [q Hq]. exists (k' * q). nia.
Qed.

Lemma order_of_gpow (a : T) (n k : nat) :
  In a carrier -> is_order G a n -> is_order G (gpow G a k) (n / Nat.gcd n k).
Proof.
  intros Ha Hord. pose proof Hord as [Hn _].
  apply is_order_of_divides.
  - assert (Hg : Nat.gcd n k <> 0) by (intros H0; apply Nat.gcd_eq_0_l in H0; lia).
    destruct (Nat.gcd_divide_l n k) as [n' Hn'].
    rewrite Hn' at 1. rewrite Nat.div_mul by exact Hg.
    destruct n'; [lia | lia].
  - intros m. rewrite gpow_gpow by exact Ha.
    rewrite (gpow_e_iff_divides G VG a n (k * m) Ha Hord).
    rewrite Nat.Lcm0.mod_divide. apply divide_mul_gcd, Hn.
Qed.

Lemma order_of_power_valid (a : T) (k : nat) :
  In a carrier -> (Z.of_nat k < 2 ^ 63)%Z ->
  ElementOrder.order_of_power G a (Z.of_nat k) = Ok true.
Proof.
  intros Ha Hk. unfold ElementOrder.order_of_power.
  destruct (compute_Some G VG a Ha) as [n [Hcomp [Hord _]]].
  rewrite Hcomp. simpl bind. rewrite Nat2Z.id.
  rewrite to_long_long_small by lia.
  rewrite (power_gpow G VG) by exact Ha. simpl bind.
  rewrite gcd_Nat_gcd, Nat.gcd_comm.
  rewrite (compute_is_order G VG _ _ (gpow_in G VG a k Ha) (order_of_gpow a n k Ha Hord)).
  simpl. rewrite Nat.eqb_refl. reflexivity.
Qed.

Lemma has_order_valid (a : T) (d : nat) :
  In a carrier -> ElementOrder.has_order G a d = Ok (order_or_zero G a =? d).
Proof.
  intros Ha. unfold ElementOrder.has_order, order_or_zero.
  destruct (compute_Some G VG a Ha) as [n [Hcomp _]]. rewrite Hcomp. reflexivity.
Qed.

Lemma elements_of_order_valid (d : nat) :
  ElementOrder.elements_of_order G d =
  Ok (insert_if (fun a => order_or_zero G a =? d) carrier []).
Proof.
  unfold ElementOrder.elements_of_order, get_set. apply fold_each_fold_left.
  intros s a Ha. rewrite (has_order_valid a d Ha). simpl.
  destruct (order_or_zero G a =? d); reflexivity.
Qed.

Lemma order_or_zero_eq (a : T) (d : nat) :
  In a carrier -> ((order_or_zero G a =? d) = true <-> is_order G a d).
Proof.
  intros Ha. pose proof (order_or_zero_is_order G VG a Ha) as Hord. rewrite Nat.eqb_eq. split.
  - intros <-. exact Hord.
  - intros Hd. apply (is_order_unique G a _ _ Hord Hd).
Qed.

End PowerOrder.

(** X26: on a valid group, for [a] in the carrier with order [n] and an
    exponent [k] below [2^63], the power [a^k] has the order
    [n / gcd(n, k)]: [Properties::order_of_power] answers true, and
    [has_order] confirms that order for the power and no other. *)
Theorem order_of_power_holds {T : Type} {E : Element T} {L : ElementLaws T}
    (elements : list T) (op : T -> T -> T) (e : T) (inv : T -> T) (G : Group)
    (a : T) (k : nat) :
  is_set elements -> Group_ctor elements op e inv = Ok G ->
  In a (get_set G) -> (Z.of_nat k < 2 ^ 63)%Z ->
  exists n,
    ElementOrder.compute G a = Ok (Some n) /\
    ElementOrder.compute G (gpow G a k) = Ok (Some (n / Nat.gcd n k)) /\
    ElementOrder.order_of_power G a (Z.of_nat k) = Ok true /\
    forall d, ElementOrder.has_order G (gpow G a k) d = Ok (n / Nat.gcd n k =? d).
Proof.
  intros Hset HG Ha Hk. pose proof (Group_ctor_valid elements op e inv G Hset HG) as VG.
  unfold get_set in Ha.
  destruct (compute_Some G VG a Ha) as [n [Hcomp [Hord _]]].
  pose proof (gpow_in G VG a k Ha) as Hpk.
  pose proof (compute_is_order G VG _ _ Hpk (order_of_gpow G VG a n k Ha Hord)) as Hck.
  exists n. split; [exact Hcomp|]. split; [exact Hck|].
  split; [apply (order_of_power_valid G VG a k Ha Hk)|].
  intros d. unfold ElementOrder.has_order. rewrite Hck. reflexivity.
Qed.

Lemma order_of_power_holds_witness :
  exists n,
    ElementOrder.compute Examples.G6 1%Z = Ok (Some n) /\
    ElementOrder.compute Examples.G6 (gpow Examples.G6 1%Z 4) = Ok (Some (n / Nat.gcd n 4)) /\
    ElementOrder.order_of_power Examples.G6 1%Z (Z.of_nat 4) = Ok true /\
    forall d, ElementOrder.has_order Examples.G6 (gpow Examples.G6 1%Z 4) d =
              Ok (n / Nat.gcd n 4 =? d).
Proof.
  apply (order_of_power_holds Scenario.Z6 Scenario.add6 0%Z Scenario.neg6 Examples.G6
           1%Z 4).
  - apply is_set_make_set.
  - by_evaluation.
  - by_evaluation.
  - vm_compute. reflexivity.
Defined.

(** ** Counting the generators of a cyclic group *)

Lemma count_loop_filter (n : Z) (remaining : nat) :
  forall (i : nat) (count : Z),
    (Z.of_nat (i + remaining) < size_t_modulus)%Z ->
    (0 <= count)%Z -> (count + Z.of_nat remaining < size_t_modulus)%Z ->
    EulerFunction.count_loop remaining (Z.of_nat i) n count =
    (count + Z.of_nat (length (filter (fun j => (Z.gcd (Z.of_nat j) n =? 1)%Z)
                                 (seq i remaining))))%Z.
Proof.
  induction remaining as [|r IH]; intros i count Hi Hc Hcr; simpl.
  - lia.
  - assert (Hw : wrap (Z.of_nat i + 1) = Z.of_nat (S i)).
    { unfold wrap. rewrite Z.mod_small; lia. }
    rewrite Hw.
    destruct (Z.gcd (Z.of_nat i) n =? 1)%Z.
    + unfold wrap at 1. rewrite Z.mod_small by lia.
      rewrite IH by lia. simpl length. lia.
    + rewrite IH by lia. reflexivity.
Qed.

Lemma Z_gcd_of_nat (a b : nat) : Z.gcd (Z.of_nat a) (Z.of_nat b) = Z.of_nat (Nat.gcd a b).
Proof.
  revert b. induction a as [a IH] using lt_wf_ind. intros b.
  destruct a as [|a'].
  - simpl. apply Z.abs_eq. lia.
  - change (Nat.gcd (S a') b) with (Nat.gcd (b mod S a') (S a')).
    rewrite <- IH by (apply Nat.mod_upper_bound; lia).
    rewrite Nat2Z.inj_mod. rewrite Z.gcd_mod by lia. reflexivity.
Qed.

Lemma count_coprime_filter (n : nat) :
  2 <= n -> (Z.of_nat n < size_t_modulus)%Z ->
  EulerFunction.count_coprime (Z.of_nat n) =
  Z.of_nat (length (filter (fun j => Nat.gcd j n =? 1) (seq 1 (n - 1)))).
Proof.
  intros Hn Hsmall. unfold EulerFunction.count_coprime.
  destruct (Z.of_nat n =? 0)%Z eqn:H0; [apply Z.eqb_eq in H0; lia|].
  destruct (Z.of_nat n =? 1)%Z eqn:H1; [apply Z.eqb_eq in H1; lia|].
  replace (Z.to_nat (Z.of_nat n - 1)) with (n - 1) by lia.
  pose proof (count_loop_filter (Z.of_nat n) (n - 1) 1 0) as Hloop.
  simpl Z.of_nat in Hloop at 3. rewrite Hloop by lia. clear Hloop.
  simpl Z.add. f_equal. f_equal. apply filter_ext. intros j.
  rewrite Z_gcd_of_nat.
  destruct (Nat.gcd j n =? 1) eqn:Hg.
  - apply Nat.eqb_eq in Hg. rewrite Hg. reflexivity.
  - apply Nat.eqb_neq in Hg. apply Z.eqb_neq. lia.
Qed.

Section GeneratorCount.
Context {T : Type} {E : Element T} {L : ElementLaws T}.
Variable G : Group (T := T).
Hypothesis VG : valid_group G.

Local Abbreviation carrier := (elements_ G).
Local Abbreviation e := (identity G).

Variable g : T.
Hypothesis Hg : In g carrier.
Hypothesis Hord : is_order G g (length carrier).

Lemma generator_power_order (k : nat) :
  is_order G (gpow G g k) (length carrier) <-> Nat.gcd k (length carrier) = 1.
Proof.
  pose proof (order_of_gpow G VG g _ k Hg Hord) as Hk.
  pose proof (carrier_nonempty G VG) as HN.
  rewrite (Nat.gcd_comm k). split.
  - intros Hfull.
    pose proof (is_order_unique G _ _ _ Hk Hfull) as Heq.
    destruct (Nat.gcd_divide_l (length carrier) k) as [q Hq].
    assert (Hg0 : Nat.gcd (length carrier) k <> 0).
    { intros H0. apply Nat.gcd_eq_0_l in H0. lia. }
    rewrite Hq in Heq at 1. rewrite Nat.div_mul in Heq by exact Hg0.
    rewrite Heq in Hq. nia.
  - intros Hco. rewrite Hco, Nat.div_1_r in Hk. exact Hk.
Qed.

Lemma generators_are_coprime_powers (gens : list T) :
  is_set gens ->
  (forall x, In x gens <-> In x carrier /\ is_order G x (length carrier)) ->
  length gens =
  length (filter (fun k => Nat.gcd k (length carrier) =? 1) (seq 0 (length carrier))).
Proof.
  intros Hset Hmem. destruct Hord as [_ [_ Hmin]].
  rewrite <- (length_map (gpow G g)).
  apply same_elements_length.
  - apply is_set_NoDup, Hset.
  - apply Finite.Injective_map_NoDup_in.
    + intros i j Hi Hj. apply filter_In in Hi, Hj. rewrite in_seq in Hi, Hj.
      apply (gpow_injective_below_order G VG g (length carrier)); try assumption; lia.
    + apply NoDup_filter, seq_NoDup.
  - intros x. rewrite Hmem, in_map_iff. split.
    + intros [Hx Hox].
      pose proof (powers_cover G VG g _ Hg eq_refl Hmin x Hx) as Hp.
      apply in_map_iff in Hp. destruct Hp as [k [<- Hk]].
      exists k. split; [reflexivity|]. apply filter_In. split; [exact Hk|].
      apply Nat.eqb_eq, generator_power_order, Hox.
    + intros [k [<- Hk]]. apply filter_In in Hk. destruct Hk as [_ Hco].
      split; [apply (gpow_in G VG), Hg|].
      apply generator_power_order, Nat.eqb_eq, Hco.
Qed.

Lemma coprime_count_from_zero (n : nat) :
  1 <= n ->
  Z.of_nat (length (filter (fun k => Nat.gcd k n =? 1) (seq 0 n))) =
  if (n =? 1) then 1%Z
  else Z.of_nat (length (filter (fun j => Nat.gcd j n =? 1) (seq 1 (n - 1)))).
Proof.
  intros Hn. destruct n as [|[|n]]; [lia | reflexivity |].
  assert (Hseq : seq 0 (S (S n)) = 0 :: seq 1 (S (S n) - 1)) by reflexivity.
  rewrite Hseq. cbn [filter].
  change (Nat.gcd 0 (S (S n))) with (S (S n)).
  change (S (S n) =? 1) with false. reflexivity.
Qed.

End GeneratorCount.

(** X27: in a valid cyclic group whose size fits [size_t] the number of
    generators is the number of integers between 1 and the order of the
    group that are coprime to it: the set that [find_all_generators]
    returns, which is also what [elements_of_order] returns for the order
    of the group, has [count_coprime] of the order many elements.  Where
    [verify_count] confirms Euler's formula for the order,
    [number_of_generators] returns that number. *)
Theorem generators_count_is_count_coprime {T : Type} {E : Element T} {L : ElementLaws T}
    (elements : list T) (op : T -> T -> T) (e : T) (inv : T -> T) (G : Group) :
  is_set elements -> Group_ctor elements op e inv = Ok G ->
  (Z.of_nat (size (get_set G)) < size_t_modulus)%Z ->
  CyclicGroup.is_cyclic G = Ok true ->
  exists gens,
    CyclicGroup.find_all_generators G = Ok gens /\
    ElementOrder.elements_of_order G (size (get_set G)) = Ok gens /\
    Z.of_nat (size gens) = EulerFunction.count_coprime (Z.of_nat (size (get_set G))) /\
    (EulerFunction.verify_count (Z.of_nat (size (get_set G))) = Some true ->
     EulerFunction.number_of_generators G = Ok (Some (Z.of_nat (size gens)))).
Proof.
  intros Hset HG Hsmall Hcyc.
  pose proof (Group_ctor_valid elements op e inv G Hset HG) as VG.
  destruct (find_all_generators_valid G VG) as [gens [Hgens [Hsg [Hmem Hcyc']]]].
  unfold size, get_set in *.
  exists gens. split; [exact Hgens|].
  assert (Hex : exists g, In g gens).
  { rewrite Hcyc in Hcyc'. destruct gens as [|g gens']; [discriminate|].
    exists g. left. reflexivity. }
  destruct Hex as [g Hg]. apply Hmem in Hg. destruct Hg as [Hg Hord].
  split.
  { rewrite (elements_of_order_valid G VG). f_equal.
    apply is_set_ext; [apply is_set_insert_if; exact I | exact Hsg |].
    intros x. rewrite In_insert_if, Hmem. simpl. split.
    - intros [[Hx Hf]|[]]. split; [exact Hx|]. apply (order_or_zero_eq G VG x _ Hx), Hf.
    - intros [Hx Hox]. left. split; [exact Hx|]. apply (order_or_zero_eq G VG x _ Hx), Hox. }
  assert (Hcount : Z.of_nat (length gens) =
                   EulerFunction.count_coprime (Z.of_nat (length (elements_ G)))).
  { rewrite (generators_are_coprime_powers G VG g Hg Hord gens Hsg Hmem).
    pose proof (carrier_nonempty G VG) as HN.
    rewrite (coprime_count_from_zero _ HN).
    destruct (length (elements_ G) =? 1) eqn:H1.
    - apply Nat.eqb_eq in H1. rewrite H1. reflexivity.
    - apply Nat.eqb_neq in H1. symmetry. apply count_coprime_filter; [lia | exact Hsmall]. }
  split; [exact Hcount|].
  intros Hv. unfold EulerFunction.number_of_generators. rewrite Hcyc. simpl.
  unfold size, get_set. unfold EulerFunction.verify_count in Hv.
  destruct (EulerFunction.compute (Z.of_nat (length (elements_ G)))) as [phi|];
    [|discriminate].
  injection Hv as Hv. apply Z.eqb_eq in Hv. rewrite Hv, <- Hcount. reflexivity.
Qed.

Lemma generators_count_is_count_coprime_witness :
  exists gens,
    CyclicGroup.find_all_generators Examples.G6 = Ok gens /\
    ElementOrder.elements_of_order Examples.G6 (size (get_set Examples.G6)) = Ok gens /\
    Z.of_nat (size gens) =
      EulerFunction.count_coprime (Z.of_nat (size (get_set Examples.G6))) /\
    (EulerFunction.verify_count (Z.of_nat (size (get_set Examples.G6))) = Some true ->
     EulerFunction.number_of_generators Examples.G6 = Ok (Some (Z.of_nat (size gens)))).
Proof.
  apply (generators_count_is_count_coprime Scenario.Z6 Scenario.add6 0%Z Scenario.neg6
           Examples.G6).
  - apply is_set_make_set.
  - by_evaluation.
  - vm_compute. reflexivity.
  - vm_compute. reflexivity.
Defined.

(** ** The algebra of sets *)

Section SetAlgebra.
Context {T : Type} {E : Element T} {L : ElementLaws T}.

Lemma below_not_in (a : T) (l : list T) :
  (forall y, In y l -> lt_op a y = true) -> ~ In a l.
Proof. intros Hall Hin. apply (lt_neq a a (Hall a Hin)). reflexivity. Qed.

Lemma below_head_not_in (a b : T) (l : list T) :
  lt_op a b = true -> is_set (b :: l) -> ~ In a (b :: l).
Proof.
  intros Hab [Hb _] [->|Hin].
  - rewrite lt_irrefl in Hab. discriminate.
  - apply (lt_neq a a); [|reflexivity]. apply (lt_trans a b a Hab), Hb, Hin.
Qed.

Lemma In_set_plus (lhs rhs : list T) (x : T) :
  In x (set_plus lhs rhs) <-> In x lhs \/ In x rhs.
Proof. unfold set_plus. rewrite In_fold_insert. tauto. Qed.

Lemma is_set_set_plus (lhs rhs : list T) : is_set lhs -> is_set (set_plus lhs rhs).
Proof. apply is_set_fold_insert. Qed.

Ltac head_cases a b :=
  destruct (lt_op a b) eqn:?Hab;
  [|destruct (lt_op b a) eqn:?Hba; [|pose proof (lt_total a b Hab Hba); subst b]].

Lemma In_std_set_intersection (l1 l2 : list T) (x : T) :
  is_set l1 -> is_set l2 ->
  (In x (std_set_intersection l1 l2) <-> In x l1 /\ In x l2).
Proof.
  revert l2. induction l1 as [|a l1 IH1]; intros l2 H1 H2; [simpl; tauto|].
  induction l2 as [|b l2 IH2]; [simpl; tauto|].
  pose proof H1 as [Ha H1']. pose proof H2 as [Hb H2'].
  cbn [std_set_intersection]. head_cases a b.
  - rewrite (IH1 (b :: l2) H1' H2).
    pose proof (below_head_not_in a b l2 Hab H2). simpl in *. intuition (subst; tauto).
  - fold (std_set_intersection (a :: l1) l2). rewrite (IH2 H2').
    pose proof (below_head_not_in b a l1 Hba H1). simpl in *. intuition (subst; tauto).
  - simpl. rewrite (IH1 l2 H1' H2').
    pose proof (below_not_in a l1 Ha). pose proof (below_not_in a l2 Hb).
    intuition (subst; tauto).
Qed.

Lemma In_std_set_difference (l1 l2 : list T) (x : T) :
  is_set l1 -> is_set l2 ->
  (In x (std_set_difference l1 l2) <-> In x l1 /\ ~ In x l2).
Proof.
  revert l2. induction l1 as [|a l1 IH1]; intros l2 H1 H2; [simpl; tauto|].
  induction l2 as [|b l2 IH2]; [simpl; tauto|].
  pose proof H1 as [Ha H1']. pose proof H2 as [Hb H2'].
  cbn [std_set_difference]. head_cases a b.
  - simpl In at 1. rewrite (IH1 (b :: l2) H1' H2).
    pose proof (below_head_not_in a b l2 Hab H2). simpl in *. intuition (subst; tauto).
  - fold (std_set_difference (a :: l1) l2). rewrite (IH2 H2').
    pose proof (below_head_not_in b a l1 Hba H1). simpl in *. intuition (subst; tauto).
  - rewrite (IH1 l2 H1' H2').
    pose proof (below_not_in a l1 Ha). pose proof (below_not_in a l2 Hb).
    simpl. intuition (subst; tauto).
Qed.

Lemma In_std_set_symmetric_difference (l1 l2 : list T) (x : T) :
  is_set l1 -> is_set l2 ->
  (In x (std_set_symmetric_difference l1 l2) <->
   (In x l1 /\ ~ In x l2) \/ (In x l2 /\ ~ In x l1)).
Proof.
  revert l2. induction l1 as [|a l1 IH1]; intros l2 H1 H2; [simpl; tauto|].
  induction l2 as [|b l2 IH2]; [simpl; tauto|].
  pose proof H1 as [Ha H1']. pose proof H2 as [Hb H2'].
  cbn [std_set_symmetric_difference]. head_cases a b.
  - simpl In at 1. rewrite (IH1 (b :: l2) H1' H2).
    pose proof (below_head_not_in a b l2 Hab H2). simpl in *. intuition (subst; tauto).
  - fold (std_set_symmetric_difference (a :: l1) l2). simpl In at 1. rewrite (IH2 H2').
    pose proof (below_head_not_in b a l1 Hba H1). simpl in *. intuition (subst; tauto).
  - rewrite (IH1 l2 H1' H2').
    pose proof (below_not_in a l1 Ha). pose proof (below_not_in a l2 Hb).
    simpl. intuition (subst; tauto).
Qed.

Lemma std_includes_spec (l1 l2 : list T) :
  is_set l1 -> is_set l2 ->
  (std_includes l1 l2 = true <-> forall x, In x l2 -> In x l1).
Proof.
  revert l2. induction l1 as [|a l1 IH1]; intros l2 H1 H2.
  - destruct l2 as [|b l2]; simpl.
    + tauto.
    + split; [discriminate|]. intros H. destruct (H b (or_introl eq_refl)).
  - destruct l2 as [|b l2]; [simpl; tauto|].
    pose proof H1 as [Ha H1']. pose proof H2 as [Hb H2'].
    cbn [std_includes].
    destruct (lt_op b a) eqn:Hba.
    + split; [discriminate|]. intros H. exfalso.
      apply (below_head_not_in b a l1 Hba H1), H. left. reflexivity.
    + destruct (lt_op a b) eqn:Hab; cbn [negb].
      * rewrite (IH1 (b :: l2) H1' H2). split.
        -- intros H x Hx. right. apply H, Hx.
        -- intros H x Hx. destruct (H x Hx) as [<-|Hin]; [|exact Hin].
           exfalso. apply (below_head_not_in a b l2 Hab H2), Hx.
      * pose proof (lt_total a b Hab Hba). subst b.
        rewrite (IH1 l2 H1' H2'). split.
        -- intros H x [<-|Hx]; [left; reflexivity | right; apply H, Hx].
        -- intros H x Hx. destruct (H x (or_intror Hx)) as [<-|Hin]; [|exact Hin].
           exfalso. apply (below_not_in a l2 Hb), Hx.
Qed.

Lemma In_erase (element : T) (s : list T) (x : T) :
  is_set s -> (In x (erase element s) <-> In x s /\ x <> element).
Proof.
  induction s as [|y s IH]; intros Hs; [simpl; tauto|].
  pose proof Hs as [Hy Hs']. cbn [erase]. head_cases element y.
  - pose proof (below_head_not_in element y s Hab Hs). simpl in *. intuition (subst; tauto).
  - simpl In at 1. rewrite (IH Hs'). simpl.
    pose proof (lt_neq y element Hba). intuition (subst; tauto).
  - pose proof (below_not_in element s Hy). simpl. intuition (subst; tauto).
Qed.

Lemma is_set_erase (element : T) (s : list T) : is_set s -> is_set (erase element s).
Proof.
  induction s as [|y s IH]; intros Hs; [exact I|].
  pose proof Hs as [Hy Hs']. cbn [erase]. head_cases element y; try assumption.
  split; [|apply IH, Hs'].
  intros z Hz. apply (In_erase element s z Hs') in Hz. apply Hy, Hz.
Qed.

Lemma proper_subset_sizes (A B : list T) :
  is_set A -> is_set B -> (forall x, In x A -> In x B) ->
  (length A < length B <-> exists y, In y B /\ ~ In y A).
Proof.
  intros HA HB Hsub. split.
  - intros Hlt. destruct (existsb (fun y => negb (contains A y)) B) eqn:Hex.
    + apply existsb_exists in Hex. destruct Hex as [y [Hy Hc]].
      exists y. split; [exact Hy|]. apply contains_false, negb_true_iff, Hc.
    + exfalso. assert (Hincl : forall y, In y B -> In y A).
      { intros y Hy. apply contains_In.
        destruct (contains A y) eqn:Hc; [reflexivity|].
        assert (Ht : existsb (fun y => negb (contains A y)) B = true).
        { apply existsb_exists. exists y. rewrite Hc. auto. }
        congruence. }
      pose proof (NoDup_incl_length (is_set_NoDup B HB) Hincl). lia.
  - intros [y [Hy Hn]].
    assert (Hnd : NoDup (y :: A)) by (constructor; [exact Hn | apply is_set_NoDup, HA]).
    assert (Hincl : incl (y :: A) B) by (intros z [<-|Hz]; auto).
    pose proof (NoDup_incl_length Hnd Hincl) as Hle. simpl in Hle. lia.
Qed.

End SetAlgebra.

(** X28: on sets, the operations of [Set] are the operations of set
    theory: [union_with], [intersection], [difference],
    [symmetric_difference] and [complement] return sets whose members are
    given by the usual laws, [is_subset_of] and [is_proper_subset_of]
    decide inclusion and proper inclusion, and [erase] removes exactly the
    given element. *)
Theorem set_operations_are_set_theoretic {T : Type} {E : Element T} {L : ElementLaws T}
    (A B : list T) :
  is_set A -> is_set B ->
  (is_set (union_with A B) /\
   forall x, In x (union_with A B) <-> In x A \/ In x B) /\
  (is_set (intersection A B) /\
   forall x, In x (intersection A B) <-> In x A /\ In x B) /\
  (is_set (difference A B) /\
   forall x, In x (difference A B) <-> In x A /\ ~ In x B) /\
  (is_set (symmetric_difference A B) /\
   forall x, In x (symmetric_difference A B) <->
             (In x A /\ ~ In x B) \/ (In x B /\ ~ In x A)) /\
  (forall x, In x (complement A B) <-> In x B /\ ~ In x A) /\
  (is_subset_of A B = true <-> forall x, In x A -> In x B) /\
  (is_proper_subset_of A B = true <->
   (forall x, In x A -> In x B) /\ exists y, In y B /\ ~ In y A) /\
  (forall a, is_set (erase a A) /\ forall x, In x (erase a A) <-> In x A /\ x <> a).
Proof.
  intros HA HB.
  split; [split; [apply is_set_set_plus, HA | apply In_set_plus]|].
  split; [split; [apply is_set_make_set|]|].
  { intros x. unfold intersection. rewrite In_make_set.
    apply In_std_set_intersection; assumption. }
  split; [split; [apply is_set_make_set|]|].
  { intros x. unfold difference. rewrite In_make_set.
    apply In_std_set_difference; assumption. }
  split; [split; [apply is_set_make_set|]|].
  { intros x. unfold symmetric_difference. rewrite In_make_set.
    apply In_std_set_symmetric_difference; assumption. }
  split.
  { intros x. unfold complement, difference. rewrite In_make_set.
    apply In_std_set_difference; assumption. }
  assert (Hsub : is_subset_of A B = true <-> forall x, In x A -> In x B)
    by (apply std_includes_spec; assumption).
  split; [exact Hsub|]. split.
  - unfold is_proper_subset_of, size. rewrite andb_true_iff, Hsub, Nat.ltb_lt. split.
    + intros [Hs Hlt]. split; [exact Hs|]. apply (proper_subset_sizes A B); assumption.
    + intros [Hs Hex]. split; [exact Hs|]. apply (proper_subset_sizes A B); assumption.
  - intros a. split; [apply is_set_erase, HA | intros x; apply In_erase, HA].
Qed.

Lemma set_operations_are_set_theoretic_witness :
  (is_set (union_with (make_set [1; 2; 3]%Z) (make_set [2; 5]%Z)) /\
   forall x, In x (union_with (make_set [1; 2; 3]%Z) (make_set [2; 5]%Z)) <->
             In x (make_set [1; 2; 3]%Z) \/ In x (make_set [2; 5]%Z)) /\
  (is_set (intersection (make_set [1; 2; 3]%Z) (make_set [2; 5]%Z)) /\
   forall x, In x (intersection (make_set [1; 2; 3]%Z) (make_set [2; 5]%Z)) <->
             In x (make_set [1; 2; 3]%Z) /\ In x (make_set [2; 5]%Z)) /\
  (is_set (difference (make_set [1; 2; 3]%Z) (make_set [2; 5]%Z)) /\
   forall x, In x (difference (make_set [1; 2; 3]%Z) (make_set [2; 5]%Z)) <->
             In x (make_set [1; 2; 3]%Z) /\ ~ In x (make_set [2; 5]%Z)) /\
  (is_set (symmetric_difference (make_set [1; 2; 3]%Z) (make_set [2; 5]%Z)) /\
   forall x, In x (symmetric_difference (make_set [1; 2; 3]%Z) (make_set [2; 5]%Z)) <->
             (In x (make_set [1; 2; 3]%Z) /\ ~ In x (make_set [2; 5]%Z)) \/
             (In x (make_set [2; 5]%Z) /\ ~ In x (make_set [1; 2; 3]%Z))) /\
  (forall x, In x (complement (make_set [1; 2; 3]%Z) (make_set [2; 5]%Z)) <->
             In x (make_set [2; 5]%Z) /\ ~ In x (make_set [1; 2; 3]%Z)) /\
  (is_subset_of (make_set [1; 2; 3]%Z) (make_set [2; 5]%Z) = true <->
   forall x, In x (make_set [1; 2; 3]%Z) -> In x (make_set [2; 5]%Z)) /\
  (is_proper_subset_of (make_set [1; 2; 3]%Z) (make_set [2; 5]%Z) = true <->
   (forall x, In x (make_set [1; 2; 3]%Z) -> In x (make_set [2; 5]%Z)) /\
   exists y, In y (make_set [2; 5]%Z) /\ ~ In y (make_set [1; 2; 3]%Z)) /\
  (forall a, is_set (erase a (make_set [1; 2; 3]%Z)) /\
             forall x, In x (erase a (make_set [1; 2; 3]%Z)) <->
                       In x (make_set [1; 2; 3]%Z) /\ x <> a).
Proof.
  apply (set_operations_are_set_theoretic (make_set [1; 2; 3]%Z) (make_set [2; 5]%Z)).
  - apply is_set_make_set.
  - apply is_set_make_set.
Defined.

(** ** Partitions into cosets *)

Section PartitionCheck.
Context {T : Type} {E : Element T} {L : ElementLaws T}.

Lemma empty_spec (s : list T) : empty s = true <-> forall x, ~ In x s.
Proof.
  destruct s as [|y s]; simpl.
  - split; [intros _ x [] | reflexivity].
  - split; [discriminate|]. intros H. exfalso. apply (H y). left. reflexivity.
Qed.

Lemma In_fold_union (family : list (list T)) (u : list T) (x : T) :
  In x (fold_left (fun union_set coset => union_with union_set coset) family u) <->
  In x u \/ exists c, In c family /\ In x c.
Proof.
  revert u. induction family as [|c family IH]; intros u; simpl.
  - split; [auto | intros [H|[c [[] _]]]; exact H].
  - rewrite IH. unfold union_with. rewrite In_set_plus. split.
    + intros [[Hu|Hc]|[c' [Hc' Hx]]]; eauto.
    + intros [Hu|[c' [[<-|Hc'] Hx]]]; eauto.
Qed.

Lemma is_set_fold_union (family : list (list T)) (u : list T) :
  is_set u ->
  is_set (fold_left (fun union_set coset => union_with union_set coset) family u).
Proof.
  revert u. induction family as [|c family IH]; intros u Hu; simpl; [exact Hu|].
  apply IH. apply is_set_set_plus, Hu.
Qed.

Lemma intersection_empty (A B : list T) :
  is_set A -> is_set B ->
  (empty (intersection A B) = true <-> forall x, In x A -> In x B -> False).
Proof.
  intros HA HB. rewrite empty_spec. unfold intersection. split.
  - intros H x Hx1 Hx2. apply (H x). rewrite In_make_set.
    apply In_std_set_intersection; auto.
  - intros H x Hx. rewrite In_make_set in Hx.
    apply In_std_set_intersection in Hx; [|assumption..]. apply (H x); tauto.
Qed.

Lemma pairwise_disjoint_spec (family : list (list T)) :
  (forall c, In c family -> is_set c) -> NoDup family ->
  (CosetPartition.pairwise_disjoint family = true <-> disjoint_family family).
Proof.
  unfold disjoint_family.
  induction family as [|c family IH]; intros Hsets Hnd; simpl.
  - split; [intros _ ? ? ? [] | reflexivity].
  - inversion Hnd as [|? ? Hnotin Hnd']; subst.
    assert (Hsets' : forall c', In c' family -> is_set c') by (intros; apply Hsets; right; assumption).
    rewrite andb_true_iff, forallb_forall, (IH Hsets' Hnd'). split.
    + intros [Hhead Hrest] c1 c2 x [<-|H1] [<-|H2] Hx1 Hx2.
      * reflexivity.
      * exfalso. specialize (Hhead c2 H2).
        apply (proj1 (intersection_empty c c2 (Hsets c (or_introl eq_refl)) (Hsets' c2 H2))
                 Hhead x); assumption.
      * exfalso. specialize (Hhead c1 H1).
        apply (proj1 (intersection_empty c c1 (Hsets c (or_introl eq_refl)) (Hsets' c1 H1))
                 Hhead x); assumption.
      * apply (Hrest c1 c2 x); assumption.
    + intros H. split.
      * intros c2 H2.
        apply (proj2 (intersection_empty c c2 (Hsets c (or_introl eq_refl)) (Hsets' c2 H2))).
        intros x Hx1 Hx2. apply Hnotin.
        rewrite (H c c2 x) by auto. exact H2.
      * intros c1 c2 x H1 H2. apply H; auto.
Qed.

Lemma verify_partition_spec (G : Group) (family : list (list T)) :
  is_set (get_set G) -> is_set family -> (forall c, In c family -> is_set c) ->
  (CosetPartition.verify_partition G family = true <->
   (forall x, In x (get_set G) <-> exists c, In c family /\ In x c) /\
   disjoint_family family).
Proof.
  intros HG Hfam Hsets. unfold CosetPartition.verify_partition.
  set (u := fold_left _ family []).
  assert (Hu : is_set u) by (apply is_set_fold_union; exact I).
  assert (Hin : forall x, In x u <-> exists c, In c family /\ In x c).
  { intros x. unfold u. rewrite In_fold_union. simpl. tauto. }
  rewrite <- (pairwise_disjoint_spec family Hsets (is_set_NoDup family Hfam)).
  destruct (set_eq u (get_set G)) eqn:Heq; simpl.
  - apply set_eq_spec in Heq. rewrite <- Heq. split; [|tauto].
    intros Hp. split; [exact Hin | exact Hp].
  - split; [discriminate|]. intros [Hcov _]. exfalso.
    assert (Hsame : u = get_set G).
    { apply is_set_ext; try assumption. intros x. rewrite Hin, Hcov. tauto. }
    apply set_eq_spec in Hsame. congruence.
Qed.

End PartitionCheck.

Section RightCosets.
Context {T : Type} {E : Element T} {L : ElementLaws T}.
Variable H : Subgroup.t (T := T).
Hypothesis VH : valid_subgroup H.

Local Abbreviation G := (Subgroup.parent_group H).
Local Abbreviation carrier := (elements_ G).
Local Abbreviation op := (operation_ G).
Local Abbreviation inv := (inverse_func_ G).
Local Abbreviation subset := (Subgroup.get_subset H).

Let VG : valid_group G := vs_group H VH.

Lemma valid_group_opposite : valid_group (opposite G).
Proof.
  constructor; simpl.
  - apply (vg_set G VG).
  - intros a b Ha Hb. apply (op_in G VG); assumption.
  - intros a b c Ha Hb Hc. symmetry. apply (op_assoc G VG); assumption.
  - split; [apply (e_in G VG)|]. intros a Ha.
    split; [apply (op_e_r G VG) | apply (op_e_l G VG)]; exact Ha.
  - intros a Ha. split; [apply (inv_in G VG), Ha|].
    split; [apply (op_inv_l G VG) | apply (op_inv_r G VG)]; exact Ha.
  - apply (vg_map G VG).
Qed.

Lemma valid_subgroup_opposite : valid_subgroup (opposite_subgroup H).
Proof.
  constructor; simpl.
  - apply valid_group_opposite.
  - apply (vs_set H VH).
  - apply (vs_nonempty H VH).
  - apply (vs_incl H VH).
  - intros a b Ha Hb. apply (sub_op H VH); [apply (sub_inv H VH), Hb | exact Ha].
Qed.

Lemma right_coset_partition_opposite :
  CosetPartition.right_coset_partition G H =
  LagrangesTheorem.find_all_cosets (opposite G) (opposite_subgroup H).
Proof.
  pose proof (find_all_cosets_fold (opposite_subgroup H) valid_subgroup_opposite) as Hfold.
  simpl in Hfold. rewrite Hfold. clear Hfold.
  unfold CosetPartition.right_coset_partition, get_set.
  rewrite (fold_each_fold_left _
             (fun cosets g =>
                if existsb (fun coset => contains coset g) cosets then cosets
                else insert (right_coset G subset g) cosets)).
  - f_equal. simpl.
    assert (Hsim : forall l (st : list (list T) * list T),
              fold_left (fun cosets g =>
                           if existsb (fun coset => contains coset g) cosets then cosets
                           else insert (right_coset G subset g) cosets) l (fst st) =
              fst (fold_left (cosets_step (opposite G) subset) l st)).
    { induction l as [|g l IH]; intros [cosets processed]; [reflexivity|].
      simpl. destruct (existsb (fun coset => contains coset g) cosets).
      - apply (IH (cosets, processed)).
      - match goal with |- _ = fst (fold_left _ l ?st') => apply (IH st') end. }
    apply (Hsim carrier ([], [])).
  - intros cosets g Hg. cbv zeta.
    destruct (existsb (fun coset => contains coset g) cosets); [reflexivity|].
    unfold Coset.ctor. rewrite (build_coset_right H VH g Hg). reflexivity.
Qed.

End RightCosets.

(** X29: for a validated subgroup [H] of a valid group [G],
    [left_coset_partition] and [right_coset_partition] return families
    that [verify_partition] accepts; the second consists of the right
    cosets [H ∘ g], holds the right coset of every element of [G], and has
    as many members as the first.  In general [verify_partition] accepts a
    family of sets exactly when its union is the carrier and no two
    different members share an element. *)
Theorem coset_partitions_are_partitions {T : Type} {E : Element T} {L : ElementLaws T}
    (elements : list T) (op : T -> T -> T) (e : T) (inv : T -> T) (G : Group)
    (subset : list T) (H : Subgroup.t) :
  is_set elements -> Group_ctor elements op e inv = Ok G ->
  is_set subset -> Subgroup.ctor G subset = Ok H ->
  (exists lcosets rcosets,
     CosetPartition.left_coset_partition G H = Ok lcosets /\
     CosetPartition.right_coset_partition G H = Ok rcosets /\
     CosetPartition.verify_partition G lcosets = true /\
     CosetPartition.verify_partition G rcosets = true /\
     (forall c, In c rcosets -> exists g, In g (get_set G) /\ c = right_coset G subset g) /\
     (forall g, In g (get_set G) -> In (right_coset G subset g) rcosets) /\
     size rcosets = size lcosets) /\
  (forall family, is_set family -> (forall c, In c family -> is_set c) ->
     (CosetPartition.verify_partition G family = true <->
      (forall x, In x (get_set G) <-> exists c, In c family /\ In x c) /\
      disjoint_family family)).
Proof.
  intros Hset HG Hsub HH.
  pose proof (Group_ctor_valid elements op e inv G Hset HG) as VG.
  destruct (Subgroup_ctor_valid G subset H VG Hsub HH) as [VH HeqH].
  assert (HGH : Subgroup.parent_group H = G) by (subst H; reflexivity).
  assert (HsH : Subgroup.get_subset H = subset) by (subst H; reflexivity).
  assert (Hspec : forall family, is_set family -> (forall c, In c family -> is_set c) ->
     (CosetPartition.verify_partition G family = true <->
      (forall x, In x (get_set G) <-> exists c, In c family /\ In x c) /\
      disjoint_family family)).
  { intros family. apply verify_partition_spec. apply (vg_set G VG). }
  split; [|exact Hspec].
  pose proof (valid_subgroup_opposite H VH) as VHo.
  destruct (find_all_cosets_partition H VH) as [lcosets [Hl CPl]].
  destruct (find_all_cosets_partition _ VHo) as [rcosets [Hr CPr]].
  simpl in Hr. rewrite <- (right_coset_partition_opposite H VH) in Hr.
  rewrite HGH in Hl, Hr.
  exists lcosets, rcosets.
  split; [exact Hl|]. split; [exact Hr|].
  assert (Hsetl : forall c, In c lcosets -> is_set c).
  { intros c Hc. destruct (cp_left H _ CPl c Hc) as [g [_ ->]]. apply is_set_make_set. }
  assert (Hsetr : forall c, In c rcosets -> is_set c).
  { intros c Hc. destruct (cp_left _ _ CPr c Hc) as [g [_ ->]]. apply is_set_make_set. }
  split.
  { apply (Hspec lcosets (cp_set H _ CPl) Hsetl). split.
    - intros x. rewrite <- HGH. apply (partition_union H VH lcosets CPl).
    - intros c1 c2 x. apply (partition_meet H VH lcosets CPl). }
  split.
  { apply (Hspec rcosets (cp_set _ _ CPr) Hsetr). split.
    - intros x. rewrite <- HGH. apply (partition_union _ VHo rcosets CPr).
    - intros c1 c2 x. apply (partition_meet _ VHo rcosets CPr). }
  split.
  { intros c Hc. destruct (cp_left _ _ CPr c Hc) as [g [Hg ->]].
    exists g. simpl in Hg. rewrite HGH in Hg. split; [exact Hg|].
    simpl. rewrite HGH, HsH. reflexivity. }
  split.
  { intros g Hg. unfold get_set in Hg. rewrite <- HGH in Hg.
    destruct (cp_cover _ _ CPr g Hg) as [c [Hc Hgc]].
    rewrite (partition_coset_of _ VHo rcosets CPr c g Hc Hgc) in Hc.
    simpl in Hc. rewrite HGH, HsH in Hc. exact Hc. }
  pose proof (lagrange_count H VH lcosets CPl) as Hcl.
  pose proof (lagrange_count _ VHo rcosets CPr) as Hcr. simpl in Hcr.
  unfold size. rewrite Hcl in Hcr.
  apply Nat.mul_cancel_l in Hcr; [symmetry; exact Hcr|].
  pose proof (vs_nonempty H VH) as Hne.
  destruct (Subgroup.get_subset H); [congruence | simpl; lia].
Qed.

Lemma coset_partitions_are_partitions_witness :
  (exists lcosets rcosets,
     CosetPartition.left_coset_partition Examples.GS3 Examples.HS3 = Ok lcosets /\
     CosetPartition.right_coset_partition Examples.GS3 Examples.HS3 = Ok rcosets /\
     CosetPartition.verify_partition Examples.GS3 lcosets = true /\
     CosetPartition.verify_partition Examples.GS3 rcosets = true /\
     (forall c, In c rcosets ->
        exists g, In g (get_set Examples.GS3) /\
                  c = right_coset Examples.GS3 (make_set [0; 1]%Z) g) /\
     (forall g, In g (get_set Examples.GS3) ->
        In (right_coset Examples.GS3 (make_set [0; 1]%Z) g) rcosets) /\
     size rcosets = size lcosets) /\
  (forall family, is_set family -> (forall c, In c family -> is_set c) ->
     (CosetPartition.verify_partition Examples.GS3 family = true <->
      (forall x, In x (get_set Examples.GS3) <-> exists c, In c family /\ In x c) /\
      disjoint_family family)).
Proof.
  apply (coset_partitions_are_partitions Scenario.S3 Scenario.mulS3 0%Z Scenario.invS3
           Examples.GS3 (make_set [0; 1]%Z) Examples.HS3).
  - apply is_set_make_set.
  - by_evaluation.
  - apply is_set_make_set.
  - by_evaluation.
Defined.

(** ** The center and the centralizers *)

Section CenterFacts.
Context {T : Type} {E : Element T} {L : ElementLaws T}.
Variable G : Group (T := T).
Hypothesis VG : valid_group G.

Local Abbreviation carrier := (elements_ G).
Local Abbreviation op := (operation_ G).
Local Abbreviation e := (identity G).
Local Abbreviation inv := (inverse_func_ G).

Lemma commutes_with_all_valid (x : T) :
  In x carrier ->
  Center.commutes_with_all G x =
  Ok (forallb (fun g => eq_op (op x g) (op g x)) carrier).
Proof.
  intros Hx. unfold Center.commutes_with_all, get_set. apply for_all_forallb.
  intros g Hg. rewrite !(operate_valid G VG) by assumption. reflexivity.
Qed.

Lemma commutes_forallb (x : T) :
  forallb (fun g => eq_op (op x g) (op g x)) carrier = true <->
  (forall g, In g carrier -> op x g = op g x).
Proof.
  rewrite forallb_forall. split; intros H g Hg; apply eq_op_spec, H, Hg.
Qed.

Lemma Center_compute_valid :
  Center.compute G =
  Ok (insert_if (fun x => forallb (fun g => eq_op (op x g) (op g x)) carrier) carrier []).
Proof.
  unfold Center.compute, get_set. apply fold_each_fold_left. intros s x Hx.
  rewrite (commutes_with_all_valid x Hx). simpl.
  destruct (forallb _ carrier); reflexivity.
Qed.

Lemma In_center (x : T) :
  In x (insert_if (fun x => forallb (fun g => eq_op (op x g) (op g x)) carrier) carrier []) <->
  In x carrier /\ forall g, In g carrier -> op x g = op g x.
Proof. rewrite In_insert_if, commutes_forallb. simpl. tauto. Qed.

(** The inverse of an element commutes with whatever the element commutes
    with. *)
Lemma inverse_commutes (b g : T) :
  In b carrier -> In g carrier -> op b g = op g b -> op (inv b) g = op g (inv b).
Proof.
  intros Hb Hg Hbg. pose proof (inv_in G VG b Hb) as Hib.
  assert (Hcl : forall x y, In x carrier -> In y carrier -> In (op x y) carrier)
    by (apply (op_in G VG)).
  apply (cancel_l G VG b); auto.
  rewrite <- (op_assoc G VG b (inv b) g) by auto.
  rewrite (op_inv_r G VG), (op_e_l G VG) by auto.
  rewrite <- (op_assoc G VG b g (inv b)) by auto.
  rewrite Hbg, (op_assoc G VG g b (inv b)) by auto.
  rewrite (op_inv_r G VG), (op_e_r G VG) by auto. reflexivity.
Qed.

Lemma quotient_commutes (a b g : T) :
  In a carrier -> In b carrier -> In g carrier ->
  op a g = op g a -> op b g = op g b ->
  op (op a (inv b)) g = op g (op a (inv b)).
Proof.
  intros Ha Hb Hg Hag Hbg. pose proof (inv_in G VG b Hb) as Hib.
  rewrite (op_assoc G VG a (inv b) g) by auto.
  rewrite (inverse_commutes b g Hb Hg Hbg).
  rewrite <- (op_assoc G VG a g (inv b)) by auto.
  rewrite Hag. apply (op_assoc G VG); auto.
Qed.

Lemma center_subgroup (Z : list T) :
  is_set Z ->
  (forall x, In x Z <-> In x carrier /\ forall g, In g carrier -> op x g = op g x) ->
  let H := {| Subgroup.parent_group_ := G; Subgroup.subset_ := Z |} in
  Subgroup.ctor G Z = Ok H /\ valid_subgroup H /\ conjugation_closed H.
Proof.
  intros HZ Hmem H.
  assert (He : In e Z).
  { apply Hmem. split; [apply (e_in G VG)|]. intros g Hg.
    rewrite (op_e_l G VG), (op_e_r G VG) by exact Hg. reflexivity. }
  destruct (Subgroup_ctor_succeeds G VG Z HZ) as [Hctor VH].
  - intros Heq. rewrite Heq in He. destruct He.
  - intros a Ha. apply Hmem, Ha.
  - intros a b Ha Hb. apply Hmem in Ha, Hb. destruct Ha as [Ha Hca]. destruct Hb as [Hb Hcb].
    apply Hmem. split; [apply (op_in G VG); [exact Ha | apply (inv_in G VG), Hb]|].
    intros g Hg. apply quotient_commutes; auto.
  - split; [exact Hctor|]. split; [exact VH|].
    intros g z Hg Hz. simpl in *. pose proof Hz as Hz'. apply Hmem in Hz'.
    destruct Hz' as [Hzc Hcomm].
    rewrite <- (Hcomm g Hg).
    rewrite (op_assoc G VG) by (try assumption; apply (inv_in G VG), Hg).
    rewrite (op_inv_r G VG), (op_e_r G VG) by assumption. exact Hz.
Qed.

Lemma Centralizer_compute_valid (a : T) :
  In a carrier ->
  Centralizer.compute G a =
  Ok (insert_if (fun g => eq_op (op g a) (op a g)) carrier []).
Proof.
  intros Ha. unfold Centralizer.compute, get_set.
  rewrite (proj2 (contains_In _ _) Ha). simpl.
  apply fold_each_fold_left. intros s g Hg.
  rewrite !(operate_valid G VG) by assumption. simpl.
  destruct (eq_op (op g a) (op a g)); reflexivity.
Qed.

Lemma centralizer_subgroup (a : T) (C : list T) :
  In a carrier -> is_set C ->
  (forall g, In g C <-> In g carrier /\ op g a = op a g) ->
  let H := {| Subgroup.parent_group_ := G; Subgroup.subset_ := C |} in
  Subgroup.ctor G C = Ok H /\ valid_subgroup H.
Proof.
  intros Ha HC Hmem H.
  assert (He : In e C).
  { apply Hmem. split; [apply (e_in G VG)|].
    rewrite (op_e_l G VG), (op_e_r G VG) by exact Ha. reflexivity. }
  apply (Subgroup_ctor_succeeds G VG C HC).
  - intros Heq. rewrite Heq in He. destruct He.
  - intros x Hx. apply Hmem, Hx.
  - intros x y Hx Hy. apply Hmem in Hx, Hy.
    destruct Hx as [Hx Hcx]. destruct Hy as [Hy Hcy].
    apply Hmem. split; [apply (op_in G VG); [exact Hx | apply (inv_in G VG), Hy]|].
    apply quotient_commutes; auto.
Qed.

End CenterFacts.

(** X30: on a valid group [Center::compute] returns the set of the
    elements that commute with every element; [as_subgroup] never throws,
    and the subgroup it returns is normal; [is_in_center] is the membership
    test of the center; [Center::is_abelian] answers as
    [Group::is_abelian] does.  For every element [a] of the group
    [Centralizer::compute] returns the set of the elements commuting with
    [a], which holds [a] and the center, and [Centralizer::as_subgroup]
    never throws. *)
Theorem center_is_a_normal_subgroup {T : Type} {E : Element T} {L : ElementLaws T}
    (elements : list T) (op : T -> T -> T) (e : T) (inv : T -> T) (G : Group) :
  is_set elements -> Group_ctor elements op e inv = Ok G ->
  exists Z,
    Center.compute G = Ok Z /\ is_set Z /\
    (forall x, In x Z <-> In x elements /\ forall g, In g elements -> op x g = op g x) /\
    Center.as_subgroup G = Ok {| Subgroup.parent_group_ := G; Subgroup.subset_ := Z |} /\
    NormalSubgroup.ctor {| Subgroup.parent_group_ := G; Subgroup.subset_ := Z |} =
      Ok {| NormalSubgroup.base :=
              {| Subgroup.parent_group_ := G; Subgroup.subset_ := Z |} |} /\
    (forall x, Center.is_in_center G x = Ok (contains Z x)) /\
    Center.is_abelian G = is_abelian G /\
    (forall a, In a elements ->
       exists C,
         Centralizer.compute G a = Ok C /\ is_set C /\
         (forall g, In g C <-> In g elements /\ op g a = op a g) /\
         Centralizer.as_subgroup G a =
           Ok {| Subgroup.parent_group_ := G; Subgroup.subset_ := C |} /\
         In a C /\ (forall z, In z Z -> In z C)).
Proof.
  intros Hset HG. pose proof (Group_ctor_valid elements op e inv G Hset HG) as VG.
  assert (Hfields : elements_ G = elements /\ operation_ G = op).
  { apply Group_ctor_Ok in HG. destruct HG as [_ [_ [_ [_ ->]]]]. split; reflexivity. }
  destruct Hfields as [Hel Hop].
  set (Z := insert_if (fun x => forallb (fun g => eq_op (operation_ G x g) (operation_ G g x))
                                  (elements_ G)) (elements_ G) []).
  assert (HZ : is_set Z) by (apply is_set_insert_if; exact I).
  pose proof (In_center G) as Hmem. fold Z in Hmem.
  destruct (center_subgroup G VG Z HZ Hmem) as [Hctor [VH NH]].
  exists Z. split; [apply (Center_compute_valid G VG)|]. split; [exact HZ|].
  split; [rewrite <- Hel, <- Hop; exact Hmem|].
  split.
  { unfold Center.as_subgroup. rewrite (Center_compute_valid G VG). exact Hctor. }
  split; [apply (NormalSubgroup_ctor_succeeds _ VH NH)|].
  split.
  { intros x. unfold Center.is_in_center, get_set.
    destruct (contains (elements_ G) x) eqn:Hx; simpl.
    - apply contains_In in Hx. rewrite (commutes_with_all_valid G VG x Hx). f_equal.
      apply eq_true_iff_eq. rewrite contains_In, Hmem, (commutes_forallb G). tauto.
    - f_equal. symmetry. apply contains_false. apply contains_false in Hx.
      rewrite Hmem. tauto. }
  split.
  { unfold Center.is_abelian. rewrite (Center_compute_valid G VG). fold Z. simpl.
    destruct (is_commutative_Ok G VG) as [b Hb]. unfold is_abelian. rewrite Hb.
    f_equal. apply eq_true_iff_eq. rewrite set_eq_spec. unfold get_set. split.
    - intros Heq.
      assert (Hc : is_commutative G = Ok true).
      { apply (is_commutative_true G VG).
        intros x y Hx Hy. rewrite <- Heq in Hx. apply Hmem in Hx. apply Hx, Hy. }
      congruence.
    - intros ->. apply is_set_ext; [exact HZ | apply (vg_set G VG) |].
      intros x. rewrite Hmem. split; [tauto|]. intros Hx. split; [exact Hx|].
      intros g Hg. apply (proj1 (is_commutative_true G VG) Hb); assumption. }
  intros a Ha. rewrite <- Hel in Ha.
  set (C := insert_if (fun g => eq_op (operation_ G g a) (operation_ G a g)) (elements_ G) []).
  assert (HC : is_set C) by (apply is_set_insert_if; exact I).
  assert (HmemC : forall g, In g C <-> In g (elements_ G) /\ operation_ G g a = operation_ G a g).
  { intros g. unfold C. rewrite In_insert_if, eq_op_spec. simpl. tauto. }
  destruct (centralizer_subgroup G VG a C Ha HC HmemC) as [HctorC _].
  exists C. split; [apply (Centralizer_compute_valid G VG a Ha)|]. split; [exact HC|].
  split; [rewrite <- Hel, <- Hop; exact HmemC|].
  split.
  { unfold Centralizer.as_subgroup. rewrite (Centralizer_compute_valid G VG a Ha). exact HctorC. }
  split; [apply HmemC; auto|].
  intros z Hz. apply Hmem in Hz. apply HmemC. split; [tauto|]. apply Hz, Ha.
Qed.

Lemma center_is_a_normal_subgroup_witness :
  exists Z,
    Center.compute Examples.GS3 = Ok Z /\ is_set Z /\
    (forall x, In x Z <->
               In x Scenario.S3 /\
               forall g, In g Scenario.S3 -> Scenario.mulS3 x g = Scenario.mulS3 g x) /\
    Center.as_subgroup Examples.GS3 =
      Ok {| Subgroup.parent_group_ := Examples.GS3; Subgroup.subset_ := Z |} /\
    NormalSubgroup.ctor {| Subgroup.parent_group_ := Examples.GS3; Subgroup.subset_ := Z |} =
      Ok {| NormalSubgroup.base :=
              {| Subgroup.parent_group_ := Examples.GS3; Subgroup.subset_ := Z |} |} /\
    (forall x, Center.is_in_center Examples.GS3 x = Ok (contains Z x)) /\
    Center.is_abelian Examples.GS3 = is_abelian Examples.GS3 /\
    (forall a, In a Scenario.S3 ->
       exists C,
         Centralizer.compute Examples.GS3 a = Ok C /\ is_set C /\
         (forall g, In g C <-> In g Scenario.S3 /\ Scenario.mulS3 g a = Scenario.mulS3 a g) /\
         Centralizer.as_subgroup Examples.GS3 a =
           Ok {| Subgroup.parent_group_ := Examples.GS3; Subgroup.subset_ := C |} /\
         In a C /\ (forall z, In z Z -> In z C)).
Proof.
  apply (center_is_a_normal_subgroup Scenario.S3 Scenario.mulS3 0%Z Scenario.invS3
           Examples.GS3).
  - apply is_set_make_set.
  - by_evaluation.
Defined.
